(** * Workspace size calculator (src/src/workspaceSize.ts)

    A shallow embedding of [formatBytes], of the class
    [WorkspaceSizeCalculator] ([calculate], [calculateFolderSize],
    [processStatRequests]) and of the status bar indicator that shows their
    results, with the properties the specification states about them.

    Conventions of the embedding
    - A JavaScript number is one of the three non-finite values or a finite
      binary64 value, which is represented by the rational it denotes.
      Addition rounds to the nearest binary64 value, ties to even
      ([Number.add]); comparisons and the divisions by 1024 of [formatBytes]
      are exact on binary64. File sizes, byte totals, the concurrency limit
      and the index of the chunk loop are numbers.
    - The vscode API is the environment: [Uri] with [toString] and [joinPath]
      is an interface ([UriOps]), the file system is a pair of partial
      functions ([readDirectory], [stat]) whose failure ([None]) stands for a
      rejected promise. A listing is a JavaScript array and so has fewer than
      2^32 entries.
    - An [async] method is a function over the local variables it mutates and a
      [World] that counts the suspension points passed ([clock]) and records
      the file-system operations issued ([trace]).
    - A cancellation token is read through the clock: [token n] is what
      [token.isCancellationRequested] yields after [n] suspension points.
    - The [while] loop of [calculateFolderSize] runs on fuel: [None] means the
      fuel did not suffice, never a failure of the program. *)

From Stdlib Require Import ZArith QArith Qround Qabs String Ascii List DecimalString DecimalN DecimalPos Lia Lqa.
From stdpp Require Import gmap strings list.
Import ListNotations.

Open Scope Z_scope.

(** ** JavaScript numbers *)

Module Number.

(** A JavaScript number. A finite binary64 value is represented by the
    rational it denotes. *)
Inductive number : Type :=
| NaN
| PosInfinity
| NegInfinity
| Finite (q : Q).

(** The number of an integer (one that binary64 holds). *)
Definition ofZ (z : Z) : number := Finite (inject_Z z).
Definition ofNat (n : nat) : number := ofZ (Z.of_nat n).

(** [Number.isFinite]. *)
Definition isFinite (x : number) : bool :=
  match x with
  | Finite _ => true
  | _ => false
  end.

(** [x < y], false whenever an operand is [NaN]. *)
Definition ltb (x y : number) : bool :=
  match x, y with
  | NaN, _ | _, NaN => false
  | _, NegInfinity => false
  | NegInfinity, _ => true
  | PosInfinity, _ => false
  | Finite _, PosInfinity => true
  | Finite a, Finite b => negb (Qle_bool b a)
  end.

(** [x === y]. *)
Definition eqb (x y : number) : bool :=
  match x, y with
  | PosInfinity, PosInfinity | NegInfinity, NegInfinity => true
  | Finite a, Finite b => Qeq_bool a b
  | _, _ => false
  end.

(** [2 ^ k] for any integer [k]. *)
Definition pow2 (k : Z) : Q :=
  match k with
  | Zneg p => 1 # (2 ^ p)
  | _ => inject_Z (2 ^ k)
  end.

(** The integer [e] with [2 ^ e <= a < 2 ^ (e + 1)], for [0 < a]. *)
Definition ilog2 (a : Q) : Z :=
  let e := Z.log2 (Qnum a) - Z.log2 (Zpos (Qden a)) in
  if Qle_bool (pow2 e) a then e else e - 1.

(** The integer nearest to [x], the even one on a tie. *)
Definition nearestEven (x : Q) : Z :=
  let f := Qfloor x in
  match (x - inject_Z f ?= 1 # 2)%Q with
  | Lt => f
  | Gt => f + 1
  | Eq => if Z.even f then f else f + 1
  end.

(** The binary64 value of a real number (IEEE 754 roundTiesToEven): 53
    significant bits, exponents from -1022 (below, the subnormal values) to
    1023 (above, an infinity). *)
Definition round (q : Q) : number :=
  let q := Qred q in
  let a := Qabs q in
  let k := Z.max (ilog2 a) (-1022) - 52 in
  let m := nearestEven (a * pow2 (- k)) in
  let r := (inject_Z m * pow2 k)%Q in
  if Qle_bool (pow2 1024) r
  then if Qle_bool 0 q then PosInfinity else NegInfinity
  else Finite (Qred (if Qle_bool 0 q then r else - r)).

(** [x + y]. *)
Definition add (x y : number) : number :=
  match x, y with
  | NaN, _ | _, NaN => NaN
  | PosInfinity, NegInfinity | NegInfinity, PosInfinity => NaN
  | PosInfinity, _ | _, PosInfinity => PosInfinity
  | NegInfinity, _ | _, NegInfinity => NegInfinity
  | Finite a, Finite b => round (a + b)
  end.

(** [Math.max (x, y)]. *)
Definition max (x y : number) : number :=
  match x, y with
  | NaN, _ | _, NaN => NaN
  | _, _ => if ltb x y then y else x
  end.

(** The integral part of [q] (rounding towards zero). *)
Definition truncate (q : Q) : Z := if Qle_bool 0 q then Qfloor q else Qceiling q.

(** The position in an array of length [len] that [Array.prototype.slice]
    takes a bound for: ToIntegerOrInfinity, a negative bound counted from the
    end, the result kept within the array. *)
Definition relativeIndex (x : number) (len : Z) : Z :=
  match x with
  | NaN | NegInfinity => 0
  | PosInfinity => len
  | Finite q =>
      let relative := truncate q in
      if relative <? 0 then Z.max (len + relative) 0 else Z.min relative len
  end.

(** The decimal digits of a non-negative integer, without leading zeros. *)
Definition decimal (n : Z) : list ascii :=
  list_ascii_of_string (NilZero.string_of_uint (N.to_uint (Z.to_N n))).

(** The integer closest to [x * 10 ^ f], the larger one on a tie (step 11.a of
    Number.prototype.toFixed), for [0 <= x]. *)
Definition nearest (x : Q) (f : nat) : Z :=
  Qfloor (x * inject_Z (10 ^ Z.of_nat f) + (1 # 2)).

(** The digit string of [n] left-padded with zeros to more than [f] digits. *)
Definition padded (n : Z) (f : nat) : list ascii :=
  let m := decimal n in
  repeat "0"%char (S f - length m) ++ m.

(** Whether the real number [c] has the binary64 value [x]. *)
Definition denotes (c : Z) (x : Q) : bool :=
  match round (inject_Z c) with
  | Finite r => Qeq_bool r x
  | _ => false
  end.

(** Step 5 of Number::toString for an integer [x] of [n] digits: the least
    number [k] of digits, from [k] on, and an integer [s] of [k] digits such
    that [s * 10 ^ (n - k)] has the binary64 value [x]; of two such [s] the
    one closer to [x], the even one on a tie. The result is [s] and the
    decimal exponent [n - 1] (or [1] and [n] when [s * 10 ^ (n - k)] is
    [10 ^ n]). Seventeen digits always suffice for a binary64 value. *)
Fixpoint shortest (fuel : nat) (k : Z) (x : Z) (n : Z) : Z * Z :=
  let p := 10 ^ (n - k) in
  let lo := x / p in
  let hi := lo + 1 in
  let low := (lo, n - 1) in
  let high := if hi =? 10 ^ k then (1, n) else (hi, n - 1) in
  match fuel with
  | O => low
  | S fuel' =>
      match denotes (lo * p) (inject_Z x), denotes (hi * p) (inject_Z x) with
      | true, true =>
          match (x - lo * p ?= hi * p - x) with
          | Lt => low
          | Gt => high
          | Eq => if Z.even lo then low else high
          end
      | true, false => low
      | false, true => high
      | false, false => shortest fuel' (k + 1) x n
      end
  end.

(** Number::toString of a number [x >= 10 ^ 21] (a binary64 value of that size
    is an integer): exponent notation, with a point after the first digit
    when there are more. *)
Definition exponential (x : Q) : list ascii :=
  let x := Qfloor x in
  let n := Z.of_nat (length (decimal x)) in
  let '(s, e) := shortest 17 1 x n in
  match decimal s with
  | [] => []
  | [d] => d :: "e"%char :: "+"%char :: decimal e
  | d :: ds => d :: "."%char :: ds ++ "e"%char :: "+"%char :: decimal e
  end.

(** [Number.prototype.toFixed (fractionDigits)] on a finite value, after
    ECMA-262: the sign, then for a magnitude below 10^21 the digits of the
    nearest integer to [x * 10^f], with a decimal point before the last [f]
    digits when [f] is not 0, and from 10^21 on what Number::toString
    gives. *)
Definition toFixed (x : Q) (fractionDigits : nat) : string :=
  let s := if Qle_bool 0 x then [] else ["-"%char] in
  if Qle_bool (inject_Z (10 ^ 21)) (Qabs x) then
    string_of_list_ascii (s ++ exponential (Qabs x))
  else
    let m := padded (nearest (Qabs x) fractionDigits) fractionDigits in
    let k := length m in
    string_of_list_ascii
      (s ++ match fractionDigits with
            | O => m
            | _ => take (k - fractionDigits) m ++ "."%char :: drop (k - fractionDigits) m
            end).

End Number.
Import Number.

(** ** formatBytes *)

Definition units : list string := ["B"; "KB"; "MB"; "GB"; "TB"; "PB"]%string.

(** The [while] loop of [formatBytes]; every iteration increments [unitIndex],
    which stays below [units.length - 1], so [fuel = units.length] iterations
    are never all used ([scaleLoop_exit]). *)
Fixpoint scaleLoop (fuel : nat) (value : Q) (unitIndex : nat) : Q * nat :=
  match fuel with
  | O => (value, unitIndex)
  | S fuel' =>
      if Qle_bool 1024 value && (unitIndex <? length units - 1)%nat
      then scaleLoop fuel' (value / 1024) (unitIndex + 1)
      else (value, unitIndex)
  end.

Definition formatBytes (bytes : number) : string :=
  if negb (isFinite bytes) || ltb bytes (Finite 0) then "0 B"%string
  else
    match bytes with
    | Finite q =>
        let '(value, unitIndex) := scaleLoop (length units) q 0 in
        let formatted :=
          if Qle_bool 100 value || (unitIndex =? 0)%nat
          then toFixed value 0 else toFixed value 1 in
        (formatted +:+ " " +:+ nth unitIndex units "undefined")%string
    | _ => "0 B"%string (* not reached: the guard returns for non-finite values *)
    end.

(** ** The vscode API, as far as the calculator uses it *)

(** [vscode.FileType], a bit mask. *)
Module FileType.
Definition Unknown : Z := 0.
Definition File : Z := 1.
Definition Directory : Z := 2.
Definition SymbolicLink : Z := 64.

(** Truthiness of [type & flag]. *)
Definition has (type flag : Z) : bool := negb (Z.land type flag =? 0).
End FileType.

(** [vscode.FileStat]; the time stamps are not read. *)
Module FileStat.
Record t : Type := { type : Z; size : number }.
End FileStat.

(** [vscode.Uri]: the two operations the calculator calls. *)
Class UriOps (Uri : Type) : Type := {
  toString : Uri -> string;
  joinPath : Uri -> string -> Uri
}.

(** [vscode.workspace.fs]: a rejected promise is [None]; a listing is an
    array, whose length is below 2^32. *)
Record FileSystem (Uri : Type) : Type := {
  readDirectory : Uri -> option (list (string * Z));
  stat : Uri -> option FileStat.t;
  readDirectory_array :
    forall u entries, readDirectory u = Some entries -> Z.of_nat (length entries) < 2 ^ 32
}.
Arguments readDirectory {Uri} _ _.
Arguments stat {Uri} _ _.
Arguments readDirectory_array {Uri} _ _ _ _.

Module WorkspaceFolder.
Record t (Uri : Type) : Type := { uri : Uri; name : string; index : Z }.
Arguments uri {Uri} _.
Arguments name {Uri} _.
Arguments index {Uri} _.
End WorkspaceFolder.

(** ** Data of workspaceSize.ts *)

Module FolderSizeResult.
Record t (Uri : Type) : Type := { folder : WorkspaceFolder.t Uri; size : number }.
Arguments folder {Uri} _.
Arguments size {Uri} _.
End FolderSizeResult.

(** [statConcurrency?: number]; [None] is an absent (or undefined) option. *)
Module WorkspaceSizeCalculatorOptions.
Record t : Type := { statConcurrency : option number }.
End WorkspaceSizeCalculatorOptions.

Definition DEFAULT_CONCURRENCY : number := ofZ 32.

Record WorkspaceSizeCalculator : Type := {
  options : WorkspaceSizeCalculatorOptions.t;
  statConcurrency : number
}.

(** The constructor. *)
Definition new (options : WorkspaceSizeCalculatorOptions.t) : WorkspaceSizeCalculator :=
  {| options := options;
     statConcurrency :=
       Number.max (ofZ 1)
         (default DEFAULT_CONCURRENCY
            (WorkspaceSizeCalculatorOptions.statConcurrency options)) |}.

(** The local variables of [calculateFolderSize] that the [onResult] closures
    capture. [pendingDirectories] is kept with the top of the stack first:
    [push] is [cons] and [pop] takes the head, so the list is the JavaScript
    array read from its last element to its first. *)
Record Locals (Uri : Type) : Type := {
  totalSize : number;
  pendingDirectories : list Uri
}.
Arguments totalSize {Uri} _.
Arguments pendingDirectories {Uri} _.

Module StatRequest.
Record t (Uri : Type) : Type := {
  uri : Uri;
  onResult : option FileStat.t -> Locals Uri -> Locals Uri
}.
Arguments uri {Uri} _.
Arguments onResult {Uri} _ _ _.
End StatRequest.

(** File-system operations, as they appear in a task's trace. *)
Inductive Event (Uri : Type) : Type :=
| ReadDirectory (u : Uri)
| StatIssued (u : Uri)
| StatSettled (u : Uri).
Arguments ReadDirectory {Uri} _.
Arguments StatIssued {Uri} _.
Arguments StatSettled {Uri} _.

(** What a task has done so far: the number of suspension points ([await]s of
    file-system promises) it has passed, and the operations it issued, oldest
    first. *)
Record World (Uri : Type) : Type := {
  clock : nat;
  trace : list (Event Uri)
}.
Arguments clock {Uri} _.
Arguments trace {Uri} _.

(** The state of the [while] loop of [calculateFolderSize]. *)
Record LoopState (Uri : Type) : Type := {
  locals : Locals Uri;
  visitedDirectories : gset string;
  world : World Uri
}.
Arguments locals {Uri} _.
Arguments visitedDirectories {Uri} _.
Arguments world {Uri} _.

(** [Array.prototype.slice (start, end)]: the elements from the position of
    [start] up to, not including, the position of [end]. *)
Definition slice {A : Type} (l : list A) (start end_ : number) : list A :=
  let len := Z.of_nat (length l) in
  let k := relativeIndex start len in
  let final := relativeIndex end_ len in
  take (Z.to_nat (final - k)) (drop (Z.to_nat k) l).

Section Calculator.
Context {Uri : Type} `{UriOps Uri}.
Variable fs : FileSystem Uri.
Variable this : WorkspaceSizeCalculator.
(** [token n]: the value of [token.isCancellationRequested] once the task has
    passed [n] suspension points. *)
Variable token : nat -> bool.

Definition isCancellationRequested (w : World Uri) : bool := token (clock w).

Definition push (u : Uri) (l : Locals Uri) : Locals Uri :=
  {| totalSize := totalSize l; pendingDirectories := u :: pendingDirectories l |}.

(** [totalSize += n]. *)
Definition addSize (n : number) (l : Locals Uri) : Locals Uri :=
  {| totalSize := Number.add (totalSize l) n; pendingDirectories := pendingDirectories l |}.

(** The [onResult] closure of an entry listed as a file. *)
Definition fileResult (stat : option FileStat.t) (l : Locals Uri) : Locals Uri :=
  match stat with
  | Some st =>
      if FileType.has (FileStat.type st) FileType.File
      then addSize (FileStat.size st) l else l
  | None => l
  end.

(** The [onResult] closure of an entry of unknown type. *)
Definition unknownResult (entryUri : Uri) (stat : option FileStat.t) (l : Locals Uri)
  : Locals Uri :=
  match stat with
  | None => l
  | Some st =>
      if FileType.has (FileStat.type st) FileType.Directory then push entryUri l
      else if FileType.has (FileStat.type st) FileType.File
           then addSize (FileStat.size st) l
           else l
  end.

(** The [for (const [name, type] of entries)] loop. It has no suspension
    point, so every cancellation check in it reads the token at the same
    clock. *)
Fixpoint forEntries (w : World Uri) (currentDirectory : Uri)
  (entries : list (string * Z)) (l : Locals Uri) (requests : list (StatRequest.t Uri))
  : Locals Uri * list (StatRequest.t Uri) :=
  match entries with
  | [] => (l, requests)
  | (name, type) :: entries' =>
      if isCancellationRequested w then (l, requests)
      else
        let entryUri := joinPath currentDirectory name in
        if FileType.has type FileType.Directory then
          forEntries w currentDirectory entries' (push entryUri l) requests
        else if FileType.has type FileType.File then
          forEntries w currentDirectory entries' l
            (requests ++ [{| StatRequest.uri := entryUri;
                             StatRequest.onResult := fileResult |}])
        else if FileType.has type FileType.SymbolicLink then
          forEntries w currentDirectory entries' l requests
        else
          forEntries w currentDirectory entries' l
            (requests ++ [{| StatRequest.uri := entryUri;
                             StatRequest.onResult := unknownResult entryUri |}])
  end.

(** One callback of [slice.map]: the uri whose stat it issues (if any) and the
    value its promise resolves to. *)
Definition requestStat (w : World Uri) (request : StatRequest.t Uri)
  : option Uri * option FileStat.t :=
  if isCancellationRequested w then (None, None)
  else (Some (StatRequest.uri request), stat fs (StatRequest.uri request)).

(** [for (offset ...) slice[offset].onResult(stats[offset])]. *)
Definition applyResults (slice : list (StatRequest.t Uri)) (stats : list (option FileStat.t))
  (l : Locals Uri) : Locals Uri :=
  fold_left (fun l rs => StatRequest.onResult (fst rs) (snd rs) l) (zip slice stats) l.

(** One chunk: all callbacks of [slice.map] run up to their [await], which
    issues the stats; [await Promise.all] is one suspension point, after which
    all of them have settled. *)
Definition awaitChunk (slice : list (StatRequest.t Uri)) (w : World Uri) : World Uri :=
  let issued := omap (fun request => fst (requestStat w request)) slice in
  {| clock := S (clock w);
     trace := trace w ++ map StatIssued issued ++ map StatSettled issued |}.

(** The [for (let index = 0; ...; index += this.statConcurrency)] loop of
    [processStatRequests]. [fuel] bounds the number of iterations;
    [requests.length] is enough: [statConcurrency] is [NaN], and the loop
    ends after one iteration, or it is at least 1, and every iteration moves
    the index, which stays below 2^32, by at least 1. *)
Fixpoint statLoop (fuel : nat) (requests : list (StatRequest.t Uri)) (index : number)
  (st : Locals Uri * World Uri) : Locals Uri * World Uri :=
  match fuel with
  | O => st
  | S fuel' =>
      let '(l, w) := st in
      if ltb index (ofNat (length requests)) && negb (isCancellationRequested w) then
        let slice := slice requests index (Number.add index (statConcurrency this)) in
        let stats := map (fun request => snd (requestStat w request)) slice in
        let w' := awaitChunk slice w in
        if isCancellationRequested w' then (l, w')
        else statLoop fuel' requests (Number.add index (statConcurrency this))
               (applyResults slice stats l, w')
      else st
  end.

Definition processStatRequests (requests : list (StatRequest.t Uri))
  (st : Locals Uri * World Uri) : Locals Uri * World Uri :=
  if (length requests =? 0)%nat || isCancellationRequested (snd st) then st
  else statLoop (length requests) requests (ofZ 0) st.

(** The condition of the [while] loop. *)
Definition loopCondition (s : LoopState Uri) : bool :=
  negb (length (pendingDirectories (locals s)) =? 0)%nat
  && negb (isCancellationRequested (world s)).

(** [await vscode.workspace.fs.readDirectory(currentDirectory)]. *)
Definition awaitReadDirectory (currentDirectory : Uri) (w : World Uri) : World Uri :=
  {| clock := S (clock w); trace := trace w ++ [ReadDirectory currentDirectory] |}.

(** The body of the [while] loop. *)
Definition iteration (s : LoopState Uri) : LoopState Uri :=
  match pendingDirectories (locals s) with
  | [] => s
  | currentDirectory :: rest =>
      let l := {| totalSize := totalSize (locals s); pendingDirectories := rest |} in
      let directoryKey := toString currentDirectory in
      if decide (directoryKey ∈ visitedDirectories s) then
        {| locals := l; visitedDirectories := visitedDirectories s; world := world s |}
      else
        let visited := {[directoryKey]} ∪ visitedDirectories s in
        let w := awaitReadDirectory currentDirectory (world s) in
        match readDirectory fs currentDirectory with
        | None => {| locals := l; visitedDirectories := visited; world := w |}
        | Some entries =>
            let '(l1, requests) := forEntries w currentDirectory entries l [] in
            let '(l2, w2) := processStatRequests requests (l1, w) in
            {| locals := l2; visitedDirectories := visited; world := w2 |}
        end
  end.

(** The [while] loop: [None] when [fuel] iterations do not end it. *)
Fixpoint scanLoop (fuel : nat) (s : LoopState Uri) : option (LoopState Uri) :=
  if loopCondition s then
    match fuel with
    | O => None
    | S fuel' => scanLoop fuel' (iteration s)
    end
  else Some s.

(** The state after at most [n] iterations of the [while] loop. *)
Fixpoint iterations (n : nat) (s : LoopState Uri) : LoopState Uri :=
  match n with
  | O => s
  | S n' => if loopCondition s then iterations n' (iteration s) else s
  end.

Definition initialState (folder : WorkspaceFolder.t Uri) : LoopState Uri :=
  {| locals := {| totalSize := ofZ 0;
                 pendingDirectories := [WorkspaceFolder.uri folder] |};
     visitedDirectories := ∅;
     world := {| clock := 0; trace := [] |} |}.

(** [calculateFolderSize] with the state it ends in. *)
Definition scanFolder (fuel : nat) (folder : WorkspaceFolder.t Uri)
  : option (LoopState Uri) :=
  scanLoop fuel (initialState folder).

Definition calculateFolderSize (fuel : nat) (folder : WorkspaceFolder.t Uri)
  : option number :=
  s ← scanFolder fuel folder; Some (totalSize (locals s)).

End Calculator.

(** [calculate]: one task per folder, [Promise.all] keeps the order of
    [folders]. The tasks interleave at their suspension points and share only
    the token; [token i n] is what the task of the [i]-th folder reads from it
    after [n] suspension points of its own. *)
Definition calculate {Uri : Type} `{UriOps Uri} (fs : FileSystem Uri)
  (this : WorkspaceSizeCalculator) (fuel : nat)
  (folders : list (WorkspaceFolder.t Uri)) (token : nat -> nat -> bool)
  : option (list (FolderSizeResult.t Uri)) :=
  mapM (fun task : nat * WorkspaceFolder.t Uri =>
          size ← calculateFolderSize fs this (token (fst task)) fuel (snd task);
          Some {| FolderSizeResult.folder := snd task; FolderSizeResult.size := size |})
       (imap pair folders).


(** ** The status bar indicator (extension.ts)

    The part of [WorkspaceSizeIndicator] that decides what is shown and which
    calculation may show it: [applyResults], [showDetails], [updateVisibility],
    [dispose] and [refresh]. The debounce timer and the event registrations
    are left out. A [CancellationTokenSource] is known by the number of
    sources created before it; the sources created so far and those on which
    [cancel] was called are the environment ([TokenSources]). The [async]
    method [refresh] is its two halves: [refreshStart], up to the call of
    [calculate], and [refreshEnd], from the [await] on. *)

Module StatusBarItem.
Record t : Type := { text : string; tooltip : string; visible : bool }.
End StatusBarItem.

Record TokenSources : Type := {
  created : nat;
  cancelledSources : gset nat
}.

(** What the promise of [calculate] settles with. *)
Inductive Outcome (Uri : Type) : Type :=
| Results (results : list (FolderSizeResult.t Uri))
| Failure.
Arguments Results {Uri} _.
Arguments Failure {Uri}.

(** [vscode.window.showInformationMessage (message, { detail, modal: false })]. *)
Record InformationMessage : Type := { message : string; detail : option string }.

Module WorkspaceSizeIndicator.
Section Indicator.
Context {Uri : Type}.

Record t : Type := {
  statusBarItem : StatusBarItem.t;
  currentCalculation : option nat;
  lastBreakdown : list (FolderSizeResult.t Uri);
  isCalculating : bool
}.

(** The fields as the constructor first sets them; a status bar item is
    hidden until [show] is called. *)
Definition initial : t :=
  {| statusBarItem :=
       {| StatusBarItem.text := "$(database) Ready";
          StatusBarItem.tooltip :=
            "Workspace size will appear here once calculated. Click to trigger a manual refresh.";
          StatusBarItem.visible := false |};
     currentCalculation := None;
     lastBreakdown := [];
     isCalculating := false |}.

Definition setItem (item : StatusBarItem.t) (this : t) : t :=
  {| statusBarItem := item;
     currentCalculation := currentCalculation this;
     lastBreakdown := lastBreakdown this;
     isCalculating := isCalculating this |}.

Definition setText (text tooltip : string) (this : t) : t :=
  setItem {| StatusBarItem.text := text; StatusBarItem.tooltip := tooltip;
             StatusBarItem.visible := StatusBarItem.visible (statusBarItem this) |} this.

(** [cancel] on a source. *)
Definition cancel (source : nat) (env : TokenSources) : TokenSources :=
  {| created := created env; cancelledSources := {[source]} ∪ cancelledSources env |}.

(** [token.isCancellationRequested] of a source. *)
Definition isCancelled (source : nat) (env : TokenSources) : bool :=
  bool_decide (source ∈ cancelledSources env).

Definition breakdownLine (result : FolderSizeResult.t Uri) : string :=
  (WorkspaceFolder.name (FolderSizeResult.folder result) +:+ ": "
     +:+ formatBytes (FolderSizeResult.size result))%string.

Definition newline : string := String "010"%char EmptyString.
Definition quote : string := String "034"%char EmptyString.

Definition hint : string :=
  ("Click to recalculate now or press ⇧⌘P and search for " +:+ quote
     +:+ "Workspace Size" +:+ quote +:+ " for more actions.")%string.

Definition applyResults (results : list (FolderSizeResult.t Uri)) (this : t) : t :=
  let total :=
    fold_left (fun accumulator item => Number.add accumulator (FolderSizeResult.size item))
      results (ofZ 0) in
  let totalFormatted := formatBytes total in
  let breakdownTooltip :=
    String.concat newline
      (map breakdownLine
         (List.filter (fun result => ltb (ofZ 0) (FolderSizeResult.size result)) results)) in
  let tooltipLines := [("Total workspace size: " +:+ totalFormatted)%string] in
  let tooltipLines :=
    if String.eqb breakdownTooltip "" then tooltipLines
    else tooltipLines ++ [""%string; breakdownTooltip] in
  let tooltipLines := tooltipLines ++ [""%string; hint] in
  setText ("$(database) " +:+ totalFormatted)%string (String.concat newline tooltipLines) this.

Definition showDetails (this : t) : InformationMessage :=
  match lastBreakdown this with
  | [] => {| message := "Workspace size has not been calculated yet."; detail := None |}
  | _ =>
      {| message := "Workspace size";
         detail := Some (String.concat newline (map breakdownLine (lastBreakdown this))) |}
  end.

(** [folders] is [vscode.workspace.workspaceFolders], [[]] when undefined. *)
Definition updateVisibility (folders : list (WorkspaceFolder.t Uri)) (this : t) : t :=
  match folders with
  | _ :: _ =>
      setItem {| StatusBarItem.text := StatusBarItem.text (statusBarItem this);
                 StatusBarItem.tooltip := StatusBarItem.tooltip (statusBarItem this);
                 StatusBarItem.visible := true |} this
  | [] =>
      setItem {| StatusBarItem.text := "$(database) No workspace";
                 StatusBarItem.tooltip := "Open a folder to calculate its size.";
                 StatusBarItem.visible := false |} this
  end.

(** The constructor, up to the refresh it schedules. *)
Definition construct (folders : list (WorkspaceFolder.t Uri)) : t :=
  updateVisibility folders initial.

(** [refresh (force)] up to [await this.calculator.calculate (folders, token)]:
    the new state and environment, and the source whose token the calculation
    was started with, if one was started. *)
Definition refreshStart (force : bool) (folders : list (WorkspaceFolder.t Uri))
  (this : t) (env : TokenSources) : t * TokenSources * option nat :=
  match folders with
  | [] => (updateVisibility folders this, env, None)
  | _ :: _ =>
      if isCalculating this && negb force then (this, env, None)
      else
        let env :=
          match currentCalculation this with
          | Some previous => cancel previous env
          | None => env
          end in
        let this :=
          setText "$(sync~spin) Calculating…" "Calculating workspace size…" this in
        let cancellation := created env in
        ({| statusBarItem := statusBarItem this;
            currentCalculation := Some cancellation;
            lastBreakdown := lastBreakdown this;
            isCalculating := true |},
         {| created := S (created env); cancelledSources := cancelledSources env |},
         Some cancellation)
  end.

(** [refresh] from the [await] on, for the calculation started with the
    source [cancellation]: the [try] block or the [catch] block, then the
    [finally] block. *)
Definition refreshEnd (cancellation : nat) (outcome : Outcome Uri)
  (this : t) (env : TokenSources) : t :=
  let this :=
    match outcome with
    | Results results =>
        if isCancelled cancellation env then this
        else
          applyResults results
            {| statusBarItem := statusBarItem this;
               currentCalculation := currentCalculation this;
               lastBreakdown := results;
               isCalculating := isCalculating this |}
    | Failure =>
        setText "$(error) Size unavailable"
          "Failed to calculate workspace size. Click to try again." this
    end in
  {| statusBarItem := statusBarItem this;
     currentCalculation :=
       if bool_decide (currentCalculation this = Some cancellation) then None
       else currentCalculation this;
     lastBreakdown := lastBreakdown this;
     isCalculating := false |}.

(** [dispose], without the timer and the disposables. *)
Definition dispose (this : t) (env : TokenSources) : t * TokenSources :=
  match currentCalculation this with
  | Some current =>
      ({| statusBarItem := statusBarItem this;
          currentCalculation := None;
          lastBreakdown := lastBreakdown this;
          isCalculating := isCalculating this |},
       cancel current env)
  | None => (this, env)
  end.

End Indicator.
Arguments t Uri : clear implicits.
End WorkspaceSizeIndicator.

(** The indicator in its environment: the token sources, and the
    calculations that were started and have not settled yet. *)
Record System (Uri : Type) : Type := {
  indicator : WorkspaceSizeIndicator.t Uri;
  sources : TokenSources;
  inFlight : gset nat
}.
Arguments indicator {Uri} _.
Arguments sources {Uri} _.
Arguments inFlight {Uri} _.

(** What can happen to an indicator: [refresh] is called (by the timer with
    [force = false], by the command with [force = true]) while the workspace
    has the given folders, the promise of a calculation settles, the
    workspace folders change, the indicator is disposed. *)
Inductive Action (Uri : Type) : Type :=
| Refresh (force : bool) (folders : list (WorkspaceFolder.t Uri))
| Settle (cancellation : nat) (outcome : Outcome Uri)
| FoldersChanged (folders : list (WorkspaceFolder.t Uri))
| Dispose.
Arguments Refresh {Uri} _ _.
Arguments Settle {Uri} _ _.
Arguments FoldersChanged {Uri} _.
Arguments Dispose {Uri}.

(** One action. A promise settles once: [Settle] of a calculation that is not
    in flight is no step. *)
Definition perform {Uri : Type} (action : Action Uri) (sys : System Uri) : System Uri :=
  match action with
  | Refresh force folders =>
      let '(this, env, started) :=
        WorkspaceSizeIndicator.refreshStart force folders (indicator sys) (sources sys) in
      {| indicator := this; sources := env;
         inFlight := match started with
                     | Some cancellation => {[cancellation]} ∪ inFlight sys
                     | None => inFlight sys
                     end |}
  | Settle cancellation outcome =>
      if bool_decide (cancellation ∈ inFlight sys) then
        {| indicator :=
             WorkspaceSizeIndicator.refreshEnd cancellation outcome (indicator sys) (sources sys);
           sources := sources sys;
           inFlight := inFlight sys ∖ {[cancellation]} |}
      else sys
  | FoldersChanged folders =>
      {| indicator := WorkspaceSizeIndicator.updateVisibility folders (indicator sys);
         sources := sources sys; inFlight := inFlight sys |}
  | Dispose =>
      let '(this, env) := WorkspaceSizeIndicator.dispose (indicator sys) (sources sys) in
      {| indicator := this; sources := env; inFlight := inFlight sys |}
  end.

(** The system after the constructor, and after a sequence of actions. *)
Definition start {Uri : Type} (folders : list (WorkspaceFolder.t Uri)) : System Uri :=
  {| indicator := WorkspaceSizeIndicator.construct folders;
     sources := {| created := 0; cancelledSources := ∅ |};
     inFlight := ∅ |}.

Definition run {Uri : Type} (actions : list (Action Uri)) (sys : System Uri) : System Uri :=
  fold_left (fun sys action => perform action sys) actions sys.

(** [private readonly calculator = new WorkspaceSizeCalculator ()]. *)
Definition calculator : WorkspaceSizeCalculator :=
  new {| WorkspaceSizeCalculatorOptions.statConcurrency := None |}.

(** A call of [refresh] during whose [await] nothing else happens to the
    indicator: the calculation reads its token as the environment has it
    when [calculate] is called, and its promise settles before any other
    action. [None] when the fuel does not suffice for the calculation. *)
Definition refresh {Uri : Type} `{UriOps Uri} (fs : FileSystem Uri) (fuel : nat)
  (force : bool) (folders : list (WorkspaceFolder.t Uri)) (sys : System Uri)
  : option (System Uri) :=
  let '(this, env, started) :=
    WorkspaceSizeIndicator.refreshStart force folders (indicator sys) (sources sys) in
  match started with
  | None => Some {| indicator := this; sources := env; inFlight := inFlight sys |}
  | Some cancellation =>
      results ← calculate fs calculator fuel folders
                  (fun _ _ => WorkspaceSizeIndicator.isCancelled cancellation env);
      Some {| indicator :=
                WorkspaceSizeIndicator.refreshEnd cancellation (Results results) this env;
              sources := env; inFlight := inFlight sys |}
  end.
(** ** Vocabulary of the statements about [formatBytes] *)

Definition isDigit (c : ascii) : bool :=
  (48 <=? nat_of_ascii c)%nat && (nat_of_ascii c <=? 57)%nat.

(** A digit string: not empty, decimal digits only. *)
Definition digitsOnly (s : list ascii) : Prop :=
  s <> [] /\ Forall (fun c => isDigit c = true) s.

(** The number a string of decimal digits reads as. *)
Definition numeral (s : list ascii) : option Z :=
  (fun d => Z.of_N (N.of_uint d)) <$> NilZero.uint_of_string (string_of_list_ascii s).

(** [q] divided [k] times by 1024. *)
Definition scaled (q : Q) (k : nat) : Q := Nat.iter k (fun v => v / 1024)%Q q.


(** ** Vocabulary of the statements about numbers *)

(** [a / d] rounded to the nearest integer, to the even one on a tie. *)
Definition nearestEvenDiv (a d : Z) : Z :=
  let q := a / d in
  let r := a mod d in
  if 2 * r <? d then q else if d <? 2 * r then q + 1 else if Z.even q then q else q + 1.

(** The integer nearest to [z] among those with at most 53 significant bits,
    ties to the one with an even 53rd bit. *)
Definition roundInteger (z : Z) : Z :=
  let a := Z.abs z in
  let k := Z.log2 a - 52 in
  if k <=? 0 then z else Z.sgn z * (nearestEvenDiv a (2 ^ k) * 2 ^ k).

(** The binary64 value of the integer [z] ([round_inject_Z]). *)
Definition roundedOfZ (z : Z) : number :=
  let r := roundInteger z in
  if 2 ^ 1024 <=? Z.abs r then (if 0 <=? z then PosInfinity else NegInfinity) else ofZ r.

(** A number that is not finite, or an integer that binary64 holds. *)
Definition integral (x : number) : Prop :=
  match x with
  | Finite _ => exists z, x = ofZ z /\ roundedOfZ z = ofZ z
  | _ => True
  end.

(** [x <= y], false whenever an operand is [NaN]. *)
Definition leb (x y : number) : bool :=
  match x, y with
  | NaN, _ | _, NaN => false
  | NegInfinity, _ | _, PosInfinity => true
  | PosInfinity, _ | _, NegInfinity => false
  | Finite a, Finite b => Qle_bool a b
  end.

(** The sum of numbers as a loop computes it: from 0, left to right, every
    addition rounded. *)
Definition sumOf (l : list number) : number := fold_left Number.add l (ofZ 0).

(** The options that configure an integer as the limit, or nothing. *)
Definition integerOptions (limit : option Z) : WorkspaceSizeCalculatorOptions.t :=
  {| WorkspaceSizeCalculatorOptions.statConcurrency := ofZ <$> limit |}.

(** The index [x] of the chunk loop over [len] requests stands at request [i]:
    it is [i], or both are past the end. *)
Definition indexAt (len : nat) (x : number) (i : nat) : Prop :=
  x = ofNat i \/ (ltb x (ofNat len) = false /\ (len <= i)%nat).

(** ** Vocabulary of the statements about the scan *)

Definition sumZ (l : list Z) : Z := foldr Z.add 0 l.

(** The stat events of one chunk: every stat of the chunk is issued, then
    every one has settled. *)
Definition chunkEvents {Uri : Type} (chunk : list (StatRequest.t Uri)) : list (Event Uri) :=
  map StatIssued (map StatRequest.uri chunk) ++ map StatSettled (map StatRequest.uri chunk).

(** Stat operations issued and not yet settled at the end of a trace. *)
Fixpoint outstanding {Uri : Type} (events : list (Event Uri)) : Z :=
  match events with
  | [] => 0
  | StatIssued _ :: events' => outstanding events' + 1
  | StatSettled _ :: events' => outstanding events' - 1
  | ReadDirectory _ :: events' => outstanding events'
  end.

(** The directories a trace lists, oldest first. *)
Definition listed {Uri : Type} (events : list (Event Uri)) : list Uri :=
  omap (fun e => match e with ReadDirectory u => Some u | _ => None end) events.

(** What the callback of an entry listed as a file adds to the total, if
    anything, when it is handed the result of the stat of [u]. *)
Definition contribution {Uri : Type} (fs : FileSystem Uri) (u : Uri) : option number :=
  match stat fs u with
  | Some st =>
      if FileType.has (FileStat.type st) FileType.File then Some (FileStat.size st) else None
  | None => None
  end.

(** The keys of the directories a loop state has listed so far. *)
Definition listedKeys {Uri : Type} `{UriOps Uri} (s : LoopState Uri) : list string :=
  map toString (listed (trace (world s))).

(** The invariant of the [while] loop behind the visited set: no key is
    listed twice, and the visited set holds exactly the listed keys. *)
Definition listedOnce {Uri : Type} `{UriOps Uri} (s : LoopState Uri) : Prop :=
  NoDup (listedKeys s) /\
  forall key : string, key ∈ visitedDirectories s <-> key ∈ listedKeys s.

(** ** Directory trees of regular files and directories *)

#[warnings="-register-all"] Inductive Tree : Type :=
| RegularFile (size : Z)
| Folder (entries : list (string * Tree)).

(** The type tag a listing reports for a node. *)
Definition listingType (t : Tree) : Z :=
  match t with
  | RegularFile _ => FileType.File
  | Folder _ => FileType.Directory
  end.

(** The sum of the sizes of the regular files of a tree. *)
Fixpoint treeSize (t : Tree) : Z :=
  match t with
  | RegularFile size => size
  | Folder entries => sumZ (map (fun e => treeSize (snd e)) entries)
  end.

(** All files of the tree have a size that is not negative. *)
Fixpoint naturalSizes (t : Tree) : Prop :=
  match t with
  | RegularFile size => 0 <= size
  | Folder entries => foldr (fun e others => naturalSizes (snd e) /\ others) True entries
  end.

(** The file system holds the tree [t] at [u]: a regular file stats as a file
    of its size; a directory lists its entries, in any order, each under the
    uri [joinPath] gives it. *)
Fixpoint hosts {Uri : Type} `{UriOps Uri} (fs : FileSystem Uri) (u : Uri) (t : Tree) : Prop :=
  match t with
  | RegularFile size =>
      stat fs u = Some {| FileStat.type := FileType.File; FileStat.size := ofZ size |}
  | Folder entries =>
      (exists listing,
          readDirectory fs u = Some listing /\
          listing ≡ₚ map (fun e => (fst e, listingType (snd e))) entries) /\
      foldr (fun e others => hosts fs (joinPath u (fst e)) (snd e) /\ others) True entries
  end.

(** The keys of the directories of the tree [t] located at [u]. *)
Fixpoint directoryKeys {Uri : Type} `{UriOps Uri} (u : Uri) (t : Tree) : list string :=
  match t with
  | RegularFile _ => []
  | Folder entries =>
      toString u :: flat_map (fun e => directoryKeys (joinPath u (fst e)) (snd e)) entries
  end.

(** Directories waiting on the frontier, each with its entries. *)
Definition workKeys {Uri : Type} `{UriOps Uri} (work : list (Uri * list (string * Tree)))
  : list string :=
  flat_map (fun d => directoryKeys (fst d) (Folder (snd d))) work.

Definition workSize {Uri : Type} (work : list (Uri * list (string * Tree))) : Z :=
  sumZ (map (fun d => treeSize (Folder (snd d))) work).

(** The subdirectories among the entries of the directory at [u]. *)
Definition subdirectories {Uri : Type} `{UriOps Uri} (u : Uri) (entries : list (string * Tree))
  : list (Uri * list (string * Tree)) :=
  omap (fun e => match snd e with
                 | Folder entries' => Some (joinPath u (fst e), entries')
                 | RegularFile _ => None
                 end) entries.

(** The regular files among the entries of the directory at [u]. *)
Definition fileUris {Uri : Type} `{UriOps Uri} (u : Uri) (entries : list (string * Tree))
  : list Uri :=
  omap (fun e => match snd e with
                 | RegularFile _ => Some (joinPath u (fst e))
                 | Folder _ => None
                 end) entries.

Definition filesSize (entries : list (string * Tree)) : Z :=
  sumZ (omap (fun e => match snd e with
                       | RegularFile size => Some size
                       | Folder _ => None
                       end) entries).

(** The request [forEntries] queues for an entry listed as a file. *)
Definition fileRequest {Uri : Type} (entryUri : Uri) : StatRequest.t Uri :=
  {| StatRequest.uri := entryUri; StatRequest.onResult := fileResult |}.

(** The request [forEntries] queues for an entry of unknown type. *)
Definition unknownRequest {Uri : Type} (entryUri : Uri) : StatRequest.t Uri :=
  {| StatRequest.uri := entryUri; StatRequest.onResult := unknownResult entryUri |}.

(** The request [forEntries] queues for an entry of the listing of [u], if
    it queues one. *)
Definition entryRequest {Uri : Type} `{UriOps Uri} (u : Uri) (entry : string * Z)
  : option (StatRequest.t Uri) :=
  let entryUri := joinPath u (fst entry) in
  if FileType.has (snd entry) FileType.Directory then None
  else if FileType.has (snd entry) FileType.File then Some (fileRequest entryUri)
  else if FileType.has (snd entry) FileType.SymbolicLink then None
  else Some (unknownRequest entryUri).

(** The size the total grows by for an entry of the listing of [u], if it
    grows: the size its stat reports, when the entry is listed as a file, or
    with an unknown type, and the stat says it is a file. *)
Definition added {Uri : Type} `{UriOps Uri} (fs : FileSystem Uri) (u : Uri)
  (entry : string * Z) : option number :=
  let entryUri := joinPath u (fst entry) in
  if FileType.has (snd entry) FileType.Directory then None
  else if FileType.has (snd entry) FileType.File then contribution fs entryUri
  else if FileType.has (snd entry) FileType.SymbolicLink then None
  else match stat fs entryUri with
       | Some st =>
           if FileType.has (FileStat.type st) FileType.Directory then None
           else if FileType.has (FileStat.type st) FileType.File
                then Some (FileStat.size st) else None
       | None => None
       end.

(** The sizes that listing the directory [u] adds to the total, in the order
    of the listing. *)
Definition additions {Uri : Type} `{UriOps Uri} (fs : FileSystem Uri) (u : Uri)
  : list number :=
  match readDirectory fs u with
  | Some entries => omap (added fs u) entries
  | None => []
  end.

(** The frontier after the [for] loop over a listing of [u]. *)
Definition pushed {Uri : Type} `{UriOps Uri} (u : Uri) (entries : list (string * Z))
  (l : Locals Uri) : Locals Uri :=
  fold_left (fun l entry =>
               if FileType.has (snd entry) FileType.Directory
               then push (joinPath u (fst entry)) l else l) entries l.

(** What the two [onResult] closures have in common: they take nothing off
    the frontier. *)
Definition wellBehaved {Uri : Type} (r : StatRequest.t Uri) : Prop :=
  forall st l u, u ∈ pendingDirectories l ->
                 u ∈ pendingDirectories (StatRequest.onResult r st l).

(** A directory is discovered once it is on the frontier or its key is in the
    visited set. *)
Definition discovered {Uri : Type} `{UriOps Uri} (u : Uri) (s : LoopState Uri) : Prop :=
  u ∈ pendingDirectories (locals s) \/ toString u ∈ visitedDirectories s.

(** ** Vocabulary of the further properties *)

(** A trace that never has more than [limit] stats outstanding and ends with
    none. *)
Definition settles {Uri : Type} (limit : Z) (events : list (Event Uri)) : Prop :=
  outstanding events = 0 /\
  forall i : nat, 0 <= outstanding (take i events) <= limit.

(** The uri an event is about. *)
Definition eventUri {Uri : Type} (e : Event Uri) : Uri :=
  match e with
  | ReadDirectory u | StatIssued u | StatSettled u => u
  end.

(** The locations below a root: the root, and every entry of the listing of
    a location below the root, under the uri [joinPath] gives it. *)
Inductive below {Uri : Type} `{UriOps Uri} (fs : FileSystem Uri) (root : Uri) : Uri -> Prop :=
| below_root : below fs root root
| below_entry (cur : Uri) (listing : list (string * Z)) (name : string) (type : Z) :
    below fs root cur ->
    readDirectory fs cur = Some listing ->
    In (name, type) listing ->
    below fs root (joinPath cur name).

(** The frontier and the trace of a loop state mention locations below the
    root only. *)
Definition confined {Uri : Type} `{UriOps Uri} (fs : FileSystem Uri) (root : Uri)
  (s : LoopState Uri) : Prop :=
  Forall (below fs root) (pendingDirectories (locals s)) /\
  Forall (fun e => below fs root (eventUri e)) (trace (world s)).

(** Every entry with the Directory bit in the listing of a directory the
    state has listed is discovered. *)
Definition closed {Uri : Type} `{UriOps Uri} (fs : FileSystem Uri) (s : LoopState Uri) : Prop :=
  forall cur entries name type,
    In cur (listed (trace (world s))) ->
    readDirectory fs cur = Some entries ->
    In (name, type) entries ->
    FileType.has type FileType.Directory = true ->
    discovered (joinPath cur name) s.

(** The size in bytes of the [k]-th unit. *)
Definition unitSize (k : nat) : Q := inject_Z (1024 ^ Z.of_nat k).

(** How [formatBytes] renders the number in front of the [k]-th unit. *)
Definition rendered (v : Q) (k : nat) : string :=
  if Qle_bool 100 v || (k =? 0)%nat then toFixed v 0 else toFixed v 1.

(** At most one calculation is live: every calculation in flight other than
    the current one has been cancelled, the current one is in flight and not
    cancelled, and no source is known before it is created. *)
Definition oneLive {Uri : Type} (sys : System Uri) : Prop :=
  (forall id, id ∈ inFlight sys -> (id < created (sources sys))%nat) /\
  (forall id, id ∈ cancelledSources (sources sys) -> (id < created (sources sys))%nat) /\
  (forall id, WorkspaceSizeIndicator.currentCalculation (indicator sys) = Some id ->
              id ∈ inFlight sys /\ id ∉ cancelledSources (sources sys)) /\
  (forall id, id ∈ inFlight sys ->
              WorkspaceSizeIndicator.currentCalculation (indicator sys) <> Some id ->
              id ∈ cancelledSources (sources sys)).

(** The promise of a calculation is fulfilled, with results. *)
Definition settlesWithResults {Uri : Type} (action : Action Uri) : bool :=
  match action with
  | Settle _ (Results _) => true
  | _ => false
  end.

(** The results with a size above zero, those [applyResults] gives a line. *)
Definition shown {Uri : Type} (results : list (FolderSizeResult.t Uri)) :
  list (FolderSizeResult.t Uri) :=
  List.filter (fun result => ltb (ofZ 0) (FolderSizeResult.size result)) results.

(** ** A concrete environment: uris as path strings, file systems as tables *)

#[global] Instance pathUri : UriOps string := {|
  toString := fun u => u;
  joinPath := fun u name => (u +:+ "/" +:+ name)%string
|}.

Fixpoint lookupPath {A : Type} (table : list (string * A)) (u : string) : option A :=
  match table with
  | [] => None
  | (path, a) :: table' => if String.eqb path u then Some a else lookupPath table' u
  end.

(** The file system in which exactly the listed directories can be read and
    exactly the listed paths can be statted, with a type and a size in
    bytes. *)
Definition tableFs (listings : list (string * list (string * Z)))
  (stats : list (string * (Z * Z))) : FileSystem string :=
  {| readDirectory := fun u =>
       match lookupPath listings u with
       | Some entries =>
           if Z.of_nat (length entries) <? 2 ^ 32 then Some entries else None
       | None => None
       end;
     stat := fun u =>
       match lookupPath stats u with
       | Some (type, size) => Some {| FileStat.type := type; FileStat.size := ofZ size |}
       | None => None
       end;
     readDirectory_array := ltac:(
       intros u entries Hread; cbv beta in Hread;
       destruct (lookupPath listings u) as [found|];
       [|discriminate Hread];
       destruct (Z.of_nat (length found) <? 2 ^ 32) eqn:Hlt; [|discriminate Hread];
       injection Hread as <-; apply Z.ltb_lt; exact Hlt) |}.

Definition workspaceFolder (path : string) (index : Z) : WorkspaceFolder.t string :=
  {| WorkspaceFolder.uri := path; WorkspaceFolder.name := path;
     WorkspaceFolder.index := index |}.

Definition defaultOptions : WorkspaceSizeCalculatorOptions.t :=
  {| WorkspaceSizeCalculatorOptions.statConcurrency := None |}.

(** Root [A] is an empty directory; root [B] holds a file [f] of 500 bytes
    and a directory [d] with a file [g] of 300 bytes. *)
Definition twoRootsFs : FileSystem string :=
  tableFs
    [("A", []); ("B", [("f", FileType.File); ("d", FileType.Directory)]);
     ("B/d", [("g", FileType.File)])]%string
    [("B/f", (FileType.File, 500)); ("B/d", (FileType.Directory, 0));
     ("B/d/g", (FileType.File, 300))]%string.

(** The same two roots, with the entries of [B] listed in the other order. *)
Definition twoRootsFsReordered : FileSystem string :=
  tableFs
    [("A", []); ("B", [("d", FileType.Directory); ("f", FileType.File)]);
     ("B/d", [("g", FileType.File)])]%string
    [("B/f", (FileType.File, 500)); ("B/d", (FileType.Directory, 0));
     ("B/d/g", (FileType.File, 300))]%string.

Definition treeA : list (string * Tree) := [].
Definition treeB : list (string * Tree) :=
  [("d", Folder [("g", RegularFile 300)]); ("f", RegularFile 500)]%string.

(** Root [R] lists three files; the stat of [gone] fails. *)
Definition vanishedFs : FileSystem string :=
  tableFs
    [("R", [("a", FileType.File); ("gone", FileType.File); ("b", FileType.File)])]%string
    [("R/a", (FileType.File, 10)); ("R/b", (FileType.File, 20))]%string.

(** Root [X] cannot be listed. *)
Definition noFs : FileSystem string := tableFs [] [].

(** Root [W] holds a directory [real] with a file [f] of 5 bytes and a
    symbolic link [link] to [real]; listing and stat report the link with the
    SymbolicLink bit and the type of its target. *)
Definition linkFs : FileSystem string :=
  tableFs
    [("W", [("real", FileType.Directory);
            ("link", Z.lor FileType.SymbolicLink FileType.Directory);
            ("alias", Z.lor FileType.SymbolicLink FileType.File)]);
     ("W/real", [("f", FileType.File)]);
     ("W/link", [("f", FileType.File)])]%string
    [("W/real/f", (FileType.File, 5)); ("W/link/f", (FileType.File, 5));
     ("W/alias", (Z.lor FileType.SymbolicLink FileType.File, 7))]%string.

(** Every directory holds a symbolic link [loop] to itself. *)
Definition loopFs : FileSystem string :=
  {| readDirectory := fun _ =>
       Some [("loop"%string, Z.lor FileType.SymbolicLink FileType.Directory)];
     stat := fun _ => None;
     readDirectory_array := ltac:(intros u entries [= <-]; reflexivity) |}.


(** Root [U] lists one entry of unknown type, which stat resolves to a file
    of 42 bytes. *)
Definition unknownFs : FileSystem string :=
  tableFs [("U", [("x", FileType.Unknown)])]%string
          [("U/x", (FileType.File, 42))]%string.

(** Root [D] lists the same directory [s] twice; [s] holds a file of 10
    bytes. *)
Definition twiceFs : FileSystem string :=
  tableFs
    [("D", [("s", FileType.Directory); ("s", FileType.Directory)]);
     ("D/s", [("f", FileType.File)])]%string
    [("D/s/f", (FileType.File, 10))]%string.

(** [unknownFs] without the entry [x] in the listing of [U]. *)
Definition unknownFsWithoutEntry : FileSystem string :=
  tableFs [("U", [])]%string [("U/x", (FileType.File, 42))]%string.

(** Root [R] holds files of 2^53 bytes, 1 byte and 1 byte, listed largest
    first. *)
Definition largeFs : FileSystem string :=
  tableFs
    [("R", [("a", FileType.File); ("b", FileType.File); ("c", FileType.File)])]%string
    [("R/a", (FileType.File, 2 ^ 53)); ("R/b", (FileType.File, 1));
     ("R/c", (FileType.File, 1))]%string.

(** The same root, listed largest last. *)
Definition largeFsReordered : FileSystem string :=
  tableFs
    [("R", [("b", FileType.File); ("c", FileType.File); ("a", FileType.File)])]%string
    [("R/a", (FileType.File, 2 ^ 53)); ("R/b", (FileType.File, 1));
     ("R/c", (FileType.File, 1))]%string.

Definition largeTree : list (string * Tree) :=
  [("a", RegularFile (2 ^ 53)); ("b", RegularFile 1); ("c", RegularFile 1)]%string.

(** ** Binary64 arithmetic on integers *)

Lemma Qred_inject_Z (z : Z) : Qred (inject_Z z) = inject_Z z.
Proof.
  unfold Qred, inject_Z.
  pose proof (Z.ggcd_gcd z 1) as Hg. pose proof (Z.ggcd_correct_divisors z 1) as Hd.
  destruct (Z.ggcd z 1) as [g [n d]]. cbn [fst] in Hg. rewrite Z.gcd_1_r in Hg. subst g.
  destruct Hd as [Hn Hd]. replace n with z by lia. replace d with 1 by lia. reflexivity.
Qed.

Lemma round_Qeq (q q' : Q) : (q == q')%Q -> round q = round q'.
Proof. intros Hq. unfold round. now rewrite (Qred_complete q q' Hq). Qed.

Lemma Qle_bool_inject_Z (x y : Z) : Qle_bool (inject_Z x) (inject_Z y) = (x <=? y).
Proof. unfold Qle_bool, inject_Z. simpl. now rewrite !Z.mul_1_r. Qed.

Lemma pow2_nonneg (k : Z) : 0 <= k -> pow2 k = inject_Z (2 ^ k).
Proof. destruct k; [reflexivity | reflexivity | lia]. Qed.

Lemma pow2_neg (p : positive) : (pow2 (Zneg p) * inject_Z (2 ^ Zpos p) == 1)%Q.
Proof.
  unfold pow2, Qeq, Qmult, inject_Z. simpl Qnum. simpl Qden.
  rewrite Pos.mul_1_r, Pos2Z.inj_pow. lia.
Qed.

Lemma pow2_inverse (k : Z) : (pow2 (- k) * pow2 k == 1)%Q.
Proof.
  destruct k as [|p|p]; [reflexivity| |].
  - change (- Z.pos p) with (Zneg p). rewrite (pow2_nonneg (Zpos p)) by lia. apply pow2_neg.
  - change (- Z.neg p) with (Zpos p). rewrite (pow2_nonneg (Zpos p)) by lia.
    rewrite Qmult_comm. apply pow2_neg.
Qed.

Lemma ilog2_inject_Z (a : Z) : 0 < a -> ilog2 (inject_Z a) = Z.log2 a.
Proof.
  intros Ha. unfold ilog2. cbn [Qnum Qden inject_Z]. change (Z.log2 1) with 0.
  rewrite Z.sub_0_r. pose proof (Z.log2_nonneg a) as Hl.
  rewrite pow2_nonneg by exact Hl. fold (inject_Z a). rewrite Qle_bool_inject_Z.
  destruct (Z.log2_spec a Ha) as [Hlow _].
  now rewrite (proj2 (Z.leb_le _ _) Hlow).
Qed.

Lemma nearestEven_inject_Z (n : Z) : nearestEven (inject_Z n) = n.
Proof.
  unfold nearestEven. rewrite Qfloor_Z.
  destruct (Qcompare_spec (inject_Z n - inject_Z n) (1 # 2)) as [Hc | Hc | Hc];
    [lra | reflexivity | lra].
Qed.

Lemma nearestEven_Qeq (x y : Q) : (x == y)%Q -> nearestEven x = nearestEven y.
Proof.
  intros Hxy. unfold nearestEven. rewrite (Qfloor_comp x y Hxy).
  assert (x - inject_Z (Qfloor y) == y - inject_Z (Qfloor y))%Q as Hd by (now rewrite Hxy).
  now rewrite (Qcompare_comp _ _ Hd _ _ (Qeq_refl (1 # 2))).
Qed.

Lemma Qle_bool_Qeq (x y y' : Q) : (y == y')%Q -> Qle_bool x y = Qle_bool x y'.
Proof. intros Hy. exact (Qleb_comp x x (Qeq_refl x) y y' Hy). Qed.

Lemma Finite_Qeq (q : Q) (z : Z) : (q == inject_Z z)%Q -> Finite (Qred q) = ofZ z.
Proof.
  intros Hq. unfold ofZ. now rewrite (Qred_complete q (inject_Z z) Hq), Qred_inject_Z.
Qed.

Lemma nearestEven_fraction (a : Z) (p : positive) :
  0 <= a ->
  nearestEven (a # 2 ^ p) = nearestEvenDiv a (2 ^ Zpos p).
Proof.
  intros Ha. unfold nearestEven, nearestEvenDiv.
  assert (Qfloor (a # 2 ^ p) = a / 2 ^ Zpos p) as Hfloor.
  { unfold Qfloor. now rewrite Pos2Z.inj_pow. }
  rewrite Hfloor. set (d := 2 ^ Zpos p). set (f := a / d).
  assert (0 < d) as Hd by (apply Z.pow_pos_nonneg; lia).
  pose proof (Z.div_mod a d ltac:(lia)) as Hdm. fold f in Hdm.
  pose proof (Z.mod_pos_bound a d Hd) as Hrem.
  set (r := a mod d) in *.
  assert (Zpos (2 ^ p) = d) as Hpd by (unfold d; now rewrite Pos2Z.inj_pow).
  destruct (Qcompare_spec ((a # 2 ^ p) - inject_Z f) (1 # 2)) as [Hc | Hc | Hc];
    unfold Qeq, Qlt, Qminus, Qplus, Qopp, inject_Z in Hc; cbn [Qnum Qden] in Hc;
    rewrite ?Pos.mul_1_r, ?Hpd in Hc.
  - assert (2 * r = d) as Hr by nia.
    destruct (2 * r <? d) eqn:E1; [apply Z.ltb_lt in E1; lia|].
    destruct (d <? 2 * r) eqn:E2; [apply Z.ltb_lt in E2; lia | reflexivity].
  - assert (2 * r < d) as Hr by nia.
    now rewrite (proj2 (Z.ltb_lt _ _) Hr).
  - assert (d < 2 * r) as Hr by nia.
    destruct (2 * r <? d) eqn:E1; [apply Z.ltb_lt in E1; lia|].
    now rewrite (proj2 (Z.ltb_lt _ _) Hr).
Qed.

Lemma nearestEvenDiv_bounds (a d : Z) :
  0 <= a -> 0 < d -> a / d <= nearestEvenDiv a d <= a / d + 1.
Proof.
  intros Ha Hd. unfold nearestEvenDiv.
  repeat match goal with |- context [if ?b then _ else _] => destruct b end; lia.
Qed.

(** The binary64 value of an integer. *)
Lemma round_inject_Z (z : Z) : round (inject_Z z) = roundedOfZ z.
Proof.
  destruct (Z.eq_dec z 0) as [-> | Hz]; [vm_compute; reflexivity|].
  unfold round. rewrite Qred_inject_Z.
  change (Qabs (inject_Z z)) with (inject_Z (Z.abs z)).
  change 0%Q with (inject_Z 0). rewrite (Qle_bool_inject_Z 0 z).
  set (a := Z.abs z). assert (0 < a) as Ha by (unfold a; lia).
  rewrite (ilog2_inject_Z a Ha). pose proof (Z.log2_nonneg a) as Hlog.
  rewrite Z.max_l by lia.
  unfold roundedOfZ, roundInteger. fold a. set (k := Z.log2 a - 52).
  destruct (k <=? 0) eqn:Hk.
  - apply Z.leb_le in Hk.
    assert (a < 2 ^ 53) as Hsmall.
    { apply (Z.log2_lt_pow2 a 53 Ha). unfold k in Hk. lia. }
    rewrite (pow2_nonneg (- k)) by lia.
    rewrite (nearestEven_Qeq _ (inject_Z (a * 2 ^ (- k))))
      by (now rewrite inject_Z_mult).
    rewrite nearestEven_inject_Z.
    assert (inject_Z (a * 2 ^ (- k)) * pow2 k == inject_Z a)%Q as Hr.
    { rewrite inject_Z_mult, <- (pow2_nonneg (- k)) by lia.
      rewrite <- Qmult_assoc, pow2_inverse. apply Qmult_1_r. }
    rewrite (Qle_bool_Qeq _ _ _ Hr), (pow2_nonneg 1024) by lia.
    rewrite Qle_bool_inject_Z.
    fold a. assert ((2 ^ 1024 <=? a) = false) as -> by (apply Z.leb_gt; lia).
    apply Finite_Qeq.
    destruct (0 <=? z) eqn:Hs; [apply Z.leb_le in Hs | apply Z.leb_gt in Hs].
    + rewrite Hr. unfold a. now rewrite Z.abs_eq.
    + rewrite Hr, <- inject_Z_opp. unfold a. now rewrite Z.abs_neq, Z.opp_involutive by lia.
  - apply Z.leb_gt in Hk. destruct k as [|p|p] eqn:Hkp; try lia.
    change (- Z.pos p) with (Zneg p). change (pow2 (Z.neg p)) with (1 # 2 ^ p).
    assert (inject_Z a * (1 # 2 ^ p) == a # 2 ^ p)%Q as Hfrac.
    { unfold Qeq, Qmult, inject_Z. cbn [Qnum Qden]. rewrite Pos.mul_1_l. lia. }
    rewrite (nearestEven_Qeq _ (a # 2 ^ p) Hfrac).
    rewrite nearestEven_fraction by lia.
    set (m := nearestEvenDiv a (2 ^ Z.pos p)).
    assert (0 <= m) as Hm.
    { pose proof (nearestEvenDiv_bounds a (2 ^ Z.pos p) ltac:(lia)
                    ltac:(apply Z.pow_pos_nonneg; lia)).
      assert (0 <= a / 2 ^ Z.pos p) by (apply Z.div_pos; [lia | apply Z.pow_pos_nonneg; lia]).
      unfold m. lia. }
    assert (0 <= m * 2 ^ Z.pos p) as Hmp by (apply Z.mul_nonneg_nonneg; [lia | apply Z.pow_nonneg; lia]).
    rewrite (pow2_nonneg (Z.pos p)), <- inject_Z_mult by lia.
    rewrite (pow2_nonneg 1024), Qle_bool_inject_Z by lia.
    assert (Z.abs (Z.sgn z * (m * 2 ^ Z.pos p)) = m * 2 ^ Z.pos p) as ->.
    { rewrite Z.abs_mul, (Z.abs_eq (m * 2 ^ Z.pos p)) by lia. destruct z; simpl; lia. }
    destruct (2 ^ 1024 <=? m * 2 ^ Z.pos p); [reflexivity|].
    apply Finite_Qeq.
    destruct (0 <=? z) eqn:Hs; [apply Z.leb_le in Hs | apply Z.leb_gt in Hs].
    + rewrite Z.sgn_pos by lia. now rewrite Z.mul_1_l.
    + rewrite Z.sgn_neg by lia. rewrite <- inject_Z_opp. apply inject_Z_injective. lia.
Qed.

Lemma roundInteger_small (z : Z) : Z.abs z <= 2 ^ 53 -> roundInteger z = z.
Proof.
  intros Hz.
  destruct (Z.eq_dec z (2 ^ 53)) as [-> | Hp]; [vm_compute; reflexivity|].
  destruct (Z.eq_dec z (- 2 ^ 53)) as [-> | Hn]; [vm_compute; reflexivity|].
  unfold roundInteger. set (a := Z.abs z) in *.
  destruct (Z.eq_dec a 0) as [H0 | H0]; [rewrite H0; reflexivity|].
  assert (Z.log2 a < 53) by (apply Z.log2_lt_pow2; lia).
  assert ((Z.log2 a - 52 <=? 0) = true) as -> by (apply Z.leb_le; lia).
  reflexivity.
Qed.

(** The quotient of a number beyond 2^53 by its unit in the last place. *)
Lemma quotient_bounds (a : Z) :
  let k := Z.log2 a - 52 in
  0 < k ->
  0 < 2 ^ k /\ 2 ^ 52 <= a / 2 ^ k < 2 ^ 53 /\ 2 ^ Z.log2 a = 2 ^ 52 * 2 ^ k.
Proof.
  intros k Hk. assert (0 < a) as Ha.
  { destruct (Z_lt_le_dec 0 a) as [H | H]; [exact H|].
    unfold k in Hk. rewrite (Z.log2_nonpos a H) in Hk. lia. }
  destruct (Z.log2_spec a Ha) as [Hlow Hhigh].
  assert (0 < 2 ^ k) as Hp by (apply Z.pow_pos_nonneg; lia).
  assert (2 ^ Z.log2 a = 2 ^ 52 * 2 ^ k) as Hsplit.
  { rewrite <- Z.pow_add_r by lia. f_equal. unfold k. lia. }
  split; [exact Hp|]. split; [|exact Hsplit]. split.
  - apply Z.div_le_lower_bound; [exact Hp|]. lia.
  - apply Z.div_lt_upper_bound; [exact Hp|].
    replace (Z.succ (Z.log2 a)) with (53 + k) in Hhigh by (unfold k; lia).
    rewrite Z.pow_add_r in Hhigh by lia. lia.
Qed.

Lemma nearestEvenDiv_multiple (m d : Z) : 0 < d -> nearestEvenDiv (m * d) d = m.
Proof.
  intros Hd. unfold nearestEvenDiv. rewrite Z.div_mul, Z.mod_mul by lia.
  now rewrite (proj2 (Z.ltb_lt (2 * 0) d)) by lia.
Qed.

(** A multiple of [2 ^ k] with 53 significant bits at most is not changed. *)
Lemma roundInteger_multiple (m k : Z) :
  0 < k -> 2 ^ 52 <= m <= 2 ^ 53 -> roundInteger (m * 2 ^ k) = m * 2 ^ k.
Proof.
  intros Hk Hm. unfold roundInteger.
  assert (0 < 2 ^ k) as Hp by (apply Z.pow_pos_nonneg; lia).
  assert (0 < m * 2 ^ k) as Hpos by (apply Z.mul_pos_pos; lia).
  rewrite (Z.abs_eq (m * 2 ^ k)), (Z.sgn_pos (m * 2 ^ k)), Z.mul_1_l by lia.
  rewrite Z.log2_mul_pow2 by lia.
  destruct (Z.eq_dec m (2 ^ 53)) as [-> | Hne].
  - change (Z.log2 (2 ^ 53)) with 53.
    rewrite (proj2 (Z.leb_gt (k + 53 - 52) 0)) by lia.
    replace (2 ^ 53 * 2 ^ k) with (2 ^ 52 * 2 ^ (k + 53 - 52)).
    + now rewrite nearestEvenDiv_multiple by (apply Z.pow_pos_nonneg; lia).
    + replace (k + 53 - 52) with (1 + k) by lia. rewrite Z.pow_add_r by lia.
      change (2 ^ 53) with (2 ^ 52 * 2 ^ 1). lia.
  - assert (Z.log2 m = 52) as -> by (apply Z.log2_unique; [lia | change (Z.succ 52) with 53; lia]).
    replace (k + 52 - 52) with k by lia.
    rewrite (proj2 (Z.leb_gt k 0)) by lia.
    now rewrite nearestEvenDiv_multiple.
Qed.

Lemma roundInteger_opp (z : Z) : roundInteger (- z) = - roundInteger z.
Proof.
  unfold roundInteger. rewrite Z.abs_opp, Z.sgn_opp.
  destruct (Z.log2 (Z.abs z) - 52 <=? 0); lia.
Qed.

Lemma roundInteger_shape (z : Z) :
  0 <= z ->
  roundInteger z = z \/
  exists m k, 0 < k /\ 2 ^ 52 <= m <= 2 ^ 53 /\ roundInteger z = m * 2 ^ k /\
              (z / 2 ^ k) * 2 ^ k <= roundInteger z /\ k = Z.log2 z - 52 /\
              roundInteger z <= (z / 2 ^ k + 1) * 2 ^ k.
Proof.
  intros Hz. unfold roundInteger. rewrite (Z.abs_eq z Hz).
  destruct (Z.log2 z - 52 <=? 0) eqn:Hk; [now left | right].
  apply Z.leb_gt in Hk.
  destruct (quotient_bounds z Hk) as (Hp & Hq & _).
  assert (0 < z) as Hpos.
  { destruct (Z_lt_le_dec 0 z) as [H | H]; [exact H|].
    rewrite (Z.log2_nonpos z H) in Hk. lia. }
  rewrite Z.sgn_pos, Z.mul_1_l by exact Hpos.
  pose proof (nearestEvenDiv_bounds z (2 ^ (Z.log2 z - 52)) Hz Hp) as Hm.
  exists (nearestEvenDiv z (2 ^ (Z.log2 z - 52))), (Z.log2 z - 52).
  split; [exact Hk|]. split; [lia|]. split; [reflexivity|].
  split; [|split; [reflexivity|]]; apply Z.mul_le_mono_nonneg_r; lia.
Qed.

Lemma roundInteger_idempotent (z : Z) : roundInteger (roundInteger z) = roundInteger z.
Proof.
  assert (forall z, 0 <= z -> roundInteger (roundInteger z) = roundInteger z) as Hnonneg.
  { intros x Hx. destruct (roundInteger_shape x Hx) as [Heq | (m & k & Hk & Hm & Heq & _)].
    - now rewrite Heq.
    - rewrite Heq. now apply roundInteger_multiple. }
  destruct (Z_le_gt_dec 0 z) as [Hz | Hz]; [now apply Hnonneg|].
  assert (z = - (- z)) as Hopp by lia. set (y := - z) in *. rewrite Hopp.
  rewrite (roundInteger_opp y), (roundInteger_opp (roundInteger y)).
  f_equal. apply Hnonneg. lia.
Qed.

(** Rounding does not go below a value that binary64 holds. *)
Lemma roundInteger_ge (t z : Z) :
  0 <= t -> roundInteger t = t -> t <= z -> t <= roundInteger z.
Proof.
  intros Ht Hfix Hle.
  destruct (roundInteger_shape z ltac:(lia)) as [Heq | (m & k & Hk & Hm & Heq & Hfloor & Hkz & _)];
    [lia|].
  assert (0 < 2 ^ k) as Hp by (apply Z.pow_pos_nonneg; lia).
  destruct (quotient_bounds z ltac:(lia)) as (_ & Hq & Hsplit). rewrite <- Hkz in *.
  assert (t <= (z / 2 ^ k) * 2 ^ k); [|lia].
  destruct (Z.eq_dec t 0) as [-> | Hne]; [apply Z.mul_nonneg_nonneg; lia|].
  pose proof (Z.log2_le_mono t z Hle) as Hmono.
  destruct (Z.eq_dec (Z.log2 t) (Z.log2 z)) as [Hsame | Hless].
  - destruct (roundInteger_shape t Ht) as [_ | (mt & kt & _ & _ & Hteq & _ & Hkt & _)].
    + unfold roundInteger in Hfix. rewrite (Z.abs_eq t Ht), Hsame, <- Hkz in Hfix.
      rewrite (proj2 (Z.leb_gt k 0)) in Hfix by lia.
      rewrite Z.sgn_pos, Z.mul_1_l in Hfix by lia.
      rewrite <- Hfix. apply Z.mul_le_mono_nonneg_r; [lia|].
      apply Z.div_le_lower_bound; [exact Hp|]. rewrite Z.mul_comm, Hfix. exact Hle.
    + rewrite Hfix in Hteq. rewrite Hsame, <- Hkz in Hkt. subst kt.
      rewrite Hteq. apply Z.mul_le_mono_nonneg_r; [lia|].
      apply Z.div_le_lower_bound; [exact Hp|]. rewrite Z.mul_comm, <- Hteq. exact Hle.
  - destruct (Z.log2_spec t ltac:(lia)) as [_ Hhigh].
    assert (2 ^ Z.succ (Z.log2 t) <= 2 ^ Z.log2 z) by (apply Z.pow_le_mono_r; lia).
    assert (2 ^ 52 * 2 ^ k <= (z / 2 ^ k) * 2 ^ k) by (apply Z.mul_le_mono_nonneg_r; lia).
    lia.
Qed.

Lemma roundInteger_nonneg (z : Z) : 0 <= z -> 0 <= roundInteger z.
Proof. intros Hz. now apply roundInteger_ge. Qed.

(** Rounding does not go above a value that binary64 holds. *)
Lemma roundInteger_le (a b : Z) :
  0 <= a -> a <= b -> roundInteger b = b -> roundInteger a <= b.
Proof.
  intros Ha Hle Hfix.
  destruct (roundInteger_shape a Ha)
    as [Heq | (m & k & Hk & Hm & Heq & _ & Hka & Hupper)]; [lia|].
  assert (0 < 2 ^ k) as Hp by (apply Z.pow_pos_nonneg; lia).
  destruct (quotient_bounds a ltac:(lia)) as (_ & Hq & Hsplit). rewrite <- Hka in *.
  assert (0 < a) as Hpos.
  { destruct (Z_lt_le_dec 0 a) as [H | H]; [exact H|].
    rewrite (Z.log2_nonpos a H) in Hka. lia. }
  pose proof (Z.log2_le_mono a b Hle) as Hmono.
  destruct (Z.eq_dec (Z.log2 a) (Z.log2 b)) as [Hsame | Hless].
  - destruct (Z.eq_dec a b) as [-> | Hne]; [lia|].
    unfold roundInteger in Hfix. rewrite (Z.abs_eq b) in Hfix by lia.
    rewrite <- Hsame, <- Hka in Hfix.
    rewrite (proj2 (Z.leb_gt k 0)) in Hfix by lia.
    rewrite Z.sgn_pos, Z.mul_1_l in Hfix by lia.
    set (mb := nearestEvenDiv b (2 ^ k)) in *.
    assert (a / 2 ^ k < mb).
    { apply Z.div_lt_upper_bound; [exact Hp | lia]. }
    assert ((a / 2 ^ k + 1) * 2 ^ k <= mb * 2 ^ k)
      by (apply Z.mul_le_mono_nonneg_r; lia).
    lia.
  - destruct (Z.log2_spec b ltac:(lia)) as [Hlow _].
    assert (2 ^ Z.succ (Z.log2 a) <= 2 ^ Z.log2 b) by (apply Z.pow_le_mono_r; lia).
    rewrite Z.pow_succ_r in * by (apply Z.log2_nonneg).
    assert (m * 2 ^ k <= 2 ^ 53 * 2 ^ k) by (apply Z.mul_le_mono_nonneg_r; lia).
    lia.
Qed.

(** Rounding is monotone at the values that binary64 holds. *)
Lemma roundInteger_above (t z : Z) : roundInteger t = t -> t <= z -> t <= roundInteger z.
Proof.
  intros Hfix Hle. destruct (Z_le_gt_dec 0 t) as [Ht | Ht]; [now apply roundInteger_ge|].
  destruct (Z_le_gt_dec 0 z) as [Hz | Hz].
  - pose proof (roundInteger_nonneg z Hz). lia.
  - assert (roundInteger (- z) <= - t) as Hopp.
    { apply roundInteger_le; [lia | lia |]. rewrite roundInteger_opp. lia. }
    rewrite roundInteger_opp in Hopp. lia.
Qed.

Lemma roundedOfZ_exact (z : Z) : Z.abs z <= 2 ^ 53 -> roundedOfZ z = ofZ z.
Proof.
  intros Hz. unfold roundedOfZ. rewrite (roundInteger_small z Hz).
  assert ((2 ^ 1024 <=? Z.abs z) = false) as ->; [|reflexivity].
  apply Z.leb_gt. assert (2 ^ 53 < 2 ^ 1024) by (apply Z.pow_lt_mono_r; lia). lia.
Qed.

Lemma ofZ_injective (a b : Z) : ofZ a = ofZ b -> a = b.
Proof. unfold ofZ, inject_Z. now intros [= ->]. Qed.

(** What [roundedOfZ] gives is an infinity or an integer that binary64
    holds. *)
Lemma roundedOfZ_cases (z : Z) :
  (roundedOfZ z = PosInfinity /\ 0 <= z) \/
  (roundedOfZ z = NegInfinity /\ z < 0) \/
  (roundedOfZ z = ofZ (roundInteger z) /\ roundedOfZ (roundInteger z) = ofZ (roundInteger z)).
Proof.
  unfold roundedOfZ at 1 2 3.
  destruct (2 ^ 1024 <=? Z.abs (roundInteger z)) eqn:Hover.
  - destruct (0 <=? z) eqn:Hs; [left | right; left]; split; auto;
      [apply Z.leb_le | apply Z.leb_gt]; exact Hs.
  - right. right. split; [reflexivity|].
    unfold roundedOfZ. now rewrite roundInteger_idempotent, Hover.
Qed.

Lemma roundedOfZ_fixed (z : Z) : roundedOfZ z = ofZ z -> roundInteger z = z.
Proof.
  unfold roundedOfZ. destruct (2 ^ 1024 <=? _); [destruct (0 <=? z); discriminate|].
  apply ofZ_injective.
Qed.

Lemma add_ofZ (a b : Z) : Number.add (ofZ a) (ofZ b) = roundedOfZ (a + b).
Proof.
  unfold Number.add, ofZ. rewrite <- round_inject_Z. now rewrite inject_Z_plus.
Qed.

(** Additions of integers are exact up to 2^53. *)
Lemma add_exact (a b : Z) :
  Z.abs (a + b) <= 2 ^ 53 -> Number.add (ofZ a) (ofZ b) = ofZ (a + b).
Proof. intros Hab. rewrite add_ofZ. now apply roundedOfZ_exact. Qed.

Lemma add_integral (x : number) (z : Z) : integral x -> integral (Number.add x (ofZ z)).
Proof.
  intros Hx. destruct x as [| | |q]; try exact I.
  destruct Hx as (y & -> & _). rewrite add_ofZ.
  destruct (roundedOfZ_cases (y + z)) as [[-> _] | [[-> _] | [Heq Hfix]]]; try exact I.
  rewrite Heq. exists (roundInteger (y + z)). auto.
Qed.

(** Adding 0 changes no number that an addition of integers gave. *)
Lemma add_zero (x : number) : integral x -> Number.add x (ofZ 0) = x.
Proof.
  intros Hx. destruct x as [| | |q]; try reflexivity.
  destruct Hx as (y & -> & Hy). now rewrite add_ofZ, Z.add_0_r.
Qed.

Lemma leb_ofZ (a b : Z) : leb (ofZ a) (ofZ b) = (a <=? b).
Proof. apply Qle_bool_inject_Z. Qed.

Lemma ltb_ofZ (a b : Z) : ltb (ofZ a) (ofZ b) = (a <? b).
Proof.
  unfold ltb, ofZ. rewrite Qle_bool_inject_Z. rewrite Z.ltb_antisym. reflexivity.
Qed.

(** Adding a non-negative integer to a total that holds an integer, or is
    infinite, gives such a total again, and not a smaller one. *)
Lemma integral_add (x : number) (s : Z) :
  integral x -> x <> NaN -> 0 <= s ->
  integral (Number.add x (ofZ s)) /\ Number.add x (ofZ s) <> NaN /\
  leb x (Number.add x (ofZ s)) = true.
Proof.
  intros Hx Hnan Hs. destruct x as [| | |q]; [contradiction | | |].
  - split; [exact I|]. split; [discriminate | reflexivity].
  - split; [exact I|]. split; [discriminate | reflexivity].
  - destruct Hx as (t & -> & Hfix). rewrite add_ofZ.
    pose proof (roundInteger_above t (t + s) (roundedOfZ_fixed t Hfix) ltac:(lia)) as Hge.
    destruct (roundedOfZ_cases (t + s)) as [[-> _] | [[Hinf Hneg] | [Heq Hstable]]].
    + split; [exact I|]. split; [discriminate | reflexivity].
    + exfalso. unfold roundedOfZ in Hinf, Hfix.
      rewrite (roundedOfZ_fixed t Hfix) in Hfix.
      destruct (2 ^ 1024 <=? Z.abs (roundInteger (t + s))) eqn:Hbig; [|discriminate].
      destruct (2 ^ 1024 <=? Z.abs t) eqn:Hsmall; [now destruct (0 <=? t)|].
      apply Z.leb_le in Hbig. apply Z.leb_gt in Hsmall.
      assert (roundInteger (t + s) <= 0).
      { pose proof (roundInteger_opp (t + s)) as Hopp.
        pose proof (roundInteger_nonneg (- (t + s)) ltac:(lia)). lia. }
      lia.
    + rewrite Heq. split; [|split].
      * exists (roundInteger (t + s)). auto.
      * discriminate.
      * rewrite leb_ofZ. now apply Z.leb_le.
Qed.

(** Beyond 2^53 the binary64 value of an integer is at least 2^53. *)
Lemma roundedOfZ_large (z : Z) :
  2 ^ 53 <= z ->
  roundedOfZ z = PosInfinity \/ exists r, roundedOfZ z = ofZ r /\ 2 ^ 53 <= r.
Proof.
  intros Hz.
  pose proof (roundInteger_ge (2 ^ 53) z ltac:(lia) ltac:(now apply roundInteger_small) Hz).
  destruct (roundedOfZ_cases z) as [[-> _] | [[_ Hneg] | [Heq _]]]; [now left | lia |].
  right. eauto.
Qed.

(** Sums of non-negative integers are exact as long as they stay within
    2^53. *)
Lemma sumOf_exact (sizes : list Z) (start : Z) :
  Forall (fun size => 0 <= size) sizes ->
  0 <= start ->
  start + sumZ sizes <= 2 ^ 53 ->
  fold_left Number.add (map ofZ sizes) (ofZ start) = ofZ (start + sumZ sizes).
Proof.
  intros Hall. revert start. induction Hall as [|size sizes Hsize Hsizes IH]; intros start Hs Hb.
  - unfold sumZ. simpl. now rewrite Z.add_0_r.
  - change (sumZ (size :: sizes)) with (size + sumZ sizes) in *.
    assert (0 <= sumZ sizes) as Hrest.
    { clear -Hsizes. induction Hsizes as [|x l Hx _ IHl]; [unfold sumZ; simpl; lia|].
      change (sumZ (x :: l)) with (x + sumZ l). lia. }
    cbn [map fold_left]. rewrite add_exact by lia.
    rewrite IH by lia. f_equal. lia.
Qed.
(** ** Properties of [formatBytes] *)

Lemma string_of_uint_digits (d : Decimal.uint) :
  Forall (fun c => isDigit c = true) (list_ascii_of_string (NilEmpty.string_of_uint d)).
Proof.
  induction d; simpl; constructor; auto.
Qed.

Lemma decimal_digitsOnly (n : Z) : digitsOnly (decimal n).
Proof.
  unfold digitsOnly, decimal, NilZero.string_of_uint.
  destruct (N.to_uint (Z.to_N n)) eqn:E;
    try (split; [discriminate | apply (string_of_uint_digits (_ _))]).
  split; [discriminate | repeat constructor].
Qed.

Lemma padded_digits (n : Z) (f : nat) :
  Forall (fun c => isDigit c = true) (padded n f) /\ (f < length (padded n f))%nat.
Proof.
  unfold padded. split.
  - apply Forall_app. split.
    + apply Forall_forall. intros c Hc. apply list_elem_of_In, repeat_spec in Hc. subst c. reflexivity.
    + apply decimal_digitsOnly.
  - rewrite length_app, repeat_length. lia.
Qed.

Lemma Qabs_nonneg (v : Q) : Qle_bool 0 v = true -> Qabs v = v.
Proof.
  destruct v as [n d]. unfold Qle_bool, Qabs. simpl. intros Hn.
  f_equal. apply Z.abs_eq. apply Z.leb_le in Hn. lia.
Qed.

Lemma below_exponent_notation (v : Q) :
  Qle_bool 0 v = true -> Qle_bool (inject_Z (10 ^ 21)) v = false ->
  Qle_bool (inject_Z (10 ^ 21)) (Qabs v) = false.
Proof. intros Hv Hsmall. now rewrite (Qabs_nonneg _ Hv). Qed.

Lemma toFixed_0 (v : Q) :
  Qle_bool 0 v = true -> Qle_bool (inject_Z (10 ^ 21)) v = false ->
  toFixed v 0 = string_of_list_ascii (decimal (nearest v 0)).
Proof.
  intros Hv Hsmall. unfold toFixed.
  rewrite (below_exponent_notation v Hv Hsmall), Hv, (Qabs_nonneg _ Hv). simpl.
  f_equal. unfold padded.
  destruct (decimal_digitsOnly (nearest v 0)) as [Hne _].
  destruct (decimal (nearest v 0)) as [|c m]; [congruence | reflexivity].
Qed.

Lemma toFixed_1 (v : Q) :
  Qle_bool 0 v = true -> Qle_bool (inject_Z (10 ^ 21)) v = false ->
  exists whole digit,
    padded (nearest v 1) 1 = whole ++ [digit] /\ whole <> [] /\
    toFixed v 1 = string_of_list_ascii (whole ++ "."%char :: [digit]).
Proof.
  intros Hv Hsmall. unfold toFixed.
  rewrite (below_exponent_notation v Hv Hsmall), Hv, (Qabs_nonneg _ Hv). simpl app.
  destruct (padded_digits (nearest v 1) 1) as [_ Hlen].
  set (m := padded (nearest v 1) 1) in *.
  destruct (drop (length m - 1) m) as [|digit tl] eqn:Hd.
  { apply (f_equal length) in Hd. rewrite length_drop in Hd. simpl in Hd. lia. }
  assert (tl = []) as ->.
  { apply (f_equal length) in Hd. rewrite length_drop in Hd. simpl in Hd.
    destruct tl; [reflexivity | simpl in Hd; lia]. }
  exists (take (length m - 1) m), digit. split; [|split].
  - rewrite <- Hd. symmetry. apply take_drop.
  - intros Ht. apply (f_equal length) in Ht. rewrite length_take in Ht. simpl in Ht. lia.
  - reflexivity.
Qed.

Lemma toFixed_exponential (v : Q) (f : nat) :
  Qle_bool 0 v = true -> Qle_bool (inject_Z (10 ^ 21)) v = true ->
  toFixed v f = string_of_list_ascii (exponential v).
Proof.
  intros Hv Hlarge. unfold toFixed. now rewrite (Qabs_nonneg _ Hv), Hlarge, Hv.
Qed.

(** The integer [nearest] gives is the one closest to the scaled value, the
    larger one on a tie. *)
Lemma nearest_spec (v : Q) (f : nat) :
  (inject_Z (nearest v f) - (1 # 2) <= v * inject_Z (10 ^ Z.of_nat f)
   < inject_Z (nearest v f) + (1 # 2))%Q.
Proof.
  unfold nearest. set (x := (v * inject_Z (10 ^ Z.of_nat f))%Q).
  pose proof (Qfloor_le (x + (1 # 2))) as Hlow.
  pose proof (Qlt_floor (x + (1 # 2))) as Hhigh.
  rewrite inject_Z_plus in Hhigh. change (inject_Z 1) with 1%Q in Hhigh.
  split; lra.
Qed.

Lemma nearest_nonneg (v : Q) (f : nat) : Qle_bool 0 v = true -> 0 <= nearest v f.
Proof.
  intros Hv. apply Qle_bool_iff in Hv. unfold nearest.
  rewrite <- (Qfloor_Z 0). apply Qfloor_resp_le.
  assert (0 <= inject_Z (10 ^ Z.of_nat f))%Q.
  { change 0%Q with (inject_Z 0). rewrite <- Zle_Qle. apply Z.pow_nonneg. lia. }
  change (inject_Z 0) with 0%Q. nra.
Qed.

(** The decimal digits of a number read as that number. *)
Lemma numeral_decimal (n : Z) : 0 <= n -> numeral (decimal n) = Some n.
Proof.
  intros Hn. unfold numeral, decimal. rewrite string_of_list_ascii_of_string.
  rewrite NilZero.usu.
  - cbn [fmap option_fmap option_map]. now rewrite DecimalN.Unsigned.of_to, Z2N.id.
  - destruct (Z.to_N n) as [|p]; [discriminate|].
    apply DecimalPos.Unsigned.to_uint_nonnil.
Qed.

Lemma numeral_padded (n : Z) : 0 <= n -> numeral (padded n 1) = Some n.
Proof.
  intros Hn. unfold padded.
  destruct (decimal_digitsOnly n) as [Hne _].
  pose proof (numeral_decimal n Hn) as Hnum.
  destruct (decimal n) as [|c [|c' m]] eqn:Hd; [congruence | | exact Hnum].
  change (repeat "0"%char (2 - length [c]) ++ [c]) with ("0"%char :: [c]).
  unfold numeral in *. cbn [string_of_list_ascii] in *.
  unfold NilZero.uint_of_string in *. cbn [NilEmpty.uint_of_string] in *.
  destruct (DecimalString.uint_of_char c (Some Decimal.Nil)) as [d|]; [|discriminate].
  cbn [fmap option_fmap option_map] in *.
  change (DecimalString.uint_of_char "0" (Some d)) with (Some (Decimal.D0 d)).
  cbn [option_map]. injection Hnum as <-. reflexivity.
Qed.

Lemma scaled_nonneg (q : Q) (k : nat) :
  Qle_bool 0 q = true -> Qle_bool 0 (scaled q k) = true.
Proof.
  intros Hq. induction k as [|k IH]; [exact Hq|].
  unfold scaled in *. simpl. apply Qle_bool_iff. apply Qle_bool_iff in IH.
  apply Qle_shift_div_l; [reflexivity | lra].
Qed.

(** The loop of [formatBytes] ends because its condition fails, not because
    the fuel is used up: it stops at the first [k] whose scaled value is below
    1024, or at the last unit. *)
Lemma scaleLoop_exit (q : Q) :
  exists k : nat,
    scaleLoop (length units) q 0 = (scaled q k, k) /\
    (k < length units)%nat /\
    (forall j, (j < k)%nat -> Qle_bool 1024 (scaled q j) = true) /\
    (Qle_bool 1024 (scaled q k) = false \/ k = (length units - 1)%nat).
Proof.
  unfold scaled. simpl.
  destruct (Qle_bool 1024 q) eqn:E0; simpl;
    [|exists 0%nat; simpl; repeat split; auto; intros; lia].
  destruct (Qle_bool 1024 (q / 1024)) eqn:E1; simpl;
    [|exists 1%nat; simpl; repeat split; auto; try lia;
      intros [|j] ?; simpl; auto; lia].
  destruct (Qle_bool 1024 (q / 1024 / 1024)) eqn:E2; simpl;
    [|exists 2%nat; simpl; repeat split; auto; try lia;
      intros [|[|j]] ?; simpl; auto; lia].
  destruct (Qle_bool 1024 (q / 1024 / 1024 / 1024)) eqn:E3; simpl;
    [|exists 3%nat; simpl; repeat split; auto; try lia;
      intros [|[|[|j]]] ?; simpl; auto; lia].
  destruct (Qle_bool 1024 (q / 1024 / 1024 / 1024 / 1024)) eqn:E4; simpl;
    [|exists 4%nat; simpl; repeat split; auto; try lia;
      intros [|[|[|[|j]]]] ?; simpl; auto; lia].
  rewrite andb_false_r.
  exists 5%nat; simpl; repeat split; auto; try lia.
  intros [|[|[|[|[|j]]]]] ?; simpl; auto; lia.
Qed.

Lemma formatBytes_guard (x : number) :
  isFinite x = false \/ ltb x (Finite 0) = true -> formatBytes x = "0 B"%string.
Proof.
  intros Hx. unfold formatBytes.
  destruct Hx as [-> | ->]; [reflexivity | now rewrite orb_true_r].
Qed.

(** C3, as amended. The listed inputs render as follows: 0 as "0 B", 1023 as
    "1023 B", 1024 as "1.0 KB", 1536 as "1.5 KB", 1048576 as "1.0 MB" (a value
    below 100 in a unit above bytes keeps its one fractional digit, also when
    that digit is 0), and every negative or non-finite input yields "0 B". *)
Theorem formatBytes_examples :
  formatBytes (Finite 0) = "0 B"%string /\
  formatBytes (Finite 1023) = "1023 B"%string /\
  formatBytes (Finite 1024) = "1.0 KB"%string /\
  formatBytes (Finite 1536) = "1.5 KB"%string /\
  formatBytes (Finite 1048576) = "1.0 MB"%string /\
  forall x : number,
    isFinite x = false \/ ltb x (Finite 0) = true -> formatBytes x = "0 B"%string.
Proof.
  split; [vm_compute; reflexivity|].
  split; [vm_compute; reflexivity|].
  split; [vm_compute; reflexivity|].
  split; [vm_compute; reflexivity|].
  split; [vm_compute; reflexivity|].
  apply formatBytes_guard.
Qed.

Lemma formatBytes_examples_witness :
  formatBytes NaN = "0 B"%string /\
  formatBytes PosInfinity = "0 B"%string /\
  formatBytes NegInfinity = "0 B"%string /\
  formatBytes (Finite (-5 # 2)) = "0 B"%string.
Proof.
  pose proof formatBytes_examples as (_ & _ & _ & _ & _ & Hguard).
  repeat split; apply Hguard; (left; reflexivity) || (right; reflexivity).
Defined.

(** C3 as stated fails at 1024 and at 1048576: [formatBytes] answers "1.0 KB"
    and "1.0 MB", not "1 KB" and "1 MB". *)
Lemma formatBytes_1024_is_not_1_KB :
  formatBytes (Finite 1024) = "1.0 KB"%string /\
  String.eqb (formatBytes (Finite 1024)) "1 KB" = false /\
  formatBytes (Finite 1048576) = "1.0 MB"%string /\
  String.eqb (formatBytes (Finite 1048576)) "1 MB" = false.
Proof.
  repeat split; vm_compute; reflexivity.
Qed.

(** C4, as amended. [formatBytes] is a function of its argument alone, defined
    on every number. On a non-finite or negative argument it returns "0 B",
    which is what it returns for zero bytes. On a finite [q >= 0] it divides by
    1024 as long as the value is at least 1024 and a larger unit is left among
    B, KB, MB, GB, TB, PB; with [k] the number of divisions and [v] the scaled
    value, the result is the rendering of [v], a space, and the [k]-th unit.
    When [v] is below 10^21 the rendering is: for [v >= 100] or [k = 0], the
    decimal digits of the integer [n] nearest to [v] (the larger one on a tie),
    no fractional digit; otherwise the decimal digits of the integer [n]
    nearest to [10 v] with a point before the last one, exactly one fractional
    digit. In both cases the digits read back as [n]. When [v] is 10^21 or
    more, which only happens in the last unit, the rendering is the exponent
    notation of [v], whatever the number of fractional digits asked for. *)
Theorem formatBytes_rendering (bytes : number) :
  formatBytes (Finite 0) = "0 B"%string /\
  match bytes with
  | Finite q =>
      if Qle_bool 0 q then
        exists (k : nat) (unit : string),
          units !! k = Some unit /\
          (forall j, (j < k)%nat -> (1024 <= scaled q j)%Q) /\
          ((scaled q k < 1024)%Q \/ k = 5%nat) /\
          if Qle_bool (inject_Z (10 ^ 21)) (scaled q k) then
            k = 5%nat /\
            formatBytes bytes =
              (string_of_list_ascii (exponential (scaled q k)) +:+ " " +:+ unit)%string
          else if Qle_bool 100 (scaled q k) || (k =? 0)%nat then
            exists n : Z,
              (inject_Z n - (1 # 2) <= scaled q k < inject_Z n + (1 # 2))%Q /\
              digitsOnly (decimal n) /\ numeral (decimal n) = Some n /\
              formatBytes bytes =
                (string_of_list_ascii (decimal n) +:+ " " +:+ unit)%string
          else
            exists (n : Z) (whole : list ascii) (digit : ascii),
              (inject_Z n - (1 # 2) <= 10 * scaled q k < inject_Z n + (1 # 2))%Q /\
              padded n 1 = whole ++ [digit] /\
              digitsOnly whole /\ isDigit digit = true /\
              numeral (whole ++ [digit]) = Some n /\
              formatBytes bytes =
                (string_of_list_ascii (whole ++ "."%char :: [digit])
                   +:+ " " +:+ unit)%string
      else formatBytes bytes = "0 B"%string
  | _ => formatBytes bytes = "0 B"%string
  end.
Proof.
  split; [vm_compute; reflexivity|].
  destruct bytes as [| | |q]; try reflexivity.
  destruct (Qle_bool 0 q) eqn:Hq.
  2: { apply formatBytes_guard. right. simpl. now rewrite Hq. }
  destruct (scaleLoop_exit q) as (k & Hloop & Hk & Hbefore & Hexit).
  assert (exists unit, units !! k = Some unit) as [unit Hunit].
  { apply lookup_lt_is_Some_2. exact Hk. }
  exists k, unit. split; [exact Hunit|].
  assert ((scaled q k < 1024)%Q \/ k = 5%nat) as Hlast.
  { destruct Hexit as [Hexit | ->]; [left | now right].
    destruct (Qlt_le_dec (scaled q k) 1024) as [Hlt | Hle]; [exact Hlt|].
    apply Qle_bool_iff in Hle. congruence. }
  split; [|split; [exact Hlast|]].
  - intros j Hj. apply Qle_bool_iff. now apply Hbefore.
  - assert (formatBytes (Finite q) =
            ((if Qle_bool 100 (scaled q k) || (k =? 0)%nat
              then toFixed (scaled q k) 0 else toFixed (scaled q k) 1)
               +:+ " " +:+ unit)%string) as Hfmt.
    { unfold formatBytes. simpl isFinite. simpl ltb. rewrite Hq. simpl negb. simpl orb.
      rewrite Hloop. do 2 f_equal.
      rewrite (nth_lookup_Some _ _ _ _ Hunit). reflexivity. }
    pose proof (scaled_nonneg q k Hq) as Hv.
    destruct (Qle_bool (inject_Z (10 ^ 21)) (scaled q k)) eqn:Hlarge.
    { split.
      - destruct Hlast as [Hlt | ->]; [|reflexivity].
        apply Qle_bool_iff in Hlarge.
        assert (1024 < inject_Z (10 ^ 21))%Q by reflexivity. lra.
      - rewrite Hfmt, !(toFixed_exponential _ _ Hv Hlarge).
        now destruct (Qle_bool 100 (scaled q k) || (k =? 0)%nat). }
    destruct (Qle_bool 100 (scaled q k) || (k =? 0)%nat).
    + exists (nearest (scaled q k) 0).
      pose proof (nearest_spec (scaled q k) 0) as Hnear.
      change (inject_Z (10 ^ Z.of_nat 0)) with 1%Q in Hnear.
      split; [split; lra|].
      split; [apply decimal_digitsOnly|].
      split; [apply numeral_decimal, nearest_nonneg, Hv|].
      rewrite Hfmt, (toFixed_0 _ Hv Hlarge). reflexivity.
    + destruct (toFixed_1 _ Hv Hlarge) as (whole & digit & Hpad & Hne & Hfix).
      exists (nearest (scaled q k) 1), whole, digit.
      pose proof (nearest_spec (scaled q k) 1) as Hnear.
      change (inject_Z (10 ^ Z.of_nat 1)) with 10%Q in Hnear.
      split; [split; lra|].
      split; [exact Hpad|].
      destruct (padded_digits (nearest (scaled q k) 1) 1) as [Hdig _].
      rewrite Hpad in Hdig. apply Forall_app in Hdig as [Hw Hd].
      split; [split; assumption|].
      split; [now inversion Hd|].
      split; [rewrite <- Hpad; apply numeral_padded, nearest_nonneg, Hv|].
      rewrite Hfmt, Hfix. reflexivity.
Qed.

(** C4 as stated fails in the last unit from 10^21 PB on: the scaled value is
    at least 100 and yet its rendering has fractional digits, one for
    1.5 * 10^21 PB and fifteen for 10^40 bytes. *)
Lemma formatBytes_exponent_notation :
  Qle_bool 100 (scaled (inject_Z (1500000000000000000000 * 2 ^ 50)) 5) = true /\
  formatBytes (Number.ofZ (1500000000000000000000 * 2 ^ 50)) = "1.5e+21 PB"%string /\
  Qle_bool 100 (scaled (inject_Z 10000000000000000303786028427003666890752) 5) = true /\
  formatBytes (Number.ofZ 10000000000000000303786028427003666890752)
  = "8.881784197001253e+24 PB"%string /\
  String.eqb
    (formatBytes (Number.ofZ 10000000000000000303786028427003666890752))
    (string_of_list_ascii
       (decimal (nearest (scaled (inject_Z 10000000000000000303786028427003666890752) 5) 0))
       +:+ " PB")
  = false.
Proof.
  repeat split; vm_compute; reflexivity.
Qed.

(** ** The stat dispatcher *)

Lemma relativeIndex_ofZ (z len : Z) : 0 <= z -> relativeIndex (ofZ z) len = Z.min z len.
Proof.
  intros Hz. unfold relativeIndex, ofZ, truncate.
  change 0%Q with (inject_Z 0). rewrite Qle_bool_inject_Z.
  replace (0 <=? z) with true by (symmetry; apply Z.leb_le; exact Hz).
  rewrite Qfloor_Z. now replace (z <? 0) with false by (symmetry; apply Z.ltb_ge; exact Hz).
Qed.

Lemma relativeIndex_rounded (z len : Z) :
  0 <= z -> 0 <= len <= 2 ^ 53 -> relativeIndex (roundedOfZ z) len = Z.min z len.
Proof.
  intros Hz Hlen. destruct (Z_le_gt_dec z (2 ^ 53)) as [Hsmall | Hlarge].
  - rewrite roundedOfZ_exact by lia. now apply relativeIndex_ofZ.
  - destruct (roundedOfZ_large z ltac:(lia)) as [-> | (r & -> & Hr)].
    + simpl. lia.
    + rewrite relativeIndex_ofZ by lia. lia.
Qed.

Lemma ltb_rounded (z len : Z) :
  0 <= z -> 0 <= len <= 2 ^ 53 -> ltb (roundedOfZ z) (ofZ len) = (z <? len).
Proof.
  intros Hz Hlen. destruct (Z_le_gt_dec z (2 ^ 53)) as [Hsmall | Hlarge].
  - rewrite roundedOfZ_exact by lia. apply ltb_ofZ.
  - destruct (roundedOfZ_large z ltac:(lia)) as [-> | (r & -> & Hr)].
    + simpl. symmetry. apply Z.ltb_ge. lia.
    + rewrite ltb_ofZ. transitivity false; [|symmetry]; apply Z.ltb_ge; lia.
Qed.

Lemma index_condition (len : nat) (x : number) (i : nat) :
  indexAt len x i -> ltb x (ofNat len) = (i <? len)%nat.
Proof.
  intros [-> | [-> Hi]].
  - unfold ofNat. rewrite ltb_ofZ.
    destruct (Nat.ltb_spec i len); [apply Z.ltb_lt | apply Z.ltb_ge]; lia.
  - symmetry. apply Nat.ltb_ge. exact Hi.
Qed.

Lemma applyResults_map {Uri : Type} (g : StatRequest.t Uri -> option FileStat.t)
  (chunk : list (StatRequest.t Uri)) (l : Locals Uri) :
  applyResults chunk (map g chunk) l
  = fold_left (fun l r => StatRequest.onResult r (g r) l) chunk l.
Proof.
  unfold applyResults. revert l.
  induction chunk as [|r chunk IH]; intros l; simpl; [reflexivity | apply IH].
Qed.

Lemma awaitChunk_trace {Uri : Type} (fs : FileSystem Uri) (token : nat -> bool)
  (chunk : list (StatRequest.t Uri)) (w : World Uri) :
  isCancellationRequested token w = false ->
  trace (awaitChunk fs token chunk w) = trace w ++ chunkEvents chunk.
Proof.
  intros Hw. unfold awaitChunk, chunkEvents, requestStat. rewrite Hw. simpl.
  do 3 f_equal; induction chunk as [|r chunk IH]; simpl; congruence.
Qed.

(** *** An integer as the limit *)

Section StatDispatcher.
Context {Uri : Type} `{UriOps Uri}.
Variable fs : FileSystem Uri.
Variable this : WorkspaceSizeCalculator.
Variable token : nat -> bool.
Variable limit : Z.
Hypothesis limit_integer : statConcurrency this = ofZ limit.
Hypothesis limit_pos : 1 <= limit.

(** The [slice] of the loop body: what the requests from [i] on start with. *)
Lemma index_slice {A : Type} (l : list A) (i : nat) :
  Z.of_nat (length l) < 2 ^ 32 ->
  (i < length l)%nat ->
  slice l (ofNat i) (Number.add (ofNat i) (statConcurrency this))
  = take (Z.to_nat limit) (drop i l).
Proof.
  intros Hlen Hi. unfold slice. rewrite limit_integer. unfold ofNat. rewrite add_ofZ.
  rewrite relativeIndex_ofZ, relativeIndex_rounded by lia.
  rewrite (Z.min_l (Z.of_nat i)) by lia. rewrite Nat2Z.id.
  destruct (Z_le_gt_dec (Z.of_nat i + limit) (Z.of_nat (length l))) as [Hin | Hout].
  - rewrite Z.min_l by lia. f_equal. lia.
  - rewrite Z.min_r by lia.
    rewrite !take_ge; [reflexivity | |]; rewrite length_drop; lia.
Qed.

(** The [index += this.statConcurrency] of the loop. *)
Lemma index_next (len i : nat) :
  Z.of_nat len < 2 ^ 32 ->
  (i < len)%nat ->
  indexAt len (Number.add (ofNat i) (statConcurrency this)) (i + Z.to_nat limit).
Proof.
  intros Hlen Hi. rewrite limit_integer. unfold ofNat at 1. rewrite add_ofZ.
  destruct (Z_le_gt_dec (Z.of_nat i + limit) (2 ^ 53)) as [Hsmall | Hlarge].
  - left. rewrite roundedOfZ_exact by lia. unfold ofNat. f_equal. lia.
  - right. split; [|lia]. unfold ofNat. rewrite ltb_rounded by lia. apply Z.ltb_ge. lia.
Qed.

(** One iteration of the loop, on natural indices. *)
Lemma statLoop_step (requests : list (StatRequest.t Uri)) (fuel : nat) (x : number)
  (i : nat) (l : Locals Uri) (w : World Uri) :
  Z.of_nat (length requests) < 2 ^ 32 ->
  indexAt (length requests) x i ->
  exists x',
    indexAt (length requests) x' (i + Z.to_nat limit) /\
    statLoop fs this token (S fuel) requests x (l, w)
    = if (i <? length requests)%nat && negb (isCancellationRequested token w) then
        let chunk := take (Z.to_nat limit) (drop i requests) in
        let stats := map (fun request => snd (requestStat fs token w request)) chunk in
        let w' := awaitChunk fs token chunk w in
        if isCancellationRequested token w' then (l, w')
        else statLoop fs this token fuel requests x' (applyResults chunk stats l, w')
      else (l, w).
Proof.
  intros Hlen Hx. cbn [statLoop]. rewrite (index_condition _ _ _ Hx).
  destruct (Nat.ltb_spec i (length requests)) as [Hi | Hi].
  - destruct Hx as [-> | [Hx Hge]]; [|lia].
    exists (Number.add (ofNat i) (statConcurrency this)).
    split; [now apply index_next|].
    rewrite index_slice by assumption. reflexivity.
  - exists x. split; [|reflexivity].
    right. split; [|lia]. rewrite (index_condition _ _ _ Hx). apply Nat.ltb_ge. exact Hi.
Qed.

(** The next chunk is not empty, holds at most [limit] requests, and is what
    the remaining requests start with. *)
Lemma next_chunk {A : Type} (l : list A) (i : nat) :
  (i < length l)%nat ->
  let chunk := take (Z.to_nat limit) (drop i l) in
  (0 < length chunk)%nat /\
  Z.of_nat (length chunk) <= limit /\
  drop i l = chunk ++ drop (i + Z.to_nat limit) l.
Proof.
  intros Hi chunk. subst chunk.
  rewrite length_take, length_drop. repeat split; try lia.
  rewrite <- drop_drop. symmetry. apply take_drop.
Qed.

(** The shape of what the loop of [processStatRequests] does, for any token:
    it works through consecutive chunks of the remaining requests. *)
Lemma statLoop_chunks (requests : list (StatRequest.t Uri)) (fuel : nat) (x : number)
  (i : nat) (l : Locals Uri) (w : World Uri) :
  Z.of_nat (length requests) < 2 ^ 32 ->
  indexAt (length requests) x i ->
  exists chunks : list (list (StatRequest.t Uri)),
    trace (snd (statLoop fs this token fuel requests x (l, w)))
      = trace w ++ flat_map chunkEvents chunks /\
    Forall (fun chunk => (0 < length chunk)%nat /\
                         Z.of_nat (length chunk) <= limit) chunks /\
    (exists rest, drop i requests = concat chunks ++ rest) /\
    ((forall n, token n = false) -> (length requests - i <= fuel)%nat ->
     concat chunks = drop i requests).
Proof.
  intros Hlen. revert x i l w. induction fuel as [|fuel IH]; intros x i l w Hx.
  - exists []. simpl. rewrite app_nil_r. repeat split; auto.
    + now exists (drop i requests).
    + intros _ Hfuel. symmetry. apply drop_ge. lia.
  - destruct (statLoop_step requests fuel x i l w Hlen Hx) as (x' & Hx' & ->).
    destruct (Nat.ltb_spec i (length requests)) as [Hi | Hi]; simpl andb.
    2: { exists []. simpl. rewrite app_nil_r. repeat split; auto.
         - now exists (drop i requests).
         - intros _ _. symmetry. apply drop_ge. lia. }
    destruct (isCancellationRequested token w) eqn:Hw; simpl negb; cbv iota.
    { exists []. simpl. rewrite app_nil_r. repeat split; auto.
      - now exists (drop i requests).
      - intros Hnever. unfold isCancellationRequested in Hw. now rewrite Hnever in Hw. }
    destruct (next_chunk requests i Hi) as (Hpos & Hle & Hsplit).
    cbv zeta.
    set (chunk := take (Z.to_nat limit) (drop i requests)) in *.
    destruct (isCancellationRequested token (awaitChunk fs token chunk w)) eqn:Hw'.
    { exists [chunk]. cbn [snd flat_map concat]. rewrite !app_nil_r, awaitChunk_trace by exact Hw.
      repeat split; auto.
      - now exists (drop (i + Z.to_nat limit) requests).
      - intros Hnever. unfold isCancellationRequested in Hw'. now rewrite Hnever in Hw'. }
    match goal with |- context [statLoop _ _ _ _ _ _ (?l', ?w')] =>
      destruct (IH x' (i + Z.to_nat limit)%nat l' w' Hx')
        as (chunks & Htrace & Hall & [rest Hrest] & Hfull) end.
    exists (chunk :: chunks). rewrite Htrace, awaitChunk_trace by exact Hw.
    cbn [flat_map concat]. rewrite <- app_assoc. repeat split; auto.
    + exists rest. rewrite Hsplit, Hrest. now rewrite app_assoc.
    + intros Hnever Hfuel. rewrite Hsplit, Hfull; auto. lia.
Qed.

(** With a token that is never cancelled every request of the batch receives
    the result of its own stat, in request order, whatever the chunk size. *)
Lemma statLoop_never (requests : list (StatRequest.t Uri)) (fuel : nat) (x : number)
  (i : nat) (l : Locals Uri) (w : World Uri) :
  Z.of_nat (length requests) < 2 ^ 32 ->
  indexAt (length requests) x i ->
  (forall n, token n = false) ->
  (length requests - i <= fuel)%nat ->
  fst (statLoop fs this token fuel requests x (l, w))
  = fold_left (fun l r => StatRequest.onResult r (stat fs (StatRequest.uri r)) l)
      (drop i requests) l.
Proof.
  intros Hlen Hx Hnever. revert x i l w Hx.
  induction fuel as [|fuel IH]; intros x i l w Hx Hfuel.
  - rewrite drop_ge by lia. reflexivity.
  - destruct (statLoop_step requests fuel x i l w Hlen Hx) as (x' & Hx' & ->).
    unfold isCancellationRequested. rewrite !Hnever. simpl negb.
    rewrite andb_true_r.
    destruct (Nat.ltb_spec i (length requests)) as [Hi | Hi].
    2: { rewrite drop_ge by lia. reflexivity. }
    destruct (next_chunk requests i Hi) as (Hpos & Hle & Hsplit).
    cbv zeta.
    set (chunk := take (Z.to_nat limit) (drop i requests)) in *.
    rewrite (IH x' _ _ _ Hx') by lia. rewrite Hsplit, fold_left_app. f_equal.
    rewrite <- (applyResults_map (fun r => stat fs (StatRequest.uri r))).
    f_equal. apply map_ext. intros r. unfold requestStat, isCancellationRequested.
    now rewrite Hnever.
Qed.

Lemma processStatRequests_never (requests : list (StatRequest.t Uri))
  (l : Locals Uri) (w : World Uri) :
  Z.of_nat (length requests) < 2 ^ 32 ->
  (forall n, token n = false) ->
  fst (processStatRequests fs this token requests (l, w))
  = fold_left (fun l r => StatRequest.onResult r (stat fs (StatRequest.uri r)) l)
      requests l.
Proof.
  intros Hlen Hnever. unfold processStatRequests, isCancellationRequested.
  rewrite Hnever, orb_false_r.
  destruct requests as [|r requests]; [reflexivity|].
  change (length (r :: requests) =? 0)%nat with false. cbv iota.
  rewrite (statLoop_never _ _ _ 0%nat); [reflexivity | exact Hlen | now left | exact Hnever | lia].
Qed.

Lemma processStatRequests_chunks (requests : list (StatRequest.t Uri))
  (l : Locals Uri) (w : World Uri) :
  Z.of_nat (length requests) < 2 ^ 32 ->
  exists chunks : list (list (StatRequest.t Uri)),
    trace (snd (processStatRequests fs this token requests (l, w)))
      = trace w ++ flat_map chunkEvents chunks /\
    Forall (fun chunk => (0 < length chunk)%nat /\
                         Z.of_nat (length chunk) <= limit) chunks /\
    (exists rest, requests = concat chunks ++ rest) /\
    ((forall n, token n = false) -> concat chunks = requests).
Proof.
  intros Hlen. unfold processStatRequests.
  destruct ((length requests =? 0)%nat || isCancellationRequested token (snd (l, w))) eqn:Hg.
  - exists []. simpl. rewrite app_nil_r. repeat split; auto.
    + now exists requests.
    + intros Hnever. unfold isCancellationRequested in Hg. rewrite Hnever, orb_false_r in Hg.
      apply Nat.eqb_eq in Hg. destruct requests; [reflexivity | discriminate].
  - destruct (statLoop_chunks requests (length requests) (ofZ 0) 0 l w Hlen)
      as (chunks & Htrace & Hall & Hrest & Hfull); [now left|].
    exists chunks. repeat split; auto. intros Hnever. apply Hfull; auto. lia.
Qed.

End StatDispatcher.

(** The limit of a calculator made with an integer, or with nothing. *)
Lemma new_integer (limit : option Z) :
  statConcurrency (new (integerOptions limit)) = ofZ (Z.max 1 (default 32 limit)).
Proof.
  unfold new, integerOptions. cbn [statConcurrency WorkspaceSizeCalculatorOptions.statConcurrency].
  assert (forall z, Number.max (ofZ 1) (ofZ z) = ofZ (Z.max 1 z)) as Hmax.
  { intros z. unfold Number.max. cbn [ofZ]. fold (ofZ 1) (ofZ z). rewrite ltb_ofZ.
    destruct (Z.ltb_spec 1 z); f_equal; lia. }
  destruct limit as [z|]; cbn [fmap option_fmap option_map default]; apply Hmax.
Qed.

Lemma outstanding_app {Uri : Type} (a b : list (Event Uri)) :
  outstanding (a ++ b) = outstanding a + outstanding b.
Proof.
  induction a as [|[u|u|u] a IH]; simpl; lia.
Qed.

Lemma outstanding_issued {Uri : Type} (us : list Uri) (i : nat) :
  outstanding (take i (map StatIssued us)) = Z.of_nat (length (take i us)).
Proof.
  revert i. induction us as [|u us IH]; intros [|i]; simpl; auto.
  rewrite IH. lia.
Qed.

Lemma outstanding_settled {Uri : Type} (us : list Uri) (i : nat) :
  outstanding (take i (map StatSettled us)) = - Z.of_nat (length (take i us)).
Proof.
  revert i. induction us as [|u us IH]; intros [|i]; simpl; auto.
  rewrite IH. lia.
Qed.

Lemma outstanding_chunk {Uri : Type} (chunk : list (StatRequest.t Uri)) (i : nat) :
  0 <= outstanding (take i (chunkEvents chunk)) <= Z.of_nat (length chunk) /\
  outstanding (chunkEvents chunk) = 0.
Proof.
  unfold chunkEvents. split.
  - rewrite take_app, outstanding_app, outstanding_issued, outstanding_settled.
    rewrite !length_take, !length_map. lia.
  - rewrite outstanding_app.
    rewrite <- (firstn_all (map StatIssued _)), <- (firstn_all (map StatSettled _)).
    rewrite outstanding_issued, outstanding_settled, !length_map, !length_take, !length_map.
    lia.
Qed.

(** Chunks of at most [limit] requests, each awaited before the next starts,
    never leave more than [limit] stats outstanding. *)
Lemma outstanding_chunks {Uri : Type} (limit : Z) (chunks : list (list (StatRequest.t Uri))) :
  Forall (fun chunk => (0 < length chunk)%nat /\ Z.of_nat (length chunk) <= limit) chunks ->
  0 <= limit ->
  forall i : nat, 0 <= outstanding (take i (flat_map chunkEvents chunks)) <= limit.
Proof.
  intros Hall Hlimit. induction Hall as [|chunk chunks [_ Hle] _ IH]; intros i.
  - simpl. rewrite take_nil. simpl. lia.
  - simpl. rewrite take_app, outstanding_app.
    destruct (outstanding_chunk chunk i) as [Hin Hdone].
    destruct (decide (i <= length (chunkEvents chunk))%nat) as [Hi | Hi].
    + replace (i - length (chunkEvents chunk))%nat with 0%nat by lia.
      rewrite take_0. simpl. lia.
    + rewrite (take_ge (chunkEvents chunk)) by lia. rewrite Hdone.
      specialize (IH (i - length (chunkEvents chunk))%nat). lia.
Qed.


(** C8, as amended. With an integer configured as the limit, or nothing, the
    effective limit of a calculator is max(1, configured value), with 32 when
    none is configured; for every batch (an array, so of fewer than 2^32
    requests), token and state, [processStatRequests] works through
    consecutive chunks of the batch, each of at least one and at most that
    many requests, and awaits all stats of a chunk before the next chunk
    starts (the whole batch when the token is never cancelled), so at no point
    of its trace are more than that many stats outstanding. *)
Theorem stat_concurrency_bound {Uri : Type} `{UriOps Uri} (fs : FileSystem Uri)
  (limit : option Z) (token : nat -> bool)
  (requests : list (StatRequest.t Uri)) (l : Locals Uri) (w : World Uri) :
  let this := new (integerOptions limit) in
  let effective := Z.max 1 (default 32 limit) in
  Z.of_nat (length requests) < 2 ^ 32 ->
  statConcurrency this = ofZ effective /\
  statConcurrency (new (integerOptions None)) = ofZ 32 /\
  exists chunks : list (list (StatRequest.t Uri)),
    trace (snd (processStatRequests fs this token requests (l, w)))
      = trace w ++ flat_map chunkEvents chunks /\
    Forall (fun chunk => (0 < length chunk)%nat /\
                         Z.of_nat (length chunk) <= effective) chunks /\
    (exists rest, requests = concat chunks ++ rest) /\
    ((forall n, token n = false) -> concat chunks = requests) /\
    forall i : nat,
      0 <= outstanding (take i (flat_map chunkEvents chunks)) <= effective.
Proof.
  intros this effective Hlen.
  split; [apply new_integer|]. split; [reflexivity|].
  destruct (processStatRequests_chunks fs this token effective (new_integer limit)
              ltac:(unfold effective; lia) requests l w Hlen)
    as (chunks & Htrace & Hall & Hrest & Hfull).
  exists chunks. do 4 (split; [assumption|]).
  apply outstanding_chunks; [exact Hall | unfold effective; lia].
Qed.

Lemma stat_concurrency_bound_witness :
  let requests := map fileRequest ["R/a"; "R/gone"; "R/b"]%string in
  let start := ({| totalSize := ofZ 0; pendingDirectories := [] |},
                {| clock := 0; trace := [] |}) in
  let this := new (integerOptions (Some 2)) in
  statConcurrency this = ofZ 2 /\
  trace (snd (processStatRequests vanishedFs this (fun _ => false) requests start))
  = [StatIssued "R/a"; StatIssued "R/gone"; StatSettled "R/a"; StatSettled "R/gone";
     StatIssued "R/b"; StatSettled "R/b"]%string /\
  exists chunks : list (list (StatRequest.t string)),
    trace (snd (processStatRequests vanishedFs this (fun _ => false) requests start))
      = [] ++ flat_map chunkEvents chunks /\
    concat chunks = requests.
Proof.
  intros requests start this.
  destruct (stat_concurrency_bound vanishedFs (Some 2)
              (fun _ => false) requests (fst start) (snd start) ltac:(reflexivity))
    as (Hlimit & _ & chunks & Htrace & _ & _ & Hfull & _).
  split; [exact Hlimit|]. split; [vm_compute; reflexivity|].
  exists chunks. split; [exact Htrace|].
  apply Hfull. reflexivity.
Defined.

(** C8 as stated fails for a limit that is not an integer: with 2.5 configured
    the effective limit is 2.5, the chunks of a batch of ten hold 2, 3, 2 and 3
    requests, and three stats are outstanding at a time. With [NaN] configured
    the limit is [NaN] and the one chunk is empty: no stat is issued. *)
Lemma fractional_limit_exceeds_bound :
  let requests :=
    map fileRequest ["a"; "b"; "c"; "d"; "e"; "f"; "g"; "h"; "i"; "j"]%string in
  let start := ({| totalSize := ofZ 0; pendingDirectories := [] |},
                {| clock := 0; trace := [] |}) in
  let this :=
    new {| WorkspaceSizeCalculatorOptions.statConcurrency := Some (Finite (5 # 2)) |} in
  let notANumber :=
    new {| WorkspaceSizeCalculatorOptions.statConcurrency := Some NaN |} in
  let events := trace (snd (processStatRequests noFs this (fun _ => false) requests start)) in
  statConcurrency this = Finite (5 # 2) /\
  take 10 events
  = [StatIssued "a"; StatIssued "b"; StatSettled "a"; StatSettled "b";
     StatIssued "c"; StatIssued "d"; StatIssued "e";
     StatSettled "c"; StatSettled "d"; StatSettled "e"]%string /\
  outstanding (take 7 events) = 3 /\
  ltb (statConcurrency this) (ofZ (outstanding (take 7 events))) = true /\
  statConcurrency notANumber = NaN /\
  trace (snd (processStatRequests noFs notANumber (fun _ => false) requests start)) = [].
Proof.
  repeat split; vm_compute; reflexivity.
Qed.

(** ** The traversal loop *)

Lemma omap_length {A B : Type} (f : A -> option B) (l : list A) :
  (length (omap f l) <= length l)%nat.
Proof.
  induction l as [|a l IH]; [reflexivity|].
  change (omap f (a :: l)) with (match f a with Some b => b :: omap f l | None => omap f l end).
  destruct (f a); simpl; lia.
Qed.

Section Traversal.
Context {Uri : Type} `{UriOps Uri}.
Variable fs : FileSystem Uri.
Variable this : WorkspaceSizeCalculator.
Variable token : nat -> bool.

Lemma listed_app (a b : list (Event Uri)) : listed (a ++ b) = listed a ++ listed b.
Proof. apply omap_app. Qed.

Lemma listed_stats (us : list Uri) :
  listed (map StatIssued us) = [] /\ listed (map StatSettled us) = [].
Proof.
  split; induction us as [|u us IH]; auto.
Qed.

Lemma listed_chunks (chunks : list (list (StatRequest.t Uri))) :
  listed (flat_map chunkEvents chunks) = [].
Proof.
  induction chunks as [|chunk chunks IH]; [reflexivity|].
  cbn [flat_map]. rewrite listed_app, IH, app_nil_r. unfold chunkEvents.
  rewrite listed_app. now rewrite (proj1 (listed_stats _)), (proj2 (listed_stats _)).
Qed.

Lemma slice_subseteq {A : Type} (l : list A) (start end_ : number) : slice l start end_ ⊆ l.
Proof.
  unfold slice. intros x Hx. apply elem_of_take in Hx as (i & Hx & _).
  apply list_elem_of_lookup_2 in Hx. revert Hx. apply subseteq_drop.
Qed.

(** Whatever the limit is, the loop of [processStatRequests] issues stats
    only, chunk after chunk, for requests of the batch. *)
Lemma statLoop_events (requests : list (StatRequest.t Uri)) (fuel : nat) (x : number)
  (l : Locals Uri) (w : World Uri) :
  exists chunks : list (list (StatRequest.t Uri)),
    trace (snd (statLoop fs this token fuel requests x (l, w)))
      = trace w ++ flat_map chunkEvents chunks /\
    Forall (fun chunk => chunk ⊆ requests) chunks.
Proof.
  revert x l w. induction fuel as [|fuel IH]; intros x l w.
  - exists []. simpl. now rewrite app_nil_r.
  - cbn [statLoop].
    destruct (ltb x (ofNat (length requests))); simpl andb;
      [|exists []; simpl; now rewrite app_nil_r].
    destruct (isCancellationRequested token w) eqn:Hw; simpl negb; cbv iota;
      [exists []; simpl; now rewrite app_nil_r|].
    set (chunk := slice requests x (Number.add x (statConcurrency this))).
    destruct (isCancellationRequested token (awaitChunk fs token chunk w)).
    { exists [chunk]. cbn [snd flat_map]. rewrite app_nil_r, awaitChunk_trace by exact Hw.
      split; [reflexivity|]. constructor; [apply slice_subseteq | constructor]. }
    match goal with |- context [statLoop _ _ _ _ _ ?x' (?l', ?w')] =>
      destruct (IH x' l' w') as (chunks & Htrace & Hall) end.
    exists (chunk :: chunks). rewrite Htrace, awaitChunk_trace by exact Hw.
    cbn [flat_map]. rewrite <- app_assoc. split; [reflexivity|].
    constructor; [apply slice_subseteq | exact Hall].
Qed.

Lemma processStatRequests_events (requests : list (StatRequest.t Uri))
  (l : Locals Uri) (w : World Uri) :
  exists chunks : list (list (StatRequest.t Uri)),
    trace (snd (processStatRequests fs this token requests (l, w)))
      = trace w ++ flat_map chunkEvents chunks /\
    Forall (fun chunk => chunk ⊆ requests) chunks.
Proof.
  unfold processStatRequests. destruct (_ || _).
  - exists []. simpl. now rewrite app_nil_r.
  - apply statLoop_events.
Qed.

(** [processStatRequests] lists no directory. *)
Lemma processStatRequests_listed (requests : list (StatRequest.t Uri))
  (l : Locals Uri) (w : World Uri) :
  listed (trace (snd (processStatRequests fs this token requests (l, w))))
  = listed (trace w).
Proof.
  destruct (processStatRequests_events requests l w) as (chunks & -> & _).
  now rewrite listed_app, listed_chunks, app_nil_r.
Qed.

(** The three ways an iteration can go. *)
Lemma iteration_cases (s : LoopState Uri) :
  (pendingDirectories (locals s) = [] /\ iteration fs this token s = s) \/
  (exists u rest,
      pendingDirectories (locals s) = u :: rest /\
      (toString u ∈ visitedDirectories s) /\
      iteration fs this token s
      = {| locals := {| totalSize := totalSize (locals s); pendingDirectories := rest |};
           visitedDirectories := visitedDirectories s;
           world := world s |}) \/
  (exists u rest,
      pendingDirectories (locals s) = u :: rest /\
      (toString u ∉ visitedDirectories s) /\
      visitedDirectories (iteration fs this token s)
        = {[toString u]} ∪ visitedDirectories s /\
      listed (trace (world (iteration fs this token s)))
        = listed (trace (world s)) ++ [u]).
Proof.
  unfold iteration.
  destruct (pendingDirectories (locals s)) as [|u rest]; [left; auto | right].
  destruct (decide (toString u ∈ visitedDirectories s)) as [Hin | Hout].
  - left. exists u, rest. auto.
  - right. exists u, rest. split; [reflexivity|]. split; [exact Hout|].
    destruct (readDirectory fs u) as [entries|].
    + destruct (forEntries _ _ _ _ _ _) as [l1 requests].
      destruct (processStatRequests fs this token requests _) as [l2 w2] eqn:Hp.
      split; [reflexivity|]. simpl.
      change w2 with (snd (l2, w2)). rewrite <- Hp, processStatRequests_listed.
      simpl. now rewrite listed_app.
    + split; [reflexivity|]. simpl. now rewrite listed_app.
Qed.

Lemma iteration_listedOnce (s : LoopState Uri) :
  listedOnce s -> listedOnce (iteration fs this token s).
Proof.
  intros [Hnodup Hvisited].
  destruct (iteration_cases s)
    as [[_ ->] | [(u & rest & _ & _ & ->) | (u & rest & _ & Hout & Hv & Hl)]];
    [split; assumption | split; assumption |].
  unfold listedOnce, listedKeys in *. rewrite Hv, Hl, map_app. simpl. split.
  - apply NoDup_app. split; [exact Hnodup|]. split; [|apply NoDup_singleton].
    intros key Hkey Hu. apply list_elem_of_singleton in Hu. subst key.
    apply Hout, Hvisited, Hkey.
  - intros key. rewrite elem_of_union, elem_of_singleton, elem_of_app,
      list_elem_of_singleton, Hvisited. tauto.
Qed.

Lemma initialState_listedOnce (folder : WorkspaceFolder.t Uri) :
  listedOnce (initialState folder).
Proof.
  split; [apply NoDup_nil_2|]. intros key. simpl. unfold listedKeys. simpl.
  rewrite elem_of_empty, elem_of_nil. tauto.
Qed.

Lemma iterations_listedOnce (n : nat) (s : LoopState Uri) :
  listedOnce s -> listedOnce (iterations fs this token n s).
Proof.
  revert s. induction n as [|n IH]; intros s Hs; simpl; [exact Hs|].
  destruct (loopCondition token s); [|exact Hs].
  apply IH, iteration_listedOnce, Hs.
Qed.

(** What the loop returns is the state after that many iterations. *)
Lemma scanLoop_iterations (fuel : nat) (s s' : LoopState Uri) :
  scanLoop fs this token fuel s = Some s' ->
  s' = iterations fs this token fuel s /\ loopCondition token s' = false.
Proof.
  revert s. induction fuel as [|fuel IH]; intros s; simpl.
  - destruct (loopCondition token s) eqn:Hc; [discriminate|].
    intros [= <-]. auto.
  - destruct (loopCondition token s) eqn:Hc; [apply IH|].
    intros [= <-]. auto.
Qed.

(** Once the condition fails after [n] iterations, any fuel from [n] on
    returns that state. *)
Lemma scanLoop_enough (n : nat) (s : LoopState Uri) :
  loopCondition token (iterations fs this token n s) = false ->
  forall fuel, (n <= fuel)%nat ->
    scanLoop fs this token fuel s = Some (iterations fs this token n s).
Proof.
  revert s. induction n as [|n IH]; intros s Hend fuel Hfuel.
  - simpl in *. destruct fuel; simpl; now rewrite Hend.
  - simpl in Hend. destruct fuel as [|fuel]; [lia|]. simpl.
    destruct (loopCondition token s) eqn:Hc; [|now rewrite Hc in *].
    apply IH; [exact Hend | lia].
Qed.

Lemma iterations_add (a b : nat) (s : LoopState Uri) :
  iterations fs this token (a + b) s
  = iterations fs this token b (iterations fs this token a s).
Proof.
  revert s. induction a as [|a IH]; intros s; [reflexivity|].
  simpl. destruct (loopCondition token s) eqn:Hc; [apply IH|].
  destruct b; simpl; now rewrite ?Hc.
Qed.

Lemma forEntries_app (w : World Uri) (cur : Uri) (before after : list (string * Z))
  (l : Locals Uri) (requests : list (StatRequest.t Uri)) :
  forEntries token w cur (before ++ after) l requests
  = forEntries token w cur after
      (fst (forEntries token w cur before l requests))
      (snd (forEntries token w cur before l requests)).
Proof.
  revert l requests. induction before as [|[name type] before IH]; intros l requests.
  - reflexivity.
  - cbn [app forEntries].
    destruct (isCancellationRequested token w) eqn:Hw.
    { simpl. destruct after as [|[name' type'] after]; [reflexivity|].
      simpl. now rewrite Hw. }
    repeat destruct (FileType.has type _); apply IH.
Qed.

(** The [for] loop queues at most one request per entry. *)
Lemma forEntries_length (w : World Uri) (cur : Uri) (entries : list (string * Z))
  (l : Locals Uri) (requests : list (StatRequest.t Uri)) :
  (length (snd (forEntries token w cur entries l requests))
   <= length requests + length entries)%nat.
Proof.
  revert l requests. induction entries as [|[name type] entries IH]; intros l requests.
  - simpl. lia.
  - cbn [forEntries length].
    destruct (isCancellationRequested token w); [simpl; lia|].
    repeat destruct (FileType.has type _);
      match goal with |- context [forEntries _ _ _ _ ?l' ?rs] =>
        specialize (IH l' rs) end;
      rewrite ?length_app in IH; simpl in IH; lia.
Qed.

(** The [for] loop while the token is not cancelled: directories are pushed,
    the other entries queue their request. *)
Lemma forEntries_uncancelled (w : World Uri) (cur : Uri) (entries : list (string * Z))
  (l : Locals Uri) (requests : list (StatRequest.t Uri)) :
  isCancellationRequested token w = false ->
  forEntries token w cur entries l requests
  = (pushed cur entries l, requests ++ omap (entryRequest cur) entries).
Proof.
  intros Hw. revert l requests.
  induction entries as [|[name type] entries IH]; intros l requests.
  - simpl. now rewrite app_nil_r.
  - cbn [forEntries]. rewrite Hw. unfold pushed. cbn [fold_left fst snd].
    change (omap (entryRequest cur) ((name, type) :: entries))
      with (match entryRequest cur (name, type) with
            | Some r => r :: omap (entryRequest cur) entries
            | None => omap (entryRequest cur) entries
            end).
    unfold entryRequest at 1. cbn [fst snd].
    destruct (FileType.has type FileType.Directory); [apply IH|].
    destruct (FileType.has type FileType.File);
      [rewrite IH, <- app_assoc; reflexivity|].
    destruct (FileType.has type FileType.SymbolicLink); [apply IH|].
    rewrite IH, <- app_assoc. reflexivity.
Qed.

Lemma pushed_totalSize (cur : Uri) (entries : list (string * Z)) (l : Locals Uri) :
  totalSize (pushed cur entries l) = totalSize l.
Proof.
  revert l. unfold pushed. induction entries as [|[name type] entries IH]; intros l.
  - reflexivity.
  - cbn [fold_left snd fst]. rewrite IH. now destruct (FileType.has type _).
Qed.

Lemma applyResults_preserves (P : Locals Uri -> Prop)
  (chunk : list (StatRequest.t Uri)) (stats : list (option FileStat.t)) (l : Locals Uri) :
  Forall (fun r => forall st l, P l -> P (StatRequest.onResult r st l)) chunk ->
  P l -> P (applyResults chunk stats l).
Proof.
  unfold applyResults. intros Hall. revert stats l.
  induction Hall as [|r chunk Hr _ IH]; intros [|st stats] l Hl; simpl; auto.
Qed.

(** A property of the locals that every callback preserves is preserved by
    [processStatRequests], for any token and any limit. *)
Lemma processStatRequests_preserves (P : Locals Uri -> Prop)
  (requests : list (StatRequest.t Uri)) (l : Locals Uri) (w : World Uri) :
  Forall (fun r => forall st l, P l -> P (StatRequest.onResult r st l)) requests ->
  P l -> P (fst (processStatRequests fs this token requests (l, w))).
Proof.
  intros Hall. unfold processStatRequests.
  destruct (_ || _); [auto|].
  generalize (length requests) at 1. intros fuel. generalize (ofZ 0).
  revert l w. induction fuel as [|fuel IH]; intros l w index Hl; [exact Hl|].
  cbn [statLoop]. destruct (_ && _); [|exact Hl].
  destruct (isCancellationRequested token (awaitChunk _ _ _ _)); [exact Hl|].
  apply IH. apply applyResults_preserves; [|exact Hl].
  unfold slice. now apply Forall_take, Forall_drop.
Qed.

Lemma iteration_listing_fails (s : LoopState Uri) (u : Uri) (rest : list Uri) :
  pendingDirectories (locals s) = u :: rest ->
  toString u ∉ visitedDirectories s ->
  readDirectory fs u = None ->
  iteration fs this token s
  = {| locals := {| totalSize := totalSize (locals s); pendingDirectories := rest |};
       visitedDirectories := {[toString u]} ∪ visitedDirectories s;
       world := awaitReadDirectory u (world s) |}.
Proof.
  intros Hp Hv Hr. unfold iteration. rewrite Hp, Hr.
  destruct (decide (toString u ∈ visitedDirectories s)); [contradiction | reflexivity].
Qed.


(** An iteration on an unvisited directory that can be listed, spelled out. *)
Lemma iteration_listing (s : LoopState Uri) (cur : Uri) (rest : list Uri)
  (entries : list (string * Z)) :
  pendingDirectories (locals s) = cur :: rest ->
  toString cur ∉ visitedDirectories s ->
  readDirectory fs cur = Some entries ->
  let w := awaitReadDirectory cur (world s) in
  let queued :=
    forEntries token w cur entries
      {| totalSize := totalSize (locals s); pendingDirectories := rest |} [] in
  let done := processStatRequests fs this token (snd queued) (fst queued, w) in
  iteration fs this token s
  = {| locals := fst done;
       visitedDirectories := {[toString cur]} ∪ visitedDirectories s;
       world := snd done |}.
Proof.
  intros Hp Hv Hlist w queued done. unfold iteration. rewrite Hp, Hlist.
  destruct (decide (toString cur ∈ visitedDirectories s)); [contradiction|].
  fold w. fold queued. destruct queued as [l1 requests] eqn:Hq.
  cbn [fst snd] in done. fold done. now destruct done.
Qed.

End Traversal.

(** *** The total and the listed directories *)

Section ListedTotals.
Context {Uri : Type} `{UriOps Uri}.
Variable fs : FileSystem Uri.
Variable this : WorkspaceSizeCalculator.
Variable token : nat -> bool.
Variable limit : Z.
Hypothesis limit_integer : statConcurrency this = ofZ limit.
Hypothesis limit_pos : 1 <= limit.
Hypothesis never : forall n, token n = false.

(** The callbacks of the requests of a listing add what [added] says. *)
Lemma callbacks_total (cur : Uri) (entries : list (string * Z)) (l : Locals Uri) :
  totalSize
    (fold_left (fun l r => StatRequest.onResult r (stat fs (StatRequest.uri r)) l)
       (omap (entryRequest cur) entries) l)
  = fold_left Number.add (omap (added fs cur) entries) (totalSize l).
Proof.
  revert l. induction entries as [|[name type] entries IH]; intros l; [reflexivity|].
  change (omap (entryRequest cur) ((name, type) :: entries))
    with (match entryRequest cur (name, type) with
          | Some r => r :: omap (entryRequest cur) entries
          | None => omap (entryRequest cur) entries
          end).
  change (omap (added fs cur) ((name, type) :: entries))
    with (match added fs cur (name, type) with
          | Some x => x :: omap (added fs cur) entries
          | None => omap (added fs cur) entries
          end).
  unfold entryRequest at 1, added at 1. cbn [fst snd].
  destruct (FileType.has type FileType.Directory); [apply IH|].
  destruct (FileType.has type FileType.File).
  { cbn [fold_left fileRequest StatRequest.uri StatRequest.onResult]. rewrite IH.
    unfold fileResult, contribution.
    destruct (stat fs (joinPath cur name)) as [st|]; [|reflexivity].
    now destruct (FileType.has (FileStat.type st) FileType.File). }
  destruct (FileType.has type FileType.SymbolicLink); [apply IH|].
  cbn [fold_left unknownRequest StatRequest.uri StatRequest.onResult]. rewrite IH.
  unfold unknownResult.
  destruct (stat fs (joinPath cur name)) as [st|]; [|reflexivity].
  destruct (FileType.has (FileStat.type st) FileType.Directory); [reflexivity|].
  now destruct (FileType.has (FileStat.type st) FileType.File).
Qed.

(** An iteration that lists [cur], spelled out for a token that is never
    cancelled: every request of the listing gets the result of its stat. *)
Lemma iteration_uncancelled (s : LoopState Uri) (cur : Uri) (rest : list Uri)
  (entries : list (string * Z)) :
  pendingDirectories (locals s) = cur :: rest ->
  toString cur ∉ visitedDirectories s ->
  readDirectory fs cur = Some entries ->
  locals (iteration fs this token s)
  = fold_left (fun l r => StatRequest.onResult r (stat fs (StatRequest.uri r)) l)
      (omap (entryRequest cur) entries)
      (pushed cur entries
         {| totalSize := totalSize (locals s); pendingDirectories := rest |}).
Proof.
  intros Hp Hv Hlist. rewrite (iteration_listing fs this token s cur rest entries) by assumption.
  cbn [locals]. rewrite forEntries_uncancelled by apply never. cbn [fst snd app].
  apply (processStatRequests_never fs this token limit limit_integer limit_pos); [|exact never].
  pose proof (readDirectory_array fs cur entries Hlist) as Hlen.
  pose proof (omap_length (entryRequest cur) entries). lia.
Qed.

Lemma iteration_total (s : LoopState Uri) (cur : Uri) (rest : list Uri) :
  pendingDirectories (locals s) = cur :: rest ->
  toString cur ∉ visitedDirectories s ->
  totalSize (locals (iteration fs this token s))
  = fold_left Number.add (additions fs cur) (totalSize (locals s)).
Proof.
  intros Hp Hv. unfold additions.
  destruct (readDirectory fs cur) as [entries|] eqn:Hlist.
  - rewrite (iteration_uncancelled s cur rest entries) by assumption.
    rewrite callbacks_total, pushed_totalSize. reflexivity.
  - rewrite (iteration_listing_fails fs this token s cur rest) by assumption. reflexivity.
Qed.

(** The total is the sum, in order, of what the listed directories add. *)
Lemma iterations_total (n : nat) (s : LoopState Uri) :
  totalSize (locals s)
    = fold_left Number.add (flat_map (additions fs) (listed (trace (world s)))) (ofZ 0) ->
  totalSize (locals (iterations fs this token n s))
  = fold_left Number.add
      (flat_map (additions fs) (listed (trace (world (iterations fs this token n s)))))
      (ofZ 0).
Proof.
  revert s. induction n as [|n IH]; intros s Hs; [exact Hs|].
  simpl. destruct (loopCondition token s); [|exact Hs]. apply IH.
  destruct (iteration_cases fs this token s)
    as [[_ ->] | [(u & rest & _ & _ & ->) | (u & rest & Hp & Hout & _ & Hl)]];
    [exact Hs | exact Hs |].
  rewrite Hl, flat_map_app, fold_left_app, <- Hs. cbn [flat_map]. rewrite app_nil_r.
  now apply (iteration_total s u rest).
Qed.

End ListedTotals.

(** C5. In the scan of one root the loop invariant [listedOnce] holds at the
    start and is preserved by every iteration: the visited set holds exactly
    the keys of the directories listed so far and no key is listed twice.
    Hence after any number of iterations, and in the state the scan ends in,
    every directory key has been listed at most once, however often the
    directory was discovered. And the total grows only when a directory is
    listed: with an integer limit and a token that is never cancelled, the
    total after any number of iterations is the sum, in the order of the
    listings, of the sizes that the listed directories add, each directory
    counted as often as it was listed, that is, once. *)
Theorem each_directory_listed_once {Uri : Type} `{UriOps Uri} (fs : FileSystem Uri)
  (options : WorkspaceSizeCalculatorOptions.t) (token : nat -> bool)
  (folder : WorkspaceFolder.t Uri) :
  let this := new options in
  listedOnce (initialState folder) /\
  (forall s, listedOnce s -> listedOnce (iteration fs this token s)) /\
  (forall n, NoDup (listedKeys (iterations fs this token n (initialState folder)))) /\
  (forall fuel s, scanFolder fs this token fuel folder = Some s -> NoDup (listedKeys s)) /\
  (forall (limit : option Z) (n : nat),
      let calculator := new (integerOptions limit) in
      let s := iterations fs calculator (fun _ => false) n (initialState folder) in
      NoDup (listedKeys s) /\
      totalSize (locals s)
      = fold_left Number.add (flat_map (additions fs) (listed (trace (world s)))) (ofZ 0)).
Proof.
  intros this.
  split; [apply initialState_listedOnce|]. split; [|split; [|split]].
  - intros s. now apply iteration_listedOnce.
  - intros n. apply (iterations_listedOnce fs this token), initialState_listedOnce.
  - intros fuel s Hs. apply scanLoop_iterations in Hs as [-> _].
    apply (iterations_listedOnce fs this token), initialState_listedOnce.
  - intros limit n calculator s. split.
    + apply iterations_listedOnce, initialState_listedOnce.
    + apply (iterations_total fs calculator (fun _ => false) _ (new_integer limit));
        [lia | reflexivity | reflexivity].
Qed.

Lemma each_directory_listed_once_witness :
  let s := iterations twiceFs (new (integerOptions None)) (fun _ => false) 3
             (initialState (workspaceFolder "D" 0)) in
  NoDup (listedKeys s) /\
  pendingDirectories (locals s) = [] /\
  listed (trace (world s)) = ["D"; "D/s"]%string /\
  flat_map (additions twiceFs) (listed (trace (world s))) = [ofZ 10] /\
  totalSize (locals s) = ofZ 10.
Proof.
  intros s.
  pose proof (each_directory_listed_once twiceFs defaultOptions (fun _ => false)
                (workspaceFolder "D" 0)) as (_ & _ & _ & _ & Htotal).
  destruct (Htotal None 3%nat) as [Hnodup Hsum]. fold s in Hnodup, Hsum.
  split; [exact Hnodup|].
  split; [vm_compute; reflexivity|].
  split; [vm_compute; reflexivity|].
  split; [vm_compute; reflexivity|].
  rewrite Hsum. vm_compute. reflexivity.
Defined.


Lemma calculate_all (Uri : Type) `{UriOps Uri} (fs : FileSystem Uri)
  (this : WorkspaceSizeCalculator) (fuel : nat) (token : nat -> nat -> bool)
  (sizeOf : WorkspaceFolder.t Uri -> number) (folders : list (WorkspaceFolder.t Uri))
  (g : nat -> nat) :
  (forall i folder, folders !! i = Some folder ->
     calculateFolderSize fs this (token (g i)) fuel folder = Some (sizeOf folder)) ->
  mapM (fun task : nat * WorkspaceFolder.t Uri =>
          size ← calculateFolderSize fs this (token (fst task)) fuel (snd task);
          Some {| FolderSizeResult.folder := snd task; FolderSizeResult.size := size |})
       (imap (fun i folder => (g i, folder)) folders)
  = Some (map (fun folder => {| FolderSizeResult.folder := folder;
                                FolderSizeResult.size := sizeOf folder |}) folders).
Proof.
  revert g. induction folders as [|folder folders IH]; intros g Hall; [reflexivity|].
  cbn [imap mapM map]. simpl fst. simpl snd.
  rewrite (Hall 0%nat folder eq_refl). simpl.
  specialize (IH (g ∘ S)). unfold compose in *.
  rewrite IH; [reflexivity|]. intros i f Hi. apply (Hall (S i)). exact Hi.
Qed.

(** C9. If the token is already cancelled when [calculate] starts, then for
    any file system, any folders and any fuel (even none) the call returns one
    result of size 0 per folder, in order, and no task has passed a
    suspension point or issued a file-system operation. *)
Theorem cancelled_before_start {Uri : Type} `{UriOps Uri} (fs : FileSystem Uri)
  (options : WorkspaceSizeCalculatorOptions.t) (folders : list (WorkspaceFolder.t Uri))
  (token : nat -> nat -> bool) (fuel : nat) :
  (forall i : nat, token i 0%nat = true) ->
  calculate fs (new options) fuel folders token
  = Some (map (fun folder => {| FolderSizeResult.folder := folder;
                                FolderSizeResult.size := ofZ 0 |}) folders) /\
  forall (i : nat) (folder : WorkspaceFolder.t Uri),
    folders !! i = Some folder ->
    exists s, scanFolder fs (new options) (token i) fuel folder = Some s /\
              trace (world s) = [] /\ clock (world s) = 0%nat.
Proof.
  intros Hcancelled.
  assert (forall i folder,
            scanFolder fs (new options) (token i) fuel folder = Some (initialState folder))
    as Hscan.
  { intros i folder. unfold scanFolder.
    assert (loopCondition (token i) (initialState folder) = false) as Hc.
    { unfold loopCondition, isCancellationRequested. simpl. now rewrite Hcancelled. }
    destruct fuel; simpl; now rewrite Hc. }
  split.
  - unfold calculate.
    apply (calculate_all Uri fs (new options) fuel token (fun _ => ofZ 0) folders (fun i => i)).
    intros i folder _. unfold calculateFolderSize. now rewrite Hscan.
  - intros i folder _. exists (initialState folder). auto.
Qed.


Lemma cancelled_before_start_witness :
  calculate twoRootsFs (new defaultOptions) 0
    [workspaceFolder "A" 0; workspaceFolder "B" 1] (fun _ _ => true)
  = Some [{| FolderSizeResult.folder := workspaceFolder "A" 0;
             FolderSizeResult.size := ofZ 0 |};
          {| FolderSizeResult.folder := workspaceFolder "B" 1;
             FolderSizeResult.size := ofZ 0 |}].
Proof.
  exact (proj1 (cancelled_before_start twoRootsFs defaultOptions
                  [workspaceFolder "A" 0; workspaceFolder "B" 1] (fun _ _ => true) 0
                  (fun _ => eq_refl))).
Defined.

(** ** Scanning a tree of regular files and directories *)

Lemma sumZ_app (a b : list Z) : sumZ (a ++ b) = sumZ a + sumZ b.
Proof. unfold sumZ. induction a as [|x a IH]; simpl; lia. Qed.

Lemma sumZ_perm (a b : list Z) : a ≡ₚ b -> sumZ a = sumZ b.
Proof.
  unfold sumZ. induction 1; simpl; lia.
Qed.

Lemma treeSize_perm (entries entries' : list (string * Tree)) :
  entries ≡ₚ entries' -> treeSize (Folder entries) = treeSize (Folder entries').
Proof.
  intros Hp. simpl. apply sumZ_perm. now apply Permutation_map.
Qed.

Lemma treeSize_split {Uri : Type} `{UriOps Uri} (u : Uri) (entries : list (string * Tree)) :
  treeSize (Folder entries) = filesSize entries + workSize (subdirectories u entries).
Proof.
  induction entries as [|[name [size|entries']] entries IH].
  - reflexivity.
  - change (size + treeSize (Folder entries)
            = (size + filesSize entries) + workSize (subdirectories u entries)).
    rewrite IH. lia.
  - change (treeSize (Folder entries') + treeSize (Folder entries)
            = filesSize entries
              + (treeSize (Folder entries') + workSize (subdirectories u entries))).
    rewrite IH. lia.
Qed.

Lemma workSize_app {Uri : Type} (a b : list (Uri * list (string * Tree))) :
  workSize (a ++ b) = workSize a + workSize b.
Proof. unfold workSize. now rewrite map_app, sumZ_app. Qed.

Lemma workSize_rev {Uri : Type} (a : list (Uri * list (string * Tree))) :
  workSize (rev a) = workSize a.
Proof.
  unfold workSize. apply sumZ_perm, Permutation_map. symmetry. apply Permutation_rev.
Qed.

Lemma naturalSizes_entries (entries : list (string * Tree)) :
  naturalSizes (Folder entries) <-> Forall (fun e => naturalSizes (snd e)) entries.
Proof.
  induction entries as [|e entries IH].
  - split; [constructor | exact (fun _ => I)].
  - change (naturalSizes (Folder (e :: entries)))
      with (naturalSizes (snd e) /\ naturalSizes (Folder entries)).
    rewrite Forall_cons, IH. tauto.
Qed.

Lemma treeSize_nonneg (t : Tree) : naturalSizes t -> 0 <= treeSize t.
Proof.
  revert t. fix IH 1. intros [size|entries].
  - exact (fun Hsize => Hsize).
  - induction entries as [|[name t] entries IHentries]; intros Hnatural.
    + reflexivity.
    + destruct Hnatural as [Ht Hrest].
      specialize (IH t Ht). specialize (IHentries Hrest).
      change (0 <= treeSize t + treeSize (Folder entries)). lia.
Qed.

Lemma filesSize_nonneg (entries : list (string * Tree)) :
  Forall (fun e => naturalSizes (snd e)) entries -> 0 <= filesSize entries.
Proof.
  induction 1 as [|[name [size|entries']] entries Hx _ IH].
  - reflexivity.
  - change (0 <= size + filesSize entries). simpl in Hx. lia.
  - exact IH.
Qed.

Lemma natural_subdirectories {Uri : Type} `{UriOps Uri} (u : Uri)
  (entries : list (string * Tree)) :
  Forall (fun e => naturalSizes (snd e)) entries ->
  Forall (fun d => naturalSizes (Folder (snd d))) (subdirectories u entries).
Proof.
  unfold subdirectories.
  induction 1 as [|[name [size|entries']] entries Hx _ IH]; simpl; auto.
Qed.

Lemma workSize_nonneg {Uri : Type} (work : list (Uri * list (string * Tree))) :
  Forall (fun d => naturalSizes (Folder (snd d))) work -> 0 <= workSize work.
Proof.
  induction 1 as [|d work Hd _ IH]; [reflexivity|].
  change (0 <= treeSize (Folder (snd d)) + workSize work).
  pose proof (treeSize_nonneg _ Hd). lia.
Qed.

Section TreeScan.
Context {Uri : Type} `{UriOps Uri}.
Variable fs : FileSystem Uri.
Variable this : WorkspaceSizeCalculator.
Variable token : nat -> bool.
Variable limit : Z.
Hypothesis limit_integer : statConcurrency this = ofZ limit.
Hypothesis limit_pos : 1 <= limit.
Hypothesis never_cancelled : forall n, token n = false.

Lemma workKeys_subdirectories (u : Uri) (entries : list (string * Tree)) :
  workKeys (subdirectories u entries)
  = flat_map (fun e => directoryKeys (joinPath u (fst e)) (snd e)) entries.
Proof.
  induction entries as [|[name [size|entries']] entries IH].
  - reflexivity.
  - exact IH.
  - change (directoryKeys (joinPath u name) (Folder entries')
              ++ workKeys (subdirectories u entries)
            = directoryKeys (joinPath u name) (Folder entries')
              ++ flat_map (fun e => directoryKeys (joinPath u (fst e)) (snd e)) entries).
    now rewrite IH.
Qed.

Lemma hosts_entries (u : Uri) (entries : list (string * Tree)) :
  foldr (fun e others => hosts fs (joinPath u (fst e)) (snd e) /\ others) True entries
  <-> Forall (fun e => hosts fs (joinPath u (fst e)) (snd e)) entries.
Proof.
  induction entries as [|e entries IH]; simpl.
  - split; auto.
  - rewrite Forall_cons, IH. tauto.
Qed.

Lemma hosts_subdirectories (u : Uri) (entries : list (string * Tree)) :
  Forall (fun e => hosts fs (joinPath u (fst e)) (snd e)) entries ->
  Forall (fun d => hosts fs (fst d) (Folder (snd d))) (subdirectories u entries).
Proof.
  unfold subdirectories.
  induction 1 as [|[name [size|entries']] entries Hx _ IH]; simpl; auto.
Qed.

(** The [for] loop over the listing of a directory of the tree: the
    subdirectories are pushed, the files are queued. *)
Lemma forEntries_tree (w : World Uri) (u : Uri) (entries : list (string * Tree))
  (l : Locals Uri) (requests : list (StatRequest.t Uri)) :
  forEntries token w u (map (fun e => (fst e, listingType (snd e))) entries) l requests
  = ({| totalSize := totalSize l;
        pendingDirectories :=
          rev (map fst (subdirectories u entries)) ++ pendingDirectories l |},
     requests ++ map fileRequest (fileUris u entries)).
Proof.
  revert l requests.
  induction entries as [|[name [size|entries']] entries IH]; intros l requests.
  - simpl. rewrite app_nil_r. now destruct l.
  - cbn [map forEntries fst snd listingType].
    unfold isCancellationRequested. rewrite never_cancelled.
    change (FileType.has FileType.File FileType.Directory) with false.
    change (FileType.has FileType.File FileType.File) with true. cbv iota.
    rewrite IH. unfold fileUris, subdirectories. simpl.
    now rewrite <- app_assoc.
  - cbn [map forEntries fst snd listingType].
    unfold isCancellationRequested. rewrite never_cancelled.
    change (FileType.has FileType.Directory FileType.Directory) with true. cbv iota.
    rewrite IH. unfold fileUris, subdirectories. simpl.
    now rewrite <- app_assoc.
Qed.

Lemma fileUris_length (u : Uri) (entries : list (string * Tree)) :
  (length (fileUris u entries) <= length entries)%nat.
Proof.
  unfold fileUris. apply omap_length.
Qed.

(** The results of the stats of the files of a directory add their sizes, and
    no addition rounds while the total stays within 2^53. *)
Lemma fold_file_results (u : Uri) (entries : list (string * Tree)) (l : Locals Uri)
  (total : Z) :
  Forall (fun e => hosts fs (joinPath u (fst e)) (snd e)) entries ->
  Forall (fun e => naturalSizes (snd e)) entries ->
  totalSize l = ofZ total -> 0 <= total -> total + filesSize entries <= 2 ^ 53 ->
  fold_left (fun l r => StatRequest.onResult r (stat fs (StatRequest.uri r)) l)
    (map fileRequest (fileUris u entries)) l
  = {| totalSize := ofZ (total + filesSize entries);
       pendingDirectories := pendingDirectories l |}.
Proof.
  intros Hall. revert l total.
  induction Hall as [|[name [size|entries']] entries Hx _ IH];
    intros l total Hnatural Hl Htotal Hbound.
  - change (filesSize []) with 0. destruct l. simpl in *. rewrite Hl. do 2 f_equal. lia.
  - apply Forall_cons in Hnatural as [Hsize Hnatural]. simpl in Hsize.
    pose proof (filesSize_nonneg entries Hnatural) as Hrest.
    change (filesSize ((name, RegularFile size) :: entries))
      with (size + filesSize entries) in *.
    change (fold_left
              (fun l r => StatRequest.onResult r (stat fs (StatRequest.uri r)) l)
              (map fileRequest (fileUris u entries))
              (fileResult (stat fs (joinPath u name)) l)
            = {| totalSize := ofZ (total + (size + filesSize entries));
                 pendingDirectories := pendingDirectories l |}).
    simpl in Hx. rewrite Hx.
    change (fileResult (Some _) l) with (addSize (ofZ size) l).
    rewrite (IH _ (total + size)); try assumption; try lia.
    + cbn [addSize pendingDirectories]. do 2 f_equal. lia.
    + cbn [addSize totalSize]. rewrite Hl. apply add_exact. lia.
  - apply Forall_cons in Hnatural as [_ Hnatural]. now apply IH.
Qed.

(** One iteration on a directory of the tree. *)
Lemma iteration_folder (s : LoopState Uri) (u : Uri) (rest : list Uri)
  (entries : list (string * Tree)) (total : Z) :
  pendingDirectories (locals s) = u :: rest ->
  toString u ∉ visitedDirectories s ->
  hosts fs u (Folder entries) ->
  naturalSizes (Folder entries) ->
  totalSize (locals s) = ofZ total -> 0 <= total ->
  total + treeSize (Folder entries) <= 2 ^ 53 ->
  exists entries',
    entries ≡ₚ entries' /\
    pendingDirectories (locals (iteration fs this token s))
      = rev (map fst (subdirectories u entries')) ++ rest /\
    totalSize (locals (iteration fs this token s))
      = ofZ (total + filesSize entries') /\
    visitedDirectories (iteration fs this token s)
      = {[toString u]} ∪ visitedDirectories s.
Proof.
  intros Hp Hv [(listing & Hlist & Hperm) Hentries] Hnatural Hl Htotal Hbound.
  apply Permutation_map_inv in Hperm as (entries' & -> & Hperm).
  exists entries'. split; [exact Hperm|].
  apply hosts_entries in Hentries. rewrite Hperm in Hentries.
  apply naturalSizes_entries in Hnatural. rewrite Hperm in Hnatural.
  rewrite (treeSize_perm _ _ Hperm), (treeSize_split u entries') in Hbound.
  pose proof (workSize_nonneg _ (natural_subdirectories u entries' Hnatural)) as Hwork.
  pose proof (readDirectory_array fs u _ Hlist) as Hlen. rewrite length_map in Hlen.
  pose proof (fileUris_length u entries') as Hfiles.
  unfold iteration. rewrite Hp, Hlist.
  destruct (decide (toString u ∈ visitedDirectories s)); [contradiction|].
  rewrite forEntries_tree.
  match goal with |- context [processStatRequests _ _ _ ?rs (?l1, ?w1)] =>
    pose proof (processStatRequests_never fs this token limit limit_integer limit_pos
                  rs l1 w1) as Hfold;
    destruct (processStatRequests fs this token rs (l1, w1)) as [l2 w2] end.
  cbn [app fst] in Hfold. rewrite length_map in Hfold.
  specialize (Hfold ltac:(lia) never_cancelled).
  rewrite (fold_file_results u entries' _ total Hentries Hnatural) in Hfold
    by (assumption || lia).
  subst l2. simpl. auto.
Qed.

(** Depth-first traversal of the directories on top of the frontier: after
    some number of iterations they are gone from the frontier and the total
    has grown by the sizes of their files. *)
Lemma scan_work (n : nat) :
  forall (work : list (Uri * list (string * Tree))) (s : LoopState Uri) (rest : list Uri)
    (total : Z),
    (length (workKeys work) <= n)%nat ->
    pendingDirectories (locals s) = map fst work ++ rest ->
    Forall (fun d => hosts fs (fst d) (Folder (snd d))) work ->
    Forall (fun d => naturalSizes (Folder (snd d))) work ->
    NoDup (workKeys work) ->
    (forall key, key ∈ workKeys work -> key ∉ visitedDirectories s) ->
    totalSize (locals s) = ofZ total -> 0 <= total ->
    total + workSize work <= 2 ^ 53 ->
    exists m,
      pendingDirectories (locals (iterations fs this token m s)) = rest /\
      totalSize (locals (iterations fs this token m s)) = ofZ (total + workSize work).
Proof.
  induction n as [|n IH];
    intros work s rest total Hlen Hp Hhosts Hnatural Hnodup Hfresh Hl Htotal Hbound.
  - destruct work as [|[u entries] work]; [|simpl in Hlen; lia].
    exists 0%nat. simpl. split; [exact Hp|]. rewrite Hl. f_equal.
    unfold workSize, sumZ; simpl; lia.
  - destruct work as [|[u entries] work].
    { exists 0%nat. simpl. split; [exact Hp|]. rewrite Hl. f_equal.
      unfold workSize, sumZ; simpl; lia. }
    inversion Hhosts as [|d ds Hu Hwork]; subst d ds. simpl in Hu.
    inversion Hnatural as [|d ds Hnu Hnwork]; subst d ds. cbn [snd] in Hnu.
    pose proof (workSize_nonneg work Hnwork) as Hwork_nonneg.
    change (workSize ((u, entries) :: work))
      with (treeSize (Folder entries) + workSize work) in *.
    change (workKeys ((u, entries) :: work))
      with (toString u :: flat_map (fun e => directoryKeys (joinPath u (fst e)) (snd e)) entries
              ++ workKeys work) in *.
    simpl in Hp.
    destruct (iteration_folder s u (map fst work ++ rest) entries total Hp) as
      (entries' & Hperm & Hp1 & Ht1 & Hv1);
      [apply Hfresh; left | exact Hu | exact Hnu | exact Hl | exact Htotal | lia |].
    set (work1 := rev (subdirectories u entries') ++ work).
    assert (workKeys work1
            ≡ₚ flat_map (fun e => directoryKeys (joinPath u (fst e)) (snd e)) entries
                 ++ workKeys work) as Hkeys.
    { unfold work1, workKeys. rewrite flat_map_app.
      rewrite <- (Permutation_rev (subdirectories u entries')).
      fold (workKeys (subdirectories u entries')). rewrite workKeys_subdirectories.
      now rewrite <- Hperm. }
    assert (Forall (fun e => naturalSizes (snd e)) entries') as Hnatural'.
    { rewrite <- Hperm. now apply naturalSizes_entries. }
    assert (workSize work1 = workSize (subdirectories u entries') + workSize work) as Hsize1.
    { unfold work1. now rewrite workSize_app, workSize_rev. }
    pose proof (treeSize_perm _ _ Hperm) as Hsame.
    pose proof (treeSize_split u entries') as Hsplit.
    pose proof (filesSize_nonneg entries' Hnatural') as Hfiles.
    apply NoDup_cons in Hnodup as [Hu_fresh Hnodup].
    destruct (IH work1 (iteration fs this token s) rest (total + filesSize entries'))
      as (m & Hpm & Htm).
    + rewrite Hkeys. simpl in Hlen. lia.
    + rewrite Hp1. unfold work1. now rewrite map_app, map_rev, <- app_assoc.
    + unfold work1. apply Forall_app. split; [|exact Hwork].
      apply Forall_rev, hosts_subdirectories.
      destruct Hu as [_ Hentries]. apply hosts_entries in Hentries.
      now rewrite <- Hperm.
    + unfold work1. apply Forall_app. split; [|exact Hnwork].
      apply Forall_rev, natural_subdirectories. exact Hnatural'.
    + now rewrite Hkeys.
    + intros key Hkey. rewrite Hkeys in Hkey. rewrite Hv1.
      rewrite elem_of_union, elem_of_singleton. intros [-> | Hin].
      * contradiction.
      * apply (Hfresh key); [now right | exact Hin].
    + exact Ht1.
    + lia.
    + lia.
    + exists (S m). cbn [iterations].
      assert (loopCondition token s = true) as ->.
      { unfold loopCondition, isCancellationRequested. rewrite Hp, never_cancelled.
        reflexivity. }
      split; [exact Hpm|]. rewrite Htm. f_equal. lia.
Qed.

(** The scan of a root that holds a tree returns the size of the tree. *)
Lemma scan_tree (folder : WorkspaceFolder.t Uri) (entries : list (string * Tree)) :
  hosts fs (WorkspaceFolder.uri folder) (Folder entries) ->
  NoDup (directoryKeys (WorkspaceFolder.uri folder) (Folder entries)) ->
  naturalSizes (Folder entries) ->
  treeSize (Folder entries) <= 2 ^ 53 ->
  exists fuel0, forall fuel, (fuel0 <= fuel)%nat ->
    calculateFolderSize fs this token fuel folder = Some (ofZ (treeSize (Folder entries))).
Proof.
  intros Hhosts Hnodup Hnatural Hbound.
  set (u := WorkspaceFolder.uri folder) in *.
  assert (workKeys [(u, entries)] = directoryKeys u (Folder entries)) as Hk.
  { unfold workKeys. simpl. now rewrite app_nil_r. }
  assert (workSize [(u, entries)] = treeSize (Folder entries)) as Hsize.
  { change (workSize [(u, entries)]) with (treeSize (Folder entries) + 0). lia. }
  destruct (scan_work (length (workKeys [(u, entries)])) [(u, entries)]
              (initialState folder) [] 0) as (m & Hpm & Htm); auto.
  - rewrite Hk. exact Hnodup.
  - intros key _. apply not_elem_of_empty.
  - lia.
  - lia.
  - exists m. intros fuel Hfuel. unfold calculateFolderSize, scanFolder.
    rewrite (scanLoop_enough fs this token m) by
      (auto; unfold loopCondition; now rewrite Hpm).
    change (Some (totalSize (locals (iterations fs this token m (initialState folder))))
            = Some (ofZ (treeSize (Folder entries)))).
    rewrite Htm, Hsize. reflexivity.
Qed.

End TreeScan.

Lemma calculate_trees {Uri : Type} `{UriOps Uri} (fs : FileSystem Uri)
  (this : WorkspaceSizeCalculator) (limit : Z) (folders : list (WorkspaceFolder.t Uri))
  (trees : list (list (string * Tree))) :
  statConcurrency this = ofZ limit -> 1 <= limit ->
  Forall2 (fun folder entries =>
             hosts fs (WorkspaceFolder.uri folder) (Folder entries) /\
             NoDup (directoryKeys (WorkspaceFolder.uri folder) (Folder entries)) /\
             naturalSizes (Folder entries) /\
             treeSize (Folder entries) <= 2 ^ 53)
          folders trees ->
  exists fuel0, forall fuel, (fuel0 <= fuel)%nat -> forall g : nat -> nat,
    mapM (fun task : nat * WorkspaceFolder.t Uri =>
            size ← calculateFolderSize fs this (fun _ => false) fuel (snd task);
            Some {| FolderSizeResult.folder := snd task; FolderSizeResult.size := size |})
         (imap (fun i folder => (g i, folder)) folders)
    = Some (zip_with (fun folder entries =>
                        {| FolderSizeResult.folder := folder;
                           FolderSizeResult.size := ofZ (treeSize (Folder entries)) |})
                     folders trees).
Proof.
  intros Hlimit Hpos.
  induction 1 as [|folder entries folders trees (Hhosts & Hnodup & Hnatural & Hbound) _ IH].
  - exists 0%nat. reflexivity.
  - destruct (scan_tree fs this (fun _ => false) limit Hlimit Hpos (fun _ => eq_refl)
                folder entries Hhosts Hnodup Hnatural Hbound) as [fuel1 Hfuel1].
    destruct IH as [fuel2 Hfuel2].
    exists (Nat.max fuel1 fuel2). intros fuel Hfuel g.
    cbn [imap mapM zip_with]. simpl fst. simpl snd.
    rewrite Hfuel1 by lia. simpl.
    specialize (Hfuel2 fuel ltac:(lia) (g ∘ S)). unfold compose in *.
    now rewrite Hfuel2.
Qed.

Lemma results_of_trees {Uri : Type} (folders : list (WorkspaceFolder.t Uri))
  (trees : list (list (string * Tree))) :
  length folders = length trees ->
  let results :=
    zip_with (fun folder entries =>
                {| FolderSizeResult.folder := folder;
                   FolderSizeResult.size := ofZ (treeSize (Folder entries)) |})
             folders trees in
  map FolderSizeResult.folder results = folders /\
  map FolderSizeResult.size results
    = map (fun entries => ofZ (treeSize (Folder entries))) trees.
Proof.
  revert trees. induction folders as [|folder folders IH]; intros [|entries trees] Hlen;
    try discriminate; [split; reflexivity|].
  injection Hlen as Hlen. destruct (IH trees Hlen) as [Hf Hs].
  cbn zeta in *. cbn [zip_with map FolderSizeResult.folder FolderSizeResult.size].
  now rewrite Hf, Hs.
Qed.

(** C1, as amended. Let every input folder hold a tree of regular files and
    directories (each directory lists its entries in any order; distinct
    directories have distinct keys), let the sizes of the files be
    non-negative integers whose sum, per folder, is at most 2^53, and let the
    limit be an integer, or not configured. With a token that is never
    cancelled, [calculate] returns, for every fuel from some bound on, one
    result per folder in the order of the input, and the size of each is the
    sum of the sizes of the regular files of its tree. A second file system
    that holds the same trees, with listings in any other order and hence
    another order of visits, gives the same results. *)
Theorem calculate_sums_regular_files {Uri : Type} `{UriOps Uri} (fs fs2 : FileSystem Uri)
  (limit : option Z) (folders : list (WorkspaceFolder.t Uri))
  (trees : list (list (string * Tree))) :
  Forall2 (fun folder entries =>
             hosts fs (WorkspaceFolder.uri folder) (Folder entries) /\
             NoDup (directoryKeys (WorkspaceFolder.uri folder) (Folder entries)))
          folders trees ->
  Forall2 (fun folder entries => hosts fs2 (WorkspaceFolder.uri folder) (Folder entries))
          folders trees ->
  Forall (fun entries => naturalSizes (Folder entries) /\
                         treeSize (Folder entries) <= 2 ^ 53) trees ->
  exists fuel0, forall fuel, (fuel0 <= fuel)%nat ->
    exists results,
      calculate fs (new (integerOptions limit)) fuel folders (fun _ _ => false)
        = Some results /\
      calculate fs2 (new (integerOptions limit)) fuel folders (fun _ _ => false)
        = Some results /\
      map FolderSizeResult.folder results = folders /\
      map FolderSizeResult.size results
        = map (fun entries => ofZ (treeSize (Folder entries))) trees.
Proof.
  intros Hall Hall2 Hsizes.
  assert (Forall2 (fun folder entries =>
             hosts fs (WorkspaceFolder.uri folder) (Folder entries) /\
             NoDup (directoryKeys (WorkspaceFolder.uri folder) (Folder entries)) /\
             naturalSizes (Folder entries) /\
             treeSize (Folder entries) <= 2 ^ 53)
          folders trees /\
          Forall2 (fun folder entries =>
             hosts fs2 (WorkspaceFolder.uri folder) (Folder entries) /\
             NoDup (directoryKeys (WorkspaceFolder.uri folder) (Folder entries)) /\
             naturalSizes (Folder entries) /\
             treeSize (Folder entries) <= 2 ^ 53)
          folders trees) as [Hall1' Hall2'].
  { clear -Hall Hall2 Hsizes.
    induction Hall as [|folder entries folders trees [Hhosts Hnodup] _ IH].
    - split; constructor.
    - inversion Hall2; subst. inversion Hsizes as [|? ? [Hnatural Hbound]]; subst.
      destruct IH as [IH1 IH2]; auto. split; constructor; auto. }
  assert (1 <= Z.max 1 (default 32 limit)) as Hpos by lia.
  destruct (calculate_trees fs (new (integerOptions limit)) _ folders trees
              (new_integer limit) Hpos Hall1') as [fuel1 Hfuel1].
  destruct (calculate_trees fs2 (new (integerOptions limit)) _ folders trees
              (new_integer limit) Hpos Hall2') as [fuel2 Hfuel2].
  exists (Nat.max fuel1 fuel2). intros fuel Hfuel. eexists.
  split; [|split].
  - unfold calculate. apply (Hfuel1 fuel ltac:(lia) (fun i => i)).
  - unfold calculate. apply (Hfuel2 fuel ltac:(lia) (fun i => i)).
  - apply results_of_trees. eapply Forall2_length, Hall.
Qed.

Lemma hosts_twoRoots :
  hosts twoRootsFs "A"%string (Folder treeA) /\
  hosts twoRootsFs "B"%string (Folder treeB) /\
  hosts twoRootsFsReordered "A"%string (Folder treeA) /\
  hosts twoRootsFsReordered "B"%string (Folder treeB).
Proof.
  repeat split; try reflexivity.
  - exists []. split; reflexivity.
  - exists [("f", FileType.File); ("d", FileType.Directory)]%string.
    split; [reflexivity | apply perm_swap].
  - exists [("g", FileType.File)]%string. split; reflexivity.
  - exists []. split; reflexivity.
  - exists [("d", FileType.Directory); ("f", FileType.File)]%string.
    split; reflexivity.
  - exists [("g", FileType.File)]%string. split; reflexivity.
Qed.

Lemma calculate_sums_regular_files_witness :
  exists fuel0, forall fuel, (fuel0 <= fuel)%nat ->
    exists results,
      calculate twoRootsFs (new defaultOptions) fuel
        [workspaceFolder "A" 0; workspaceFolder "B" 1] (fun _ _ => false) = Some results /\
      calculate twoRootsFsReordered (new defaultOptions) fuel
        [workspaceFolder "A" 0; workspaceFolder "B" 1] (fun _ _ => false) = Some results /\
      map FolderSizeResult.folder results = [workspaceFolder "A" 0; workspaceFolder "B" 1] /\
      map FolderSizeResult.size results = [ofZ 0; ofZ 800].
Proof.
  destruct hosts_twoRoots as (HA & HB & HA2 & HB2).
  apply (calculate_sums_regular_files twoRootsFs twoRootsFsReordered None
           [workspaceFolder "A" 0; workspaceFolder "B" 1] [treeA; treeB]).
  - constructor; [split; [exact HA | apply (bool_decide_unpack _); vm_compute; exact I]|].
    constructor; [split; [exact HB | apply (bool_decide_unpack _); vm_compute; exact I]|].
    constructor.
  - constructor; [exact HA2|]. constructor; [exact HB2|]. constructor.
  - constructor; [split; [exact I | vm_compute; discriminate]|].
    constructor; [split; [simpl; lia | vm_compute; discriminate]|].
    constructor.
Defined.

(** C1 as stated fails from 2^53 bytes on: the total is a binary64 number, so
    every addition rounds. A root with files of 2^53 bytes, 1 byte and 1 byte
    gets 2^53 when the large file is listed first and 2^53 + 2, the sum of the
    sizes, when it is listed last. *)
Lemma sum_depends_on_listing_order :
  hosts largeFs "R"%string (Folder largeTree) /\
  hosts largeFsReordered "R"%string (Folder largeTree) /\
  treeSize (Folder largeTree) = 2 ^ 53 + 2 /\
  calculate largeFs (new defaultOptions) 2 [workspaceFolder "R" 0] (fun _ _ => false)
  = Some [{| FolderSizeResult.folder := workspaceFolder "R" 0;
             FolderSizeResult.size := ofZ (2 ^ 53) |}] /\
  calculate largeFsReordered (new defaultOptions) 2 [workspaceFolder "R" 0]
    (fun _ _ => false)
  = Some [{| FolderSizeResult.folder := workspaceFolder "R" 0;
             FolderSizeResult.size := ofZ (2 ^ 53 + 2) |}] /\
  Number.eqb (ofZ (2 ^ 53)) (ofZ (treeSize (Folder largeTree))) = false.
Proof.
  split; [|split; [|split; [|split; [|split]]]].
  - split; [|repeat split; reflexivity].
    exists [("a", FileType.File); ("b", FileType.File); ("c", FileType.File)]%string.
    split; reflexivity.
  - split; [|repeat split; reflexivity].
    exists [("b", FileType.File); ("c", FileType.File); ("a", FileType.File)]%string.
    split; [reflexivity|].
    apply (Permutation_app_comm [("b", FileType.File); ("c", FileType.File)]%string
             [("a", FileType.File)]%string).
  - reflexivity.
  - vm_compute. reflexivity.
  - vm_compute. reflexivity.
  - vm_compute. reflexivity.
Qed.

(** ** Failures of single stats *)

Lemma fold_contributions {Uri : Type} `{UriOps Uri} (fs : FileSystem Uri)
  (us : list Uri) (l : Locals Uri) :
  fold_left (fun l r => StatRequest.onResult r (stat fs (StatRequest.uri r)) l)
    (map fileRequest us) l
  = {| totalSize := fold_left Number.add (omap (contribution fs) us) (totalSize l);
       pendingDirectories := pendingDirectories l |}.
Proof.
  revert l. induction us as [|u us IH]; intros l.
  - now destruct l.
  - change (omap (contribution fs) (u :: us))
      with (match contribution fs u with
            | Some x => x :: omap (contribution fs) us
            | None => omap (contribution fs) us
            end).
    change (fold_left
              (fun l r => StatRequest.onResult r (stat fs (StatRequest.uri r)) l)
              (map fileRequest us) (fileResult (stat fs u) l)
            = {| totalSize :=
                   fold_left Number.add
                     (match contribution fs u with
                      | Some x => x :: omap (contribution fs) us
                      | None => omap (contribution fs) us
                      end) (totalSize l);
                 pendingDirectories := pendingDirectories l |}).
    rewrite IH. unfold fileResult, contribution.
    destruct (stat fs u) as [st|]; [destruct (FileType.has _ _)|]; reflexivity.
Qed.

(** The [for] loop over a listing of entries that are all tagged as files. *)
Lemma forEntries_files {Uri : Type} `{UriOps Uri} (token : nat -> bool) (w : World Uri)
  (u : Uri) (names : list string) (l : Locals Uri) (requests : list (StatRequest.t Uri)) :
  isCancellationRequested token w = false ->
  forEntries token w u (map (fun name => (name, FileType.File)) names) l requests
  = (l, requests ++ map fileRequest (map (joinPath u) names)).
Proof.
  intros Hw. revert requests. induction names as [|name names IH]; intros requests.
  - simpl. now rewrite app_nil_r.
  - cbn [map forEntries]. rewrite Hw.
    change (FileType.has FileType.File FileType.Directory) with false.
    change (FileType.has FileType.File FileType.File) with true. cbv iota.
    rewrite IH, <- app_assoc. reflexivity.
Qed.

Lemma omap_map {A B C : Type} (f : A -> B) (g : B -> option C) (l : list A) :
  omap g (map f l) = omap (fun a => g (f a)) l.
Proof.
  induction l as [|a l IH]; [reflexivity|].
  change (match g (f a) with Some c => c :: omap g (map f l) | None => omap g (map f l) end
          = match g (f a) with
            | Some c => c :: omap (fun a => g (f a)) l
            | None => omap (fun a => g (f a)) l
            end).
  now rewrite IH.
Qed.

(** The scan of a root whose listing holds files only. *)
Lemma scan_flat_folder {Uri : Type} `{UriOps Uri} (fs : FileSystem Uri)
  (this : WorkspaceSizeCalculator) (limit : Z) (folder : WorkspaceFolder.t Uri)
  (names : list string) (fuel : nat) :
  statConcurrency this = ofZ limit -> 1 <= limit ->
  readDirectory fs (WorkspaceFolder.uri folder)
    = Some (map (fun name => (name, FileType.File)) names) ->
  (1 <= fuel)%nat ->
  calculateFolderSize fs this (fun _ => false) fuel folder
  = Some (sumOf (omap (fun name => contribution fs (joinPath (WorkspaceFolder.uri folder) name))
                   names)).
Proof.
  intros Hlimit Hpos Hlist Hfuel. unfold calculateFolderSize, scanFolder.
  destruct fuel as [|fuel]; [lia|].
  cbn [scanLoop]. change (loopCondition (fun _ => false) (initialState folder)) with true.
  cbv iota. unfold iteration. cbn [initialState locals pendingDirectories].
  rewrite Hlist.
  destruct (decide (toString (WorkspaceFolder.uri folder) ∈ visitedDirectories (initialState folder)))
    as [Hin | _]; [now apply not_elem_of_empty in Hin|].
  rewrite forEntries_files by reflexivity.
  pose proof (readDirectory_array fs _ _ Hlist) as Hlen. rewrite length_map in Hlen.
  match goal with |- context [processStatRequests _ _ _ ?rs (?l1, ?w1)] =>
    pose proof (processStatRequests_never fs this (fun _ => false) limit Hlimit Hpos rs l1 w1)
      as Hfold;
    destruct (processStatRequests fs this (fun _ => false) rs (l1, w1)) as [l2 w2] end.
  cbn [fst app] in Hfold. rewrite !length_map in Hfold.
  specialize (Hfold Hlen (fun _ => eq_refl)).
  rewrite fold_contributions in Hfold. subst l2.
  assert (forall (l : Locals Uri) v w,
            pendingDirectories l = [] ->
            scanLoop fs this (fun _ => false) fuel
              {| locals := l; visitedDirectories := v; world := w |}
            = Some {| locals := l; visitedDirectories := v; world := w |}) as Hend.
  { intros l v w Hl. destruct fuel; simpl; unfold loopCondition; simpl; now rewrite Hl. }
  rewrite Hend by reflexivity.
  cbn. f_equal. rewrite omap_map. reflexivity.
Qed.

(** C6. With a token that is never cancelled, every request of a batch is
    handed the result of its own stat, a failed stat being an absent result
    for its own request only; the callback of a file entry leaves the locals
    unchanged on an absent result. So when the stat of one file of a root
    fails, [calculateFolderSize] and [calculate] still return, and the size is
    the sum of what the other files of the listing contribute. *)
Theorem stat_failure_is_local {Uri : Type} `{UriOps Uri} (fs : FileSystem Uri)
  (limit : option Z) (folder : WorkspaceFolder.t Uri)
  (names1 : list string) (name : string) (names2 : list string) (fuel : nat) :
  let this := new (integerOptions limit) in
  let root := WorkspaceFolder.uri folder in
  let others := sumOf (omap (fun n => contribution fs (joinPath root n)) (names1 ++ names2)) in
  readDirectory fs root
    = Some (map (fun n => (n, FileType.File)) (names1 ++ name :: names2)) ->
  stat fs (joinPath root name) = None ->
  (1 <= fuel)%nat ->
  (forall requests l w,
      Z.of_nat (length requests) < 2 ^ 32 ->
      fst (processStatRequests fs this (fun _ => false) requests (l, w))
      = fold_left (fun l r => StatRequest.onResult r (stat fs (StatRequest.uri r)) l)
          requests l) /\
  (forall l : Locals Uri, fileResult (stat fs (joinPath root name)) l = l) /\
  calculateFolderSize fs this (fun _ => false) fuel folder = Some others /\
  calculate fs this fuel [folder] (fun _ _ => false)
  = Some [{| FolderSizeResult.folder := folder; FolderSizeResult.size := others |}].
Proof.
  intros this root others Hlist Hfail Hfuel.
  assert (1 <= Z.max 1 (default 32 limit)) as Hpos by lia.
  assert (calculateFolderSize fs this (fun _ => false) fuel folder = Some others) as Hsize.
  { rewrite (scan_flat_folder fs this _ folder _ fuel (new_integer limit) Hpos Hlist Hfuel).
    f_equal. unfold others. rewrite !omap_app.
    change (omap (fun n => contribution fs (joinPath (WorkspaceFolder.uri folder) n))
              (name :: names2))
      with (match contribution fs (joinPath root name) with
            | Some x => x :: omap (fun n => contribution fs (joinPath root n)) names2
            | None => omap (fun n => contribution fs (joinPath root n)) names2
            end).
    unfold contribution at 2. now rewrite Hfail. }
  split; [|split; [|split]].
  - intros requests l w Hlen.
    now apply (processStatRequests_never fs this (fun _ => false) _ (new_integer limit) Hpos).
  - intros l. now rewrite Hfail.
  - exact Hsize.
  - unfold calculate. simpl. rewrite Hsize. reflexivity.
Qed.

Lemma stat_failure_is_local_witness :
  stat vanishedFs "R/gone"%string = None /\
  calculateFolderSize vanishedFs (new defaultOptions) (fun _ => false) 1
    (workspaceFolder "R" 0) = Some (ofZ 30) /\
  calculate vanishedFs (new defaultOptions) 1 [workspaceFolder "R" 0] (fun _ _ => false)
  = Some [{| FolderSizeResult.folder := workspaceFolder "R" 0;
             FolderSizeResult.size := ofZ 30 |}].
Proof.
  split; [reflexivity|].
  pose proof (stat_failure_is_local vanishedFs None (workspaceFolder "R" 0)
                ["a"%string] "gone"%string ["b"%string] 1 eq_refl eq_refl (le_n 1))
    as (_ & _ & Hsize & Hcalc).
  split; [exact Hsize | exact Hcalc].
Defined.

(** ** Classification of entries *)

Lemma fileRequest_wellBehaved {Uri : Type} (u : Uri) : wellBehaved (fileRequest u).
Proof.
  intros [st|] l v Hv; simpl; unfold fileResult; auto.
  now destruct (FileType.has _ _).
Qed.

Lemma unknownRequest_wellBehaved {Uri : Type} (u : Uri) : wellBehaved (unknownRequest u).
Proof.
  intros [st|] l v Hv; simpl; unfold unknownResult; auto.
  repeat destruct (FileType.has _ _); auto. simpl. now right.
Qed.

Section Classification.
Context {Uri : Type} `{UriOps Uri}.
Variable this : WorkspaceSizeCalculator.
Variable token : nat -> bool.

Lemma forEntries_wellBehaved (w : World Uri) (cur : Uri) (entries : list (string * Z))
  (l : Locals Uri) (requests : list (StatRequest.t Uri)) :
  Forall wellBehaved requests ->
  Forall wellBehaved (snd (forEntries token w cur entries l requests)).
Proof.
  revert l requests. induction entries as [|[name type] entries IH]; intros l requests Hall.
  - exact Hall.
  - cbn [forEntries].
    destruct (isCancellationRequested token w); [exact Hall|].
    repeat destruct (FileType.has type _); apply IH; auto;
      apply Forall_app; split; auto; constructor; auto;
      [apply (fileRequest_wellBehaved (joinPath cur name))
      |apply (unknownRequest_wellBehaved (joinPath cur name))].
Qed.

Lemma forEntries_grows (w : World Uri) (cur : Uri) (entries : list (string * Z))
  (l : Locals Uri) (requests : list (StatRequest.t Uri)) (u : Uri) :
  u ∈ pendingDirectories l ->
  u ∈ pendingDirectories (fst (forEntries token w cur entries l requests)).
Proof.
  revert l requests. induction entries as [|[name type] entries IH]; intros l requests Hu.
  - exact Hu.
  - cbn [forEntries].
    destruct (isCancellationRequested token w); [exact Hu|].
    repeat destruct (FileType.has type _); apply IH; auto. simpl. now right.
Qed.

(** An entry with the Directory bit is pushed, whatever its other bits. *)
Lemma forEntries_pushes (w : World Uri) (cur : Uri) (before after : list (string * Z))
  (name : string) (type : Z) (l : Locals Uri) (requests : list (StatRequest.t Uri)) :
  isCancellationRequested token w = false ->
  FileType.has type FileType.Directory = true ->
  joinPath cur name
  ∈ pendingDirectories
      (fst (forEntries token w cur (before ++ (name, type) :: after) l requests)).
Proof.
  intros Hw Hdir. rewrite forEntries_app. cbn [forEntries]. rewrite Hw, Hdir.
  apply forEntries_grows. simpl. now left.
Qed.

Variable fs : FileSystem Uri.

(** A discovered directory stays discovered. *)
Lemma iteration_discovered (s : LoopState Uri) (u : Uri) :
  discovered u s -> discovered u (iteration fs this token s).
Proof.
  intros Hu. unfold discovered in *.
  destruct (pendingDirectories (locals s)) as [|cur rest] eqn:Hp.
  { unfold iteration. rewrite Hp. cbv iota. rewrite ?Hp. exact Hu. }
  destruct (decide (toString cur ∈ visitedDirectories s)) as [Hin | Hout].
  { unfold iteration. rewrite Hp.
    destruct (decide (toString cur ∈ visitedDirectories s)); [|contradiction].
    simpl. destruct Hu as [Hu | Hu]; [|now right].
    apply elem_of_cons in Hu as [-> | Hu]; [now right | now left]. }
  destruct (readDirectory fs cur) as [entries|] eqn:Hlist.
  2: { rewrite (iteration_listing_fails fs this token s cur rest) by assumption.
       simpl. rewrite elem_of_union, elem_of_singleton.
       destruct Hu as [Hu | Hu]; [|now right; right].
       apply elem_of_cons in Hu as [-> | Hu]; [right; now left | now left]. }
  rewrite (iteration_listing fs this token s cur rest entries) by assumption. simpl.
  rewrite elem_of_union, elem_of_singleton.
  destruct Hu as [Hu | Hu]; [|now right; right].
  apply elem_of_cons in Hu as [-> | Hu]; [right; now left | left].
  apply (processStatRequests_preserves fs this token (fun l => u ∈ pendingDirectories l)).
  - eapply Forall_impl; [apply forEntries_wellBehaved; constructor|].
    intros r Hgrow st l. apply Hgrow.
  - now apply forEntries_grows.
Qed.

Lemma iterations_discovered (n : nat) (s : LoopState Uri) (u : Uri) :
  discovered u s -> discovered u (iterations fs this token n s).
Proof.
  revert s. induction n as [|n IH]; intros s Hu; simpl; [exact Hu|].
  destruct (loopCondition token s); [|exact Hu].
  apply IH, iteration_discovered, Hu.
Qed.

Lemma iterations_stable (n : nat) (s : LoopState Uri) :
  loopCondition token s = false -> iterations fs this token n s = s.
Proof.
  intros Hc. destruct n; simpl; now rewrite ?Hc.
Qed.


(** What is discovered while the loop runs has been listed when the loop
    ends, with a token that is never cancelled. *)
Lemma discovered_is_listed (folder : WorkspaceFolder.t Uri) (n m : nat) (u : Uri) :
  (forall k, token k = false) ->
  let s := iterations fs this token n (initialState folder) in
  let final := iterations fs this token m (initialState folder) in
  loopCondition token s = true ->
  discovered u (iteration fs this token s) ->
  loopCondition token final = false ->
  toString u ∈ listedKeys final.
Proof.
  intros Hnever s final Hcond Hu Hend.
  assert (discovered u final) as [Hpending | Hvisited].
  { destruct (decide (n < m)%nat) as [Hlt | Hge].
    - unfold final. replace m with ((n + 1) + (m - (n + 1)))%nat by lia.
      rewrite iterations_add, iterations_add. fold s.
      simpl. rewrite Hcond. now apply iterations_discovered.
    - exfalso. assert (s = final) as Hs.
      { unfold s. replace n with (m + (n - m))%nat by lia.
        rewrite iterations_add. now apply iterations_stable. }
      rewrite Hs in Hcond. congruence. }
  - exfalso. unfold loopCondition, isCancellationRequested in Hend.
    rewrite Hnever, andb_true_r in Hend.
    destruct (pendingDirectories (locals final)); [|discriminate].
    now apply elem_of_nil in Hpending.
  - assert (listedOnce final) as [_ Hkeys].
    { apply iterations_listedOnce, initialState_listedOnce. }
    now apply Hkeys.
Qed.

End Classification.

Section EntryEffects.
Context {Uri : Type} `{UriOps Uri}.
Variable this : WorkspaceSizeCalculator.
Variable token : nat -> bool.
Variables fs fs' : FileSystem Uri.
Hypothesis same_stat : forall u, stat fs' u = stat fs u.






Section OneEntry.
Variable s : LoopState Uri.
Variables (cur : Uri) (rest : list Uri).
Variables (before after : list (string * Z)) (name : string) (type : Z).
Hypothesis never_cancelled : forall n, token n = false.
Hypothesis on_top : pendingDirectories (locals s) = cur :: rest.
Hypothesis unvisited : toString cur ∉ visitedDirectories s.
Hypothesis listing : readDirectory fs cur = Some (before ++ (name, type) :: after).
Hypothesis listing' : readDirectory fs' cur = Some (before ++ after).


End OneEntry.
End EntryEffects.

(** What an iteration does with one entry of the listing, with an integer as
    the limit and a token that is never cancelled. *)
Section EntryOfListing.
Context {Uri : Type} `{UriOps Uri}.
Variable fs : FileSystem Uri.
Variable this : WorkspaceSizeCalculator.
Variable limit : Z.
Hypothesis limit_integer : statConcurrency this = ofZ limit.
Hypothesis limit_pos : 1 <= limit.
Variable s : LoopState Uri.
Variables (cur : Uri) (rest : list Uri).
Variables (before after : list (string * Z)) (name : string) (type : Z).
Hypothesis on_top : pendingDirectories (locals s) = cur :: rest.
Hypothesis unvisited : toString cur ∉ visitedDirectories s.
Hypothesis listing : readDirectory fs cur = Some (before ++ (name, type) :: after).

(** The total after the iteration: the sizes of the entries are added one
    after the other, in the order of the listing. *)
Lemma iteration_entry_total :
  totalSize (locals (iteration fs this (fun _ => false) s))
  = fold_left Number.add
      (omap (added fs cur) before
         ++ match added fs cur (name, type) with Some size => [size] | None => [] end
         ++ omap (added fs cur) after)
      (totalSize (locals s)).
Proof.
  rewrite (iteration_total fs this (fun _ => false) limit limit_integer limit_pos
             (fun _ => eq_refl) s cur rest on_top unvisited).
  unfold additions. rewrite listing, omap_app.
  change (omap (added fs cur) ((name, type) :: after))
    with (match added fs cur (name, type) with
          | Some size => size :: omap (added fs cur) after
          | None => omap (added fs cur) after
          end).
  now destruct (added fs cur (name, type)).
Qed.

(** The stat of an entry that queues a request is issued. *)
Lemma iteration_entry_stat (r : StatRequest.t Uri) :
  entryRequest cur (name, type) = Some r ->
  In (StatIssued (StatRequest.uri r))
     (trace (world (iteration fs this (fun _ => false) s))).
Proof.
  intros Hr.
  rewrite (iteration_listing fs this (fun _ => false) s cur rest _ on_top unvisited listing).
  cbn [world]. rewrite forEntries_uncancelled by reflexivity. cbn [fst snd app].
  set (requests := omap (entryRequest cur) (before ++ (name, type) :: after)).
  assert (Z.of_nat (length requests) < 2 ^ 32) as Hlen.
  { pose proof (readDirectory_array fs cur _ listing).
    pose proof (omap_length (entryRequest cur) (before ++ (name, type) :: after)).
    unfold requests. lia. }
  match goal with |- context [processStatRequests _ _ _ _ (?l, ?w)] =>
    destruct (processStatRequests_chunks fs this (fun _ => false) limit limit_integer
                limit_pos requests l w Hlen) as (chunks & -> & _ & _ & Hfull) end.
  assert (In r (concat chunks)) as Hin.
  { rewrite (Hfull (fun _ => eq_refl)). unfold requests. rewrite omap_app.
    apply in_or_app. right.
    change (omap (entryRequest cur) ((name, type) :: after))
      with (match entryRequest cur (name, type) with
            | Some r => r :: omap (entryRequest cur) after
            | None => omap (entryRequest cur) after
            end).
    rewrite Hr. now left. }
  apply in_concat in Hin as (chunk & Hchunk & Hin).
  apply in_or_app. right. apply in_flat_map. exists chunk. split; [exact Hchunk|].
  unfold chunkEvents. apply in_or_app. left. now apply in_map, in_map.
Qed.

End EntryOfListing.



(** ** Symbolic links *)

Lemma string_length_append (a b : string) :
  String.length (a +:+ b) = (String.length a + String.length b)%nat.
Proof. induction a as [|c a IH]; [reflexivity | simpl; now rewrite IH]. Qed.

(** In [loopFs] the frontier always holds one directory that is longer than
    every visited key, so the loop never ends. *)
Lemma loopFs_never_ends (this : WorkspaceSizeCalculator) (fuel : nat) :
  forall s : LoopState string,
    (exists u, pendingDirectories (locals s) = [u] /\
               forall key, key ∈ visitedDirectories s ->
                           (String.length key < String.length u)%nat) ->
    scanLoop loopFs this (fun _ => false) fuel s = None.
Proof.
  induction fuel as [|fuel IH]; intros s (u & Hp & Hshort).
  - simpl. unfold loopCondition. now rewrite Hp.
  - simpl. unfold loopCondition at 1. rewrite Hp. simpl negb. cbv iota.
    assert (toString u ∉ visitedDirectories s) as Hunvisited.
    { intros Hin. apply Hshort in Hin. simpl in Hin. lia. }
    apply IH.
    rewrite (iteration_listing loopFs this (fun _ => false) s u [] _ Hp Hunvisited eq_refl).
    exists (joinPath u "loop"). split; [reflexivity|].
    intros key Hkey. simpl in Hkey. simpl joinPath. rewrite !string_length_append.
    apply elem_of_union in Hkey as [Hkey | Hkey].
    + apply elem_of_singleton in Hkey. subst key. simpl. lia.
    + apply Hshort in Hkey. lia.
Qed.

(** C2 (what the code does). In [linkFs] the only regular file under the root
    [W] is [real/f], of 5 bytes; [link] is a symbolic link to the directory
    [real] and [alias] a symbolic link to a file of 7 bytes. The scan follows
    both links and returns 17: [real/f] is counted twice. In [loopFs], where a
    directory holds a symbolic link to itself, the scan of the root ends for
    no amount of fuel. *)
Theorem symbolic_links_are_followed :
  calculateFolderSize linkFs (new defaultOptions) (fun _ => false) 10 (workspaceFolder "W" 0)
    = Some (ofZ 17) /\
  forall fuel : nat,
    calculateFolderSize loopFs (new defaultOptions) (fun _ => false) fuel
      (workspaceFolder "W" 0) = None.
Proof.
  split; [vm_compute; reflexivity|].
  intros fuel. unfold calculateFolderSize, scanFolder.
  rewrite loopFs_never_ends; [reflexivity|].
  exists "W"%string. split; [reflexivity|].
  intros key Hkey. now apply elem_of_empty in Hkey.
Qed.

(** ** The scenarios of the specification, evaluated *)

Example scenario_two_roots :
  calculate twoRootsFs (new defaultOptions) 5
    [workspaceFolder "A" 0; workspaceFolder "B" 1] (fun _ _ => false)
  = Some [{| FolderSizeResult.folder := workspaceFolder "A" 0; FolderSizeResult.size := ofZ 0 |};
          {| FolderSizeResult.folder := workspaceFolder "B" 1; FolderSizeResult.size := ofZ 800 |}].
Proof. vm_compute. reflexivity. Qed.

Example scenario_unknown_entry :
  calculateFolderSize unknownFs (new defaultOptions) (fun _ => false) 5 (workspaceFolder "U" 0)
  = Some (ofZ 42).
Proof. vm_compute. reflexivity. Qed.

Example scenario_stat_fails :
  calculateFolderSize vanishedFs (new defaultOptions) (fun _ => false) 5 (workspaceFolder "R" 0)
  = Some (ofZ 30).
Proof. vm_compute. reflexivity. Qed.

(** The trace of a batch of three stats under a limit of two. *)
Example scenario_chunks :
  trace (snd (processStatRequests vanishedFs
                (new (integerOptions (Some 2)))
                (fun _ => false) (map fileRequest ["R/a"; "R/gone"; "R/b"]%string)
                ({| totalSize := ofZ 0; pendingDirectories := [] |},
                 {| clock := 0; trace := [] |})))
  = [StatIssued "R/a"; StatIssued "R/gone"; StatSettled "R/a"; StatSettled "R/gone";
     StatIssued "R/b"; StatSettled "R/b"]%string.
Proof. vm_compute. reflexivity. Qed.

(** A directory discovered twice is listed once and counted once. *)
Example scenario_discovered_twice :
  (fun s => (totalSize (locals s), listed (trace (world s))))
    <$> scanFolder twiceFs (new defaultOptions) (fun _ => false) 5 (workspaceFolder "D" 0)
  = Some (ofZ 10, ["D"; "D/s"]%string).
Proof. vm_compute. reflexivity. Qed.

(** ** Further properties of the calculator *)

Section LimitIndependence.
Context {Uri : Type} `{UriOps Uri}.
Variable fs : FileSystem Uri.
Variables this1 this2 : WorkspaceSizeCalculator.
Variable token : nat -> bool.
Variables limit1 limit2 : Z.
Hypothesis limit1_integer : statConcurrency this1 = ofZ limit1.
Hypothesis limit2_integer : statConcurrency this2 = ofZ limit2.
Hypothesis limit1_pos : 1 <= limit1.
Hypothesis limit2_pos : 1 <= limit2.
Hypothesis never_cancelled : forall n, token n = false.

Lemma forEntries_any_world (w1 w2 : World Uri) (cur : Uri) (entries : list (string * Z))
  (l : Locals Uri) (requests : list (StatRequest.t Uri)) :
  forEntries token w1 cur entries l requests = forEntries token w2 cur entries l requests.
Proof.
  revert l requests. induction entries as [|[name type] entries IH]; intros l requests.
  - reflexivity.
  - cbn [forEntries]. unfold isCancellationRequested. rewrite !never_cancelled.
    repeat destruct (FileType.has type _); apply IH.
Qed.

(** Without cancellation an iteration computes the same locals and the same
    visited set under any two integer limits and in any two worlds. *)
Lemma iteration_any_limit (s1 s2 : LoopState Uri) :
  locals s1 = locals s2 ->
  visitedDirectories s1 = visitedDirectories s2 ->
  locals (iteration fs this1 token s1) = locals (iteration fs this2 token s2) /\
  visitedDirectories (iteration fs this1 token s1)
  = visitedDirectories (iteration fs this2 token s2).
Proof.
  intros Hl Hv. unfold iteration. rewrite <- Hl, <- Hv.
  destruct (pendingDirectories (locals s1)) as [|cur rest]; [auto|].
  destruct (decide (toString cur ∈ visitedDirectories s1)); [auto|].
  destruct (readDirectory fs cur) as [entries|] eqn:Hlist; [|auto].
  rewrite (forEntries_any_world (awaitReadDirectory cur (world s2))
             (awaitReadDirectory cur (world s1))).
  pose proof (forEntries_length token (awaitReadDirectory cur (world s1)) cur entries
                {| totalSize := totalSize (locals s1); pendingDirectories := rest |} [])
    as Hlen.
  pose proof (readDirectory_array fs cur entries Hlist) as Harray.
  destruct (forEntries token _ cur entries _ []) as [l1 requests].
  cbn [snd length] in Hlen.
  pose proof (processStatRequests_never fs this1 token limit1 limit1_integer limit1_pos
                requests l1 (awaitReadDirectory cur (world s1)) ltac:(lia) never_cancelled)
    as H1.
  pose proof (processStatRequests_never fs this2 token limit2 limit2_integer limit2_pos
                requests l1 (awaitReadDirectory cur (world s2)) ltac:(lia) never_cancelled)
    as H2.
  destruct (processStatRequests fs this1 token requests _) as [l2 w2].
  destruct (processStatRequests fs this2 token requests _) as [l2' w2'].
  simpl in *. split; [congruence | reflexivity].
Qed.

Lemma scanLoop_any_limit (fuel : nat) (s1 s2 : LoopState Uri) :
  locals s1 = locals s2 ->
  visitedDirectories s1 = visitedDirectories s2 ->
  (fun s => totalSize (locals s)) <$> scanLoop fs this1 token fuel s1
  = (fun s => totalSize (locals s)) <$> scanLoop fs this2 token fuel s2.
Proof.
  revert s1 s2. induction fuel as [|fuel IH]; intros s1 s2 Hl Hv.
  - simpl. unfold loopCondition, isCancellationRequested.
    rewrite !never_cancelled, Hl.
    destruct (negb _ && negb false); [reflexivity | simpl; now rewrite Hl].
  - simpl. unfold loopCondition, isCancellationRequested.
    rewrite !never_cancelled, Hl.
    destruct (negb _ && negb false); [|simpl; now rewrite Hl].
    destruct (iteration_any_limit s1 s2 Hl Hv). now apply IH.
Qed.

End LimitIndependence.

(** An integer limit is a matter of scheduling only: without cancellation two
    calculators configured with any two integers, or with none, compute the
    same size for every folder, and the same result list. *)
Theorem sizes_do_not_depend_on_the_limit {Uri : Type} `{UriOps Uri} (fs : FileSystem Uri)
  (limit1 limit2 : option Z) (fuel : nat) :
  let this1 := new (integerOptions limit1) in
  let this2 := new (integerOptions limit2) in
  (forall folder : WorkspaceFolder.t Uri,
      calculateFolderSize fs this1 (fun _ => false) fuel folder
      = calculateFolderSize fs this2 (fun _ => false) fuel folder) /\
  (forall folders : list (WorkspaceFolder.t Uri),
      calculate fs this1 fuel folders (fun _ _ => false)
      = calculate fs this2 fuel folders (fun _ _ => false)).
Proof.
  intros this1 this2.
  assert (forall folder : WorkspaceFolder.t Uri,
            calculateFolderSize fs this1 (fun _ => false) fuel folder
            = calculateFolderSize fs this2 (fun _ => false) fuel folder) as Hsame.
  { intros folder. unfold calculateFolderSize, scanFolder.
    pose proof (scanLoop_any_limit fs this1 this2 (fun _ => false) _ _
                  (new_integer limit1) (new_integer limit2)
                  ltac:(lia) ltac:(lia) (fun _ => eq_refl)
                  fuel (initialState folder) (initialState folder) eq_refl eq_refl) as Hloop.
    destruct (scanLoop fs this1 _ fuel _), (scanLoop fs this2 _ fuel _);
      simpl in *; congruence. }
  split; [exact Hsame|].
  intros folders. unfold calculate. generalize (@pair nat (WorkspaceFolder.t Uri)).
  induction folders as [|folder folders IH]; intros g; [reflexivity|].
  cbn [imap mapM]. simpl fst. simpl snd. rewrite Hsame.
  destruct (calculateFolderSize _ _ _ _ _); [|reflexivity].
  simpl. now rewrite IH.
Qed.

Lemma settles_app {Uri : Type} (limit : Z) (a b : list (Event Uri)) :
  settles limit a -> settles limit b -> settles limit (a ++ b).
Proof.
  intros [Ha Hpa] [Hb Hpb]. split.
  - rewrite outstanding_app. lia.
  - intros i. rewrite take_app, outstanding_app.
    destruct (decide (i <= length a)%nat) as [Hi | Hi].
    + replace (i - length a)%nat with 0%nat by lia. rewrite take_0. simpl.
      specialize (Hpa i). lia.
    + rewrite (take_ge a) by lia. specialize (Hpb (i - length a)%nat). lia.
Qed.

Lemma settles_chunks {Uri : Type} (limit : Z) (chunks : list (list (StatRequest.t Uri))) :
  0 <= limit ->
  Forall (fun chunk => (0 < length chunk)%nat /\ Z.of_nat (length chunk) <= limit) chunks ->
  settles limit (flat_map chunkEvents chunks).
Proof.
  intros Hlimit Hall. split; [|now apply outstanding_chunks].
  induction Hall as [|chunk chunks _ _ IH]; [reflexivity|].
  cbn [flat_map]. rewrite outstanding_app, IH.
  destruct (outstanding_chunk chunk 0) as [_ ->]. reflexivity.
Qed.

Lemma settles_read {Uri : Type} (limit : Z) (u : Uri) :
  0 <= limit -> settles limit [ReadDirectory u].
Proof.
  intros Hlimit. split; [reflexivity|]. intros [|i]; simpl; [lia|].
  rewrite take_nil. simpl. lia.
Qed.

Section WholeScan.
Context {Uri : Type} `{UriOps Uri}.
Variable fs : FileSystem Uri.
Variable this : WorkspaceSizeCalculator.
Variable token : nat -> bool.
Variable limit : Z.
Hypothesis limit_integer : statConcurrency this = ofZ limit.
Hypothesis limit_pos : 1 <= limit.

Lemma processStatRequests_settles (requests : list (StatRequest.t Uri))
  (l : Locals Uri) (w : World Uri) :
  Z.of_nat (length requests) < 2 ^ 32 ->
  settles limit (trace w) ->
  settles limit (trace (snd (processStatRequests fs this token requests (l, w)))).
Proof.
  intros Hlen Hw.
  destruct (processStatRequests_chunks fs this token limit limit_integer limit_pos
              requests l w Hlen) as (chunks & -> & Hall & _).
  apply settles_app; [exact Hw|]. apply settles_chunks; [lia | exact Hall].
Qed.

Lemma iteration_settles (s : LoopState Uri) :
  settles limit (trace (world s)) ->
  settles limit (trace (world (iteration fs this token s))).
Proof.
  intros Hs. unfold iteration.
  destruct (pendingDirectories (locals s)) as [|cur rest]; [exact Hs|].
  destruct (decide (toString cur ∈ visitedDirectories s)); [exact Hs|].
  assert (settles limit (trace (awaitReadDirectory cur (world s)))) as Hread.
  { apply settles_app; [exact Hs | apply settles_read; lia]. }
  destruct (readDirectory fs cur) as [entries|] eqn:Hlist; [|exact Hread].
  pose proof (forEntries_length token (awaitReadDirectory cur (world s)) cur entries
                {| totalSize := totalSize (locals s); pendingDirectories := rest |} [])
    as Hlen.
  pose proof (readDirectory_array fs cur entries Hlist) as Harray.
  destruct (forEntries _ _ _ _ _ _) as [l1 requests]. cbn [snd length] in Hlen.
  pose proof (processStatRequests_settles requests l1 _ ltac:(lia) Hread) as Hdone.
  destruct (processStatRequests fs this token requests _) as [l2 w2]. exact Hdone.
Qed.

Lemma iterations_settles (n : nat) (s : LoopState Uri) :
  settles limit (trace (world s)) ->
  settles limit (trace (world (iterations fs this token n s))).
Proof.
  revert s. induction n as [|n IH]; intros s Hs; simpl; [exact Hs|].
  destruct (loopCondition token s); [|exact Hs]. apply IH, iteration_settles, Hs.
Qed.

End WholeScan.

(** With an integer limit, or none configured, the bound on concurrent stats
    holds for the whole scan of a root, whatever the file system and the
    token: at every point of the trace between 0 and max(1, limit) stats are
    outstanding, and after every iteration of the loop none is, so the scan
    never ends or lists the next directory with a stat still pending. *)
Theorem scan_keeps_the_limit {Uri : Type} `{UriOps Uri} (fs : FileSystem Uri)
  (limit : option Z) (token : nat -> bool)
  (folder : WorkspaceFolder.t Uri) (n i : nat) :
  let this := new (integerOptions limit) in
  let events := trace (world (iterations fs this token n (initialState folder))) in
  statConcurrency this = ofZ (Z.max 1 (default 32 limit)) /\
  0 <= outstanding (take i events) <= Z.max 1 (default 32 limit) /\
  outstanding events = 0.
Proof.
  intros this events. split; [apply new_integer|].
  assert (settles (Z.max 1 (default 32 limit)) events) as [Hend Hbound].
  { apply (iterations_settles fs this token _ (new_integer limit)); [lia|].
    split; [reflexivity|]. intros j. simpl. rewrite take_nil. simpl. lia. }
  split; [apply Hbound | exact Hend].
Qed.

Section Cancellation.
Context {Uri : Type} `{UriOps Uri}.
Variable fs : FileSystem Uri.
Variable this : WorkspaceSizeCalculator.
Variable token : nat -> bool.
Variable deadline : nat.
Hypothesis cancelled_from : forall n, (deadline <= n)%nat -> token n = true.

Lemma live_before_deadline (w : World Uri) :
  isCancellationRequested token w = false -> (clock w < deadline)%nat.
Proof.
  unfold isCancellationRequested. intros Hw.
  destruct (decide (clock w < deadline)%nat) as [Hlt | Hge]; [exact Hlt|].
  rewrite cancelled_from in Hw by lia. discriminate.
Qed.

Lemma statLoop_clock (requests : list (StatRequest.t Uri)) (fuel : nat) (index : number)
  (l : Locals Uri) (w : World Uri) :
  (clock w <= deadline)%nat ->
  (clock w <= clock (snd (statLoop fs this token fuel requests index (l, w))) <= deadline)%nat.
Proof.
  revert index l w. induction fuel as [|fuel IH]; intros index l w Hw; [simpl; lia|].
  cbn [statLoop].
  destruct (ltb index (ofNat (length requests))); [|simpl; lia].
  destruct (isCancellationRequested token w) eqn:Hlive; [simpl; lia|].
  apply live_before_deadline in Hlive. cbn [negb andb].
  destruct (isCancellationRequested token (awaitChunk fs token _ w)); [simpl; lia|].
  match goal with |- context [statLoop _ _ _ _ _ ?i (?l', ?w')] =>
    specialize (IH i l' w') end.
  simpl in IH. simpl. lia.
Qed.

Lemma processStatRequests_clock (requests : list (StatRequest.t Uri))
  (l : Locals Uri) (w : World Uri) :
  (clock w <= deadline)%nat ->
  (clock w <= clock (snd (processStatRequests fs this token requests (l, w))) <= deadline)%nat.
Proof.
  intros Hw. unfold processStatRequests.
  destruct (_ || _); [simpl; lia | now apply statLoop_clock].
Qed.

(** An iteration entered before the deadline pops a visited directory without
    passing a suspension point, or passes at least one; the clock never
    exceeds the deadline. *)
Lemma iteration_clock (s : LoopState Uri) :
  loopCondition token s = true ->
  (clock (world (iteration fs this token s)) <= deadline)%nat /\
  ((clock (world s) < clock (world (iteration fs this token s)))%nat \/
   (clock (world (iteration fs this token s)) = clock (world s) /\
    length (pendingDirectories (locals (iteration fs this token s)))
    < length (pendingDirectories (locals s)))%nat).
Proof.
  unfold loopCondition. intros Hc. apply andb_true_iff in Hc as [Hp Hlive].
  apply negb_true_iff, live_before_deadline in Hlive.
  unfold iteration.
  destruct (pendingDirectories (locals s)) as [|cur rest]; [discriminate|].
  destruct (decide (toString cur ∈ visitedDirectories s)).
  { simpl. split; [lia | right; lia]. }
  destruct (readDirectory fs cur) as [entries|]; [|simpl; split; [lia | left; lia]].
  destruct (forEntries _ _ _ _ _ _) as [l1 requests].
  pose proof (processStatRequests_clock requests l1 (awaitReadDirectory cur (world s))) as Hclock.
  destruct (processStatRequests fs this token requests _) as [l2 w2].
  simpl in *. split; [lia | left; lia].
Qed.

(** Once the token is cancelled for good the loop ends. *)
Lemma cancelled_loop_ends (budget : nat) :
  forall (pending : nat) (s : LoopState Uri),
    (clock (world s) <= deadline)%nat ->
    (deadline - clock (world s) <= budget)%nat ->
    (length (pendingDirectories (locals s)) <= pending)%nat ->
    exists n, loopCondition token (iterations fs this token n s) = false /\
              (clock (world (iterations fs this token n s)) <= deadline)%nat.
Proof.
  induction budget as [|budget IHb].
  - intros pending s Hle Hb _. exists 0%nat. simpl. split; [|exact Hle].
    unfold loopCondition, isCancellationRequested.
    rewrite cancelled_from by lia. apply andb_false_r.
  - induction pending as [|pending IHp]; intros s Hle Hb Hp.
    + exists 0%nat. simpl. split; [|exact Hle]. unfold loopCondition.
      destruct (pendingDirectories (locals s)); [reflexivity | simpl in Hp; lia].
    + destruct (loopCondition token s) eqn:Hc; [|exists 0%nat; simpl; auto].
      destruct (iteration_clock s Hc) as [Hle' [Hadv | [Hsame Hshort]]].
      * destruct (IHb (length (pendingDirectories (locals (iteration fs this token s))))
                    (iteration fs this token s)) as (n & Hend & Hn); try lia.
        exists (S n). simpl. now rewrite Hc.
      * destruct (IHp (iteration fs this token s)) as (n & Hend & Hn); try lia.
        exists (S n). simpl. now rewrite Hc.
Qed.

End Cancellation.

(** A cancelled scan always ends, and soon: if the token reads as cancelled
    from its [deadline]-th suspension point on, then on every file system,
    also one on which an uncancelled scan runs forever, the scan of a folder
    returns for all fuel from some bound on, having passed at most [deadline]
    suspension points. *)
Theorem cancelled_scan_ends {Uri : Type} `{UriOps Uri} (fs : FileSystem Uri)
  (options : WorkspaceSizeCalculatorOptions.t) (token : nat -> bool) (deadline : nat)
  (folder : WorkspaceFolder.t Uri) :
  (forall n, (deadline <= n)%nat -> token n = true) ->
  exists fuel0, forall fuel, (fuel0 <= fuel)%nat ->
    exists s, scanFolder fs (new options) token fuel folder = Some s /\
              (clock (world s) <= deadline)%nat.
Proof.
  intros Hcancelled.
  destruct (cancelled_loop_ends fs (new options) token deadline Hcancelled deadline 1
              (initialState folder)) as (n & Hend & Hclock); simpl; try lia.
  exists n. intros fuel Hfuel. eexists. split; [|exact Hclock].
  unfold scanFolder. now apply scanLoop_enough.
Qed.

Lemma cancelled_scan_ends_witness :
  exists fuel0, forall fuel, (fuel0 <= fuel)%nat ->
    exists s, scanFolder loopFs (new defaultOptions) (fun n => 3 <=? n)%nat fuel
                (workspaceFolder "W" 0) = Some s /\
              (clock (world s) <= 3)%nat.
Proof.
  apply (cancelled_scan_ends loopFs defaultOptions (fun n => 3 <=? n)%nat 3
           (workspaceFolder "W" 0)).
  intros n Hn. apply Nat.leb_le. exact Hn.
Defined.

Section Generic.
Context {Uri : Type} `{UriOps Uri}.
Variable fs : FileSystem Uri.
Variable this : WorkspaceSizeCalculator.
Variable token : nat -> bool.

(** What holds of the requests queued before the loop and of both kinds of
    request for every entry holds of all requests the [for] loop returns. *)
Lemma forEntries_requests_Forall (Q : StatRequest.t Uri -> Prop) (w : World Uri) (cur : Uri)
  (entries : list (string * Z)) (l : Locals Uri) (requests : list (StatRequest.t Uri)) :
  Forall Q requests ->
  (forall name type, In (name, type) entries ->
     Q (fileRequest (joinPath cur name)) /\ Q (unknownRequest (joinPath cur name))) ->
  Forall Q (snd (forEntries token w cur entries l requests)).
Proof.
  revert l requests. induction entries as [|[name type] entries IH]; intros l requests Hall HQ.
  - exact Hall.
  - cbn [forEntries]. destruct (isCancellationRequested token w); [exact Hall|].
    destruct (HQ name type (or_introl eq_refl)) as [Hfile Hunknown].
    assert (forall name type, In (name, type) entries ->
              Q (fileRequest (joinPath cur name)) /\ Q (unknownRequest (joinPath cur name)))
      as HQ' by (intros n t Hin; apply (HQ n t); now right).
    repeat destruct (FileType.has type _); apply IH; auto;
      apply Forall_app; split; auto; constructor; auto.
Qed.

(** What every push of an entry preserves, the [for] loop preserves. *)
Lemma forEntries_locals_preserves (R : Locals Uri -> Prop) (w : World Uri) (cur : Uri)
  (entries : list (string * Z)) (l : Locals Uri) (requests : list (StatRequest.t Uri)) :
  R l ->
  (forall name type l, In (name, type) entries -> R l -> R (push (joinPath cur name) l)) ->
  R (fst (forEntries token w cur entries l requests)).
Proof.
  revert l requests. induction entries as [|[name type] entries IH]; intros l requests Hl HR.
  - exact Hl.
  - cbn [forEntries]. destruct (isCancellationRequested token w); [exact Hl|].
    assert (forall name type l, In (name, type) entries -> R l -> R (push (joinPath cur name) l))
      as HR' by (intros n t l' Hin; apply (HR n t); now right).
    repeat destruct (FileType.has type _); apply IH; auto.
    apply (HR name type); auto. now left.
Qed.

Lemma applyResults_stats_preserves (P : Locals Uri -> Prop)
  (chunk : list (StatRequest.t Uri)) (w : World Uri) (l : Locals Uri) :
  Forall (fun r => forall l, P l ->
            P (StatRequest.onResult r None l) /\
            P (StatRequest.onResult r (stat fs (StatRequest.uri r)) l)) chunk ->
  P l ->
  P (applyResults chunk (map (fun request => snd (requestStat fs token w request)) chunk) l).
Proof.
  intros Hall. rewrite applyResults_map. revert l.
  induction Hall as [|r chunk Hr _ IH]; intros l Hl; [exact Hl|].
  simpl. apply IH. unfold requestStat.
  destruct (isCancellationRequested token w); simpl; now apply Hr.
Qed.

(** A property of the locals preserved by every callback on an absent result
    and on the result of its own stat is preserved by [processStatRequests]. *)
Lemma processStatRequests_preserves_stat (P : Locals Uri -> Prop)
  (requests : list (StatRequest.t Uri)) (l : Locals Uri) (w : World Uri) :
  Forall (fun r => forall l, P l ->
            P (StatRequest.onResult r None l) /\
            P (StatRequest.onResult r (stat fs (StatRequest.uri r)) l)) requests ->
  P l -> P (fst (processStatRequests fs this token requests (l, w))).
Proof.
  intros Hall. unfold processStatRequests.
  destruct (_ || _); [auto|].
  generalize (length requests) at 1. intros fuel. generalize (ofZ 0).
  revert l w. induction fuel as [|fuel IH]; intros l w index Hl; [exact Hl|].
  cbn [statLoop]. destruct (_ && _); [|exact Hl].
  destruct (isCancellationRequested token (awaitChunk _ _ _ _)); [exact Hl|].
  apply IH. apply applyResults_stats_preserves; [|exact Hl].
  unfold slice. now apply Forall_take, Forall_drop.
Qed.

End Generic.


Lemma leb_trans (x y z : number) : leb x y = true -> leb y z = true -> leb x z = true.
Proof.
  destruct x as [| | |a], y as [| | |b], z as [| | |c]; simpl; try congruence.
  rewrite !Qle_bool_iff. apply Qle_trans.
Qed.

Lemma leb_refl (x : number) : x <> NaN -> leb x x = true.
Proof.
  destruct x as [| | |a]; simpl; try congruence. intros _. apply Qle_bool_iff, Qle_refl.
Qed.

Section Totals.
Context {Uri : Type} `{UriOps Uri}.
Variable fs : FileSystem Uri.
Variable this : WorkspaceSizeCalculator.
Variable token : nat -> bool.
Hypothesis sizes_natural :
  forall u st, stat fs u = Some st -> exists size, 0 <= size /\ FileStat.size st = ofZ size.

Lemma callbacks_only_add (bound : number) (r : StatRequest.t Uri) :
  (exists u, r = fileRequest u \/ r = unknownRequest u) ->
  forall l, integral (totalSize l) /\ totalSize l <> NaN /\ leb bound (totalSize l) = true ->
    let grown l' :=
      integral (totalSize l') /\ totalSize l' <> NaN /\ leb bound (totalSize l') = true in
    grown (StatRequest.onResult r None l) /\
    grown (StatRequest.onResult r (stat fs (StatRequest.uri r)) l).
Proof.
  intros (u & Hr) l Hl grown.
  assert (forall st, stat fs u = Some st -> grown (addSize (FileStat.size st) l)) as Hadd.
  { intros st Hst. destruct (sizes_natural u st Hst) as (size & Hsize & ->).
    destruct Hl as (Hint & Hnan & Hle).
    destruct (integral_add (totalSize l) size Hint Hnan Hsize) as (Hint' & Hnan' & Hle').
    repeat split; auto. now apply (leb_trans bound (totalSize l)). }
  destruct Hr as [-> | ->]; (split; [exact Hl|]); simpl.
  - unfold fileResult. destruct (stat fs u) as [st|] eqn:Hst; [|exact Hl].
    destruct (FileType.has _ _); [|exact Hl]. now apply Hadd.
  - unfold unknownResult. destruct (stat fs u) as [st|] eqn:Hst; [|exact Hl].
    repeat destruct (FileType.has _ _); auto.
Qed.

Lemma iteration_grows (bound : number) (s : LoopState Uri) :
  integral (totalSize (locals s)) /\ totalSize (locals s) <> NaN /\
  leb bound (totalSize (locals s)) = true ->
  integral (totalSize (locals (iteration fs this token s))) /\
  totalSize (locals (iteration fs this token s)) <> NaN /\
  leb bound (totalSize (locals (iteration fs this token s))) = true.
Proof.
  intros Hs. unfold iteration.
  destruct (pendingDirectories (locals s)) as [|cur rest]; [exact Hs|].
  destruct (decide (toString cur ∈ visitedDirectories s)); [exact Hs|].
  destruct (readDirectory fs cur) as [entries|]; [|exact Hs].
  set (l0 := {| totalSize := totalSize (locals s); pendingDirectories := rest |}).
  set (w := awaitReadDirectory cur (world s)).
  set (grown := fun l : Locals Uri =>
                  integral (totalSize l) /\ totalSize l <> NaN /\
                  leb bound (totalSize l) = true).
  pose proof (forEntries_locals_preserves token grown w cur entries l0 []) as Hfor.
  pose proof (forEntries_requests_Forall token
                (fun r => exists u, r = fileRequest u \/ r = unknownRequest u)
                w cur entries l0 [] (Forall_nil_2 _)) as Hreq.
  destruct (forEntries token w cur entries l0 []) as [l1 requests]. cbn [fst snd] in *.
  pose proof (processStatRequests_preserves_stat fs this token grown requests l1 w) as Hdone.
  destruct (processStatRequests fs this token requests (l1, w)) as [l2 w2].
  cbn [fst snd locals] in *. apply Hdone.
  - eapply Forall_impl; [apply Hreq; intros; split; eexists; [left | right]; reflexivity|].
    intros r Hr l Hl. now apply callbacks_only_add.
  - apply Hfor; [exact Hs | intros; assumption].
Qed.

Lemma iterations_grow (bound : number) (n : nat) (s : LoopState Uri) :
  integral (totalSize (locals s)) /\ totalSize (locals s) <> NaN /\
  leb bound (totalSize (locals s)) = true ->
  integral (totalSize (locals (iterations fs this token n s))) /\
  totalSize (locals (iterations fs this token n s)) <> NaN /\
  leb bound (totalSize (locals (iterations fs this token n s))) = true.
Proof.
  revert s. induction n as [|n IH]; intros s Hs; simpl; [exact Hs|].
  destruct (loopCondition token s); [|exact Hs]. now apply IH, iteration_grows.
Qed.

End Totals.

(** When every stat reports a size that is a non-negative integer, the
    running total of a scan never decreases from one iteration to the next
    (binary64 additions round, but never below the total they start from),
    it stays an integer or becomes infinite, never [NaN], and whatever
    [calculateFolderSize] returns, cancelled or not, is not negative. *)
Theorem totals_never_decrease {Uri : Type} `{UriOps Uri} (fs : FileSystem Uri)
  (this : WorkspaceSizeCalculator) (token : nat -> bool) :
  (forall u st, stat fs u = Some st ->
     exists size, 0 <= size /\ FileStat.size st = ofZ size) ->
  (forall s : LoopState Uri,
      integral (totalSize (locals s)) -> totalSize (locals s) <> NaN ->
      integral (totalSize (locals (iteration fs this token s))) /\
      totalSize (locals (iteration fs this token s)) <> NaN /\
      leb (totalSize (locals s)) (totalSize (locals (iteration fs this token s))) = true) /\
  (forall fuel folder size,
      calculateFolderSize fs this token fuel folder = Some size ->
      leb (ofZ 0) size = true).
Proof.
  intros Hsizes. split.
  - intros s Hint Hnan. apply (iteration_grows fs this token Hsizes).
    repeat split; auto. now apply leb_refl.
  - intros fuel folder size. unfold calculateFolderSize, scanFolder.
    destruct (scanLoop fs this token fuel (initialState folder)) as [s|] eqn:Hs;
      [|discriminate].
    simpl. intros [= <-]. apply scanLoop_iterations in Hs as [-> _].
    apply (iterations_grow fs this token Hsizes (ofZ 0) fuel (initialState folder)).
    split; [|split; [discriminate | reflexivity]].
    exists 0. split; [reflexivity | now apply roundedOfZ_exact].
Qed.

Lemma vanishedFs_sizes (u : string) (st : FileStat.t) :
  stat vanishedFs u = Some st -> exists size, 0 <= size /\ FileStat.size st = ofZ size.
Proof.
  unfold vanishedFs, tableFs. cbn [stat lookupPath].
  destruct (String.eqb "R/a" u); [intros [= <-]; exists 10; split; [lia | reflexivity]|].
  destruct (String.eqb "R/b" u); [intros [= <-]; exists 20; split; [lia | reflexivity]|].
  discriminate.
Qed.

Lemma totals_never_decrease_witness :
  let s := initialState (workspaceFolder "R" 0) in
  (forall u st, stat vanishedFs u = Some st ->
     exists size, 0 <= size /\ FileStat.size st = ofZ size) /\
  leb (totalSize (locals s))
    (totalSize (locals (iteration vanishedFs (new defaultOptions) (fun _ => false) s)))
  = true /\
  totalSize (locals (iteration vanishedFs (new defaultOptions) (fun _ => false) s)) = ofZ 30.
Proof.
  intros s. split; [exact vanishedFs_sizes|]. split; [|vm_compute; reflexivity].
  apply (proj1 (totals_never_decrease vanishedFs (new defaultOptions) (fun _ => false)
                  vanishedFs_sizes) s).
  - exists 0. split; [reflexivity | now apply roundedOfZ_exact].
  - discriminate.
Defined.

Section Confinement.
Context {Uri : Type} `{UriOps Uri}.
Variable fs : FileSystem Uri.
Variable this : WorkspaceSizeCalculator.
Variable token : nat -> bool.
Variable root : Uri.

Lemma chunks_below (requests : list (StatRequest.t Uri))
  (chunks : list (list (StatRequest.t Uri))) :
  Forall (fun r => below fs root (StatRequest.uri r)) requests ->
  Forall (fun chunk => chunk ⊆ requests) chunks ->
  Forall (fun e => below fs root (eventUri e)) (flat_map chunkEvents chunks).
Proof.
  intros Hall Hchunks. induction Hchunks as [|chunk chunks Hchunk _ IH]; [constructor|].
  cbn [flat_map]. apply Forall_app. split; [|exact IH].
  assert (Forall (fun r => below fs root (StatRequest.uri r)) chunk) as Hbelow.
  { apply Forall_forall. intros r Hr. apply Hchunk in Hr.
    revert r Hr. now apply Forall_forall. }
  clear Hchunk IH. unfold chunkEvents. apply Forall_app.
  split; induction Hbelow; simpl; constructor; auto.
Qed.

Lemma iteration_confined (s : LoopState Uri) :
  confined fs root s -> confined fs root (iteration fs this token s).
Proof.
  intros [Hpending Htrace]. unfold iteration.
  destruct (pendingDirectories (locals s)) as [|cur rest] eqn:Hp;
    [split; [now rewrite Hp | exact Htrace]|].
  apply Forall_cons in Hpending as [Hcur Hrest].
  destruct (decide (toString cur ∈ visitedDirectories s)); [split; assumption|].
  assert (Forall (fun e => below fs root (eventUri e))
            (trace (awaitReadDirectory cur (world s)))) as Hread.
  { apply Forall_app. split; [exact Htrace | repeat constructor; exact Hcur]. }
  destruct (readDirectory fs cur) as [entries|] eqn:Hlist; [|split; assumption].
  set (l0 := {| totalSize := totalSize (locals s); pendingDirectories := rest |}).
  set (w := awaitReadDirectory cur (world s)) in *.
  assert (forall name type, In (name, type) entries -> below fs root (joinPath cur name))
    as Hchild by (intros name type Hin; eapply below_entry; eauto).
  pose proof (forEntries_locals_preserves token
                (fun l => Forall (below fs root) (pendingDirectories l)) w cur entries l0 [])
    as Hfor.
  pose proof (forEntries_requests_Forall token
                (fun r => below fs root (StatRequest.uri r) /\
                          forall st l, Forall (below fs root) (pendingDirectories l) ->
                            Forall (below fs root)
                              (pendingDirectories (StatRequest.onResult r st l)))
                w cur entries l0 [] (Forall_nil_2 _)) as Hreq.
  destruct (forEntries token w cur entries l0 []) as [l1 requests]. cbn [fst snd] in *.
  assert (Forall (fun r => below fs root (StatRequest.uri r) /\
                          forall st l, Forall (below fs root) (pendingDirectories l) ->
                            Forall (below fs root)
                              (pendingDirectories (StatRequest.onResult r st l)))
            requests) as Hrequests.
  { apply Hreq. intros name type Hin. pose proof (Hchild name type Hin) as Hb.
    split; (split; [exact Hb|]); intros [st|] l Hl; simpl; auto.
    - unfold fileResult. destruct (FileType.has _ _); auto.
    - unfold unknownResult. repeat destruct (FileType.has _ _); simpl; auto. }
  pose proof (processStatRequests_preserves fs this token
                (fun l => Forall (below fs root) (pendingDirectories l)) requests l1 w)
    as Hlocals.
  destruct (processStatRequests_events fs this token requests l1 w)
    as (chunks & Hchunks & Hsub).
  destruct (processStatRequests fs this token requests (l1, w)) as [l2 w2].
  cbn [fst snd] in *. split; cbn [locals world].
  - apply Hlocals.
    + eapply Forall_impl; [exact Hrequests|]. intros r [_ Hr]. exact Hr.
    + apply Hfor; [exact Hrest|]. intros name type l Hin Hl. simpl.
      constructor; [now apply (Hchild name type) | exact Hl].
  - rewrite Hchunks. apply Forall_app. split; [exact Hread|].
    apply (chunks_below requests); [|exact Hsub].
    eapply Forall_impl; [exact Hrequests|]. intros r [Hr _]. exact Hr.
Qed.

Lemma iterations_confined (n : nat) (s : LoopState Uri) :
  confined fs root s -> confined fs root (iterations fs this token n s).
Proof.
  revert s. induction n as [|n IH]; intros s Hs; simpl; [exact Hs|].
  destruct (loopCondition token s); [|exact Hs]. apply IH, iteration_confined, Hs.
Qed.

End Confinement.

(** A scan stays below its root: on any file system and under any token,
    every directory it lists and every path it stats is the root itself or
    was reached from the root through names that listings reported, and so is
    every directory still on the frontier. *)
Theorem scan_stays_below_the_root {Uri : Type} `{UriOps Uri} (fs : FileSystem Uri)
  (options : WorkspaceSizeCalculatorOptions.t) (token : nat -> bool)
  (folder : WorkspaceFolder.t Uri) (n : nat) :
  let s := iterations fs (new options) token n (initialState folder) in
  Forall (fun e => below fs (WorkspaceFolder.uri folder) (eventUri e)) (trace (world s)) /\
  Forall (below fs (WorkspaceFolder.uri folder)) (pendingDirectories (locals s)).
Proof.
  intros s.
  destruct (iterations_confined fs (new options) token (WorkspaceFolder.uri folder)
              n (initialState folder)) as [Hpending Htrace].
  - split; simpl; repeat constructor.
  - split; assumption.
Qed.

Section UnknownEntry.
Context {Uri : Type} `{UriOps Uri}.
Variable fs : FileSystem Uri.

Lemma entryRequest_wellBehaved (cur : Uri) (entries : list (string * Z)) :
  Forall wellBehaved (omap (entryRequest cur) entries).
Proof.
  induction entries as [|[name type] entries IH]; [constructor|].
  change (omap (entryRequest cur) ((name, type) :: entries))
    with (match entryRequest cur (name, type) with
          | Some r => r :: omap (entryRequest cur) entries
          | None => omap (entryRequest cur) entries
          end).
  unfold entryRequest at 1. cbn [fst snd].
  repeat destruct (FileType.has type _); auto; constructor; auto;
    [apply fileRequest_wellBehaved | apply unknownRequest_wellBehaved].
Qed.

Lemma fold_grows (requests : list (StatRequest.t Uri)) (u : Uri) (l : Locals Uri) :
  Forall wellBehaved requests ->
  u ∈ pendingDirectories l ->
  u ∈ pendingDirectories
        (fold_left (fun l r => StatRequest.onResult r (stat fs (StatRequest.uri r)) l)
           requests l).
Proof.
  intros Hall. revert l. induction Hall as [|r requests Hr _ IH]; intros l Hu.
  - exact Hu.
  - simpl. apply IH, Hr, Hu.
Qed.

(** The callbacks change the frontier by pushes that do not depend on the
    total. *)
Lemma fold_frontier (cur : Uri) (entries : list (string * Z)) (l1 l2 : Locals Uri) :
  pendingDirectories l1 = pendingDirectories l2 ->
  pendingDirectories
    (fold_left (fun l r => StatRequest.onResult r (stat fs (StatRequest.uri r)) l)
       (omap (entryRequest cur) entries) l1)
  = pendingDirectories
      (fold_left (fun l r => StatRequest.onResult r (stat fs (StatRequest.uri r)) l)
         (omap (entryRequest cur) entries) l2).
Proof.
  revert l1 l2. induction entries as [|[name type] entries IH]; intros l1 l2 Hl; [exact Hl|].
  change (omap (entryRequest cur) ((name, type) :: entries))
    with (match entryRequest cur (name, type) with
          | Some r => r :: omap (entryRequest cur) entries
          | None => omap (entryRequest cur) entries
          end).
  set (others := omap (entryRequest cur) entries) in *.
  unfold entryRequest. cbn [fst snd].
  destruct (FileType.has type FileType.Directory); [now apply IH|].
  destruct (FileType.has type FileType.File).
  { cbn [fold_left fileRequest StatRequest.uri StatRequest.onResult]. apply IH.
    unfold fileResult. destruct (stat fs (joinPath cur name)) as [st|]; [|exact Hl].
    now destruct (FileType.has (FileStat.type st) FileType.File). }
  destruct (FileType.has type FileType.SymbolicLink); [now apply IH|].
  cbn [fold_left unknownRequest StatRequest.uri StatRequest.onResult]. apply IH.
  unfold unknownResult. destruct (stat fs (joinPath cur name)) as [st|]; [|exact Hl].
  destruct (FileType.has (FileStat.type st) FileType.Directory); [simpl; now rewrite Hl|].
  now destruct (FileType.has (FileStat.type st) FileType.File).
Qed.

Lemma pushed_app (cur : Uri) (before after : list (string * Z)) (l : Locals Uri) :
  pushed cur (before ++ after) l = pushed cur after (pushed cur before l).
Proof. unfold pushed. apply fold_left_app. Qed.

End UnknownEntry.

Lemma fold_same_stat {Uri : Type} (fs fs' : FileSystem Uri)
  (requests : list (StatRequest.t Uri)) (l : Locals Uri) :
  (forall u, stat fs' u = stat fs u) ->
  fold_left (fun l r => StatRequest.onResult r (stat fs' (StatRequest.uri r)) l) requests l
  = fold_left (fun l r => StatRequest.onResult r (stat fs (StatRequest.uri r)) l) requests l.
Proof.
  intros Hstat. revert l. induction requests as [|r requests IH]; intros l; [reflexivity|].
  simpl. now rewrite Hstat, IH.
Qed.

(** An entry whose listing type has none of the Directory, File and
    SymbolicLink bits is resolved by a stat. With an integer limit and a
    token that is never cancelled its stat is issued in the iteration that
    lists its directory. If the stat reports a directory, the entry is pushed
    onto the frontier, and whenever the loop ends, the scan returns and has
    listed the key of the entry. If it reports a file and no directory, the
    reported size is added to the total, by a binary64 addition, after the
    sizes of the entries listed before it and before those of the entries
    listed after it. If the stat fails or reports neither, nothing is added
    for the entry; and whenever the stat reports no directory the frontier
    ends the iteration as it would on a listing without the entry. *)
Theorem unknown_entries_are_resolved_by_stat {Uri : Type} `{UriOps Uri}
  (fs fs' : FileSystem Uri) (limit : option Z)
  (folder : WorkspaceFolder.t Uri) (n : nat) (cur : Uri) (rest : list Uri)
  (before after : list (string * Z)) (name : string) (type : Z) :
  let this := new (integerOptions limit) in
  let never := fun _ : nat => false in
  let s := iterations fs this never n (initialState folder) in
  let entryUri := joinPath cur name in
  pendingDirectories (locals s) = cur :: rest ->
  toString cur ∉ visitedDirectories s ->
  readDirectory fs cur = Some (before ++ (name, type) :: after) ->
  readDirectory fs' cur = Some (before ++ after) ->
  (forall u, stat fs' u = stat fs u) ->
  FileType.has type FileType.Directory = false ->
  FileType.has type FileType.File = false ->
  FileType.has type FileType.SymbolicLink = false ->
  In (StatIssued entryUri) (trace (world (iteration fs this never s))) /\
  totalSize (locals (iteration fs this never s))
  = fold_left Number.add
      (omap (added fs cur) before
         ++ match stat fs entryUri with
            | Some st =>
                if FileType.has (FileStat.type st) FileType.Directory then []
                else if FileType.has (FileStat.type st) FileType.File
                     then [FileStat.size st] else []
            | None => []
            end
         ++ omap (added fs cur) after)
      (totalSize (locals s)) /\
  (forall st, stat fs entryUri = Some st ->
     FileType.has (FileStat.type st) FileType.Directory = true ->
     entryUri ∈ pendingDirectories (locals (iteration fs this never s)) /\
     forall m : nat,
       loopCondition never (iterations fs this never m (initialState folder)) = false ->
       forall fuel : nat, (m <= fuel)%nat ->
         exists final,
           scanFolder fs this never fuel folder = Some final /\
           calculateFolderSize fs this never fuel folder
             = Some (totalSize (locals final)) /\
           toString entryUri ∈ listedKeys final) /\
  ((stat fs entryUri = None \/
    exists st, stat fs entryUri = Some st /\
               FileType.has (FileStat.type st) FileType.Directory = false) ->
   pendingDirectories (locals (iteration fs this never s))
   = pendingDirectories (locals (iteration fs' this never s))).
Proof.
  intros this never s entryUri Htop Hunvisited Hlist Hlist' Hstat Hdir Hfile Hlink.
  subst never.
  assert (1 <= Z.max 1 (default 32 limit)) as Hpos by lia.
  assert (entryRequest cur (name, type) = Some (unknownRequest entryUri)) as Hrequest.
  { unfold entryRequest. cbn [fst snd]. now rewrite Hdir, Hfile, Hlink. }
  pose proof (iteration_uncancelled fs this (fun _ => false) _ (new_integer limit) Hpos
                (fun _ => eq_refl) s cur rest _ Htop Hunvisited Hlist) as Hlocals.
  rewrite omap_app in Hlocals.
  change (omap (entryRequest cur) ((name, type) :: after))
    with (match entryRequest cur (name, type) with
          | Some r => r :: omap (entryRequest cur) after
          | None => omap (entryRequest cur) after
          end) in Hlocals.
  rewrite Hrequest, fold_left_app in Hlocals.
  cbn [fold_left unknownRequest StatRequest.uri StatRequest.onResult] in Hlocals.
  split; [|split; [|split]].
  - apply (iteration_entry_stat fs this _ (new_integer limit) Hpos s cur rest
             before after name type Htop Hunvisited Hlist (unknownRequest entryUri) Hrequest).
  - rewrite (iteration_entry_total fs this _ (new_integer limit) Hpos s cur rest
               before after name type Htop Hunvisited Hlist).
    unfold added at 2. cbn [fst snd]. rewrite Hdir, Hfile, Hlink. fold entryUri.
    destruct (stat fs entryUri) as [st|]; [|reflexivity].
    destruct (FileType.has (FileStat.type st) FileType.Directory); [reflexivity|].
    now destruct (FileType.has (FileStat.type st) FileType.File).
  - intros st Hst Hd.
    assert (entryUri ∈ pendingDirectories (locals (iteration fs this (fun _ => false) s)))
      as Hpushed.
    { rewrite Hlocals. apply fold_grows; [apply entryRequest_wellBehaved|].
      unfold unknownResult. rewrite Hst, Hd. simpl. now left. }
    split; [exact Hpushed|]. intros m Hend fuel Hfuel.
    exists (iterations fs this (fun _ => false) m (initialState folder)).
    assert (scanFolder fs this (fun _ => false) fuel folder
            = Some (iterations fs this (fun _ => false) m (initialState folder))) as Hscan.
    { unfold scanFolder. now apply scanLoop_enough. }
    split; [exact Hscan|]. split.
    + unfold calculateFolderSize. now rewrite Hscan.
    + apply (discovered_is_listed this (fun _ => false) fs folder n m entryUri); auto.
      * fold s. unfold loopCondition. now rewrite Htop.
      * left. exact Hpushed.
  - intros Hno.
    pose proof (iteration_uncancelled fs' this (fun _ => false) _ (new_integer limit) Hpos
                  (fun _ => eq_refl) s cur rest _ Htop Hunvisited Hlist') as Hlocals'.
    rewrite omap_app, fold_left_app in Hlocals'.
    rewrite Hlocals, Hlocals'.
    rewrite !(fold_same_stat fs fs') by exact Hstat.
    apply fold_frontier.
    assert (forall l,
              pendingDirectories (unknownResult entryUri (stat fs entryUri) l)
              = pendingDirectories l) as Hsame.
    { intros l. unfold unknownResult.
      destruct Hno as [-> | (st & -> & ->)]; [reflexivity|].
      now destruct (FileType.has (FileStat.type st) FileType.File). }
    rewrite Hsame. apply fold_frontier.
    rewrite !pushed_app. unfold pushed at 1. cbn [fold_left snd]. now rewrite Hdir.
Qed.

Lemma unknown_entries_are_resolved_by_stat_witness :
  let s := initialState (workspaceFolder "U" 0) in
  let never := fun _ : nat => false in
  In (StatIssued "U/x"%string)
     (trace (world (iteration unknownFs (new defaultOptions) never s))) /\
  totalSize (locals (iteration unknownFs (new defaultOptions) never s))
  = Number.add (ofZ 0) (ofZ 42) /\
  totalSize (locals (iteration unknownFs (new defaultOptions) never s)) = ofZ 42 /\
  calculateFolderSize unknownFs (new defaultOptions) never 1 (workspaceFolder "U" 0)
  = Some (ofZ 42).
Proof.
  destruct (unknown_entries_are_resolved_by_stat unknownFs unknownFsWithoutEntry
              None (workspaceFolder "U" 0) 0 "U"%string [] [] []
              "x"%string FileType.Unknown eq_refl (not_elem_of_empty _) eq_refl eq_refl
              (fun _ => eq_refl) eq_refl eq_refl eq_refl)
    as (Hissued & Htotal & _).
  split; [exact Hissued|]. split; [exact Htotal|].
  split; vm_compute; reflexivity.
Defined.

Section Rounds.
Context {Uri : Type} `{UriOps Uri}.
Variable fs : FileSystem Uri.
Variable this : WorkspaceSizeCalculator.
Variable token : nat -> bool.
Variable limit : Z.
Hypothesis limit_integer : statConcurrency this = ofZ limit.
Hypothesis limit_pos : 1 <= limit.
Hypothesis never_cancelled : forall n, token n = false.

Lemma rounds_step (m : nat) :
  (0 < m)%nat ->
  Z.of_nat (S (Z.to_nat ((Z.of_nat (m - Z.to_nat limit) + limit - 1) / limit)))
  = (Z.of_nat m + limit - 1) / limit.
Proof.
  intros Hm.
  destruct (decide (Z.of_nat m <= limit)) as [Hle | Hgt].
  - replace (m - Z.to_nat limit)%nat with 0%nat by lia.
    rewrite (Z.div_small (Z.of_nat 0 + limit - 1) limit) by lia.
    change (Z.of_nat (S (Z.to_nat 0))) with 1.
    apply (Z.div_unique _ _ 1 (Z.of_nat m - 1)); lia.
  - replace (Z.of_nat (m - Z.to_nat limit)) with (Z.of_nat m - limit) by lia.
    replace (Z.of_nat m + limit - 1) with ((Z.of_nat m - limit + limit - 1) + 1 * limit) by lia.
    rewrite Z.div_add by lia.
    assert (0 <= (Z.of_nat m - limit + limit - 1) / limit) by (apply Z.div_pos; lia).
    lia.
Qed.

(** Without cancellation the loop of [processStatRequests] takes the
    remaining requests in full chunks, the last one possibly shorter, one
    suspension point per chunk. *)
Lemma statLoop_rounds (requests : list (StatRequest.t Uri)) (fuel : nat) (x : number)
  (i : nat) (l : Locals Uri) (w : World Uri) :
  Z.of_nat (length requests) < 2 ^ 32 ->
  indexAt (length requests) x i ->
  (length requests - i <= fuel)%nat ->
  exists chunks : list (list (StatRequest.t Uri)),
    trace (snd (statLoop fs this token fuel requests x (l, w)))
      = trace w ++ flat_map chunkEvents chunks /\
    clock (snd (statLoop fs this token fuel requests x (l, w)))
      = (clock w + length chunks)%nat /\
    concat chunks = drop i requests /\
    Z.of_nat (length chunks) = (Z.of_nat (length requests - i) + limit - 1) / limit /\
    forall j chunk, chunks !! j = Some chunk -> (S j < length chunks)%nat ->
      Z.of_nat (length chunk) = limit.
Proof.
  intros Hlen. revert x i l w. induction fuel as [|fuel IH]; intros x i l w Hx Hfuel.
  - exists []. simpl. rewrite app_nil_r, drop_ge by lia.
    replace (length requests - i)%nat with 0%nat by lia.
    rewrite Z.div_small by lia. repeat split; auto. intros j chunk Hj. discriminate.
  - destruct (statLoop_step fs this token limit limit_integer limit_pos
                requests fuel x i l w Hlen Hx) as (x' & Hx' & ->).
    unfold isCancellationRequested. rewrite !never_cancelled.
    destruct (Nat.ltb_spec i (length requests)) as [Hi | Hi]; cbn [negb andb].
    2: { exists []. simpl. rewrite app_nil_r, drop_ge by lia.
         replace (length requests - i)%nat with 0%nat by lia.
         rewrite Z.div_small by lia. repeat split; auto. intros j chunk Hj. discriminate. }
    destruct (next_chunk limit limit_pos requests i Hi) as (Hpos & Hle & Hsplit).
    cbv zeta.
    set (chunk := take (Z.to_nat limit) (drop i requests)) in *.
    match goal with |- context [statLoop _ _ _ _ _ _ (?l', ?w')] =>
      destruct (IH x' (i + Z.to_nat limit)%nat l' w' Hx' ltac:(lia))
        as (chunks & Htrace & Hclock & Hconcat & Hcount & Hfull) end.
    exists (chunk :: chunks). rewrite Htrace, Hclock.
    rewrite (awaitChunk_trace fs token chunk w)
      by (unfold isCancellationRequested; apply never_cancelled).
    cbn [flat_map concat length]. rewrite <- app_assoc.
    split; [reflexivity|]. split; [simpl; lia|]. split; [now rewrite Hsplit, Hconcat|].
    assert (Z.of_nat (length chunks)
            = (Z.of_nat ((length requests - i) - Z.to_nat limit) + limit - 1) / limit)
      as Hcount'.
    { rewrite Hcount. do 3 f_equal. lia. }
    split.
    + rewrite <- (rounds_step (length requests - i)) by lia.
      rewrite <- Hcount'. now rewrite Nat2Z.id.
    + intros [|j] c Hc Hj.
      * injection Hc as <-. simpl in Hj.
        destruct (decide (length requests - i <= Z.to_nat limit)%nat) as [Hshort | Hlong].
        { exfalso.
          replace (length requests - i - Z.to_nat limit)%nat with 0%nat in Hcount' by lia.
          rewrite Z.div_small in Hcount' by lia. lia. }
        unfold chunk. rewrite length_take, length_drop. lia.
      * apply (Hfull j c Hc). simpl in Hj. lia.
Qed.

End Rounds.

(** With an integer limit, or none configured, and without cancellation a
    batch of n requests (an array, so n is below 2^32) is worked off in
    ceil(n / max(1, limit)) rounds, one suspension point each: the chunks
    make up the batch in order, and every chunk but the last holds exactly
    max(1, limit) requests, so the stats run as parallel as the limit
    allows. *)
Theorem batch_takes_ceil_rounds {Uri : Type} `{UriOps Uri} (fs : FileSystem Uri)
  (limit : option Z) (requests : list (StatRequest.t Uri))
  (l : Locals Uri) (w : World Uri) :
  let this := new (integerOptions limit) in
  let effective := Z.max 1 (default 32 limit) in
  let done := processStatRequests fs this (fun _ => false) requests (l, w) in
  Z.of_nat (length requests) < 2 ^ 32 ->
  exists chunks : list (list (StatRequest.t Uri)),
    trace (snd done) = trace w ++ flat_map chunkEvents chunks /\
    clock (snd done) = (clock w + length chunks)%nat /\
    concat chunks = requests /\
    Z.of_nat (length chunks) = (Z.of_nat (length requests) + effective - 1) / effective /\
    forall j chunk, chunks !! j = Some chunk -> (S j < length chunks)%nat ->
      Z.of_nat (length chunk) = effective.
Proof.
  intros this effective done Hlen.
  assert (1 <= effective) as Hpos by (unfold effective; lia).
  subst done. unfold processStatRequests.
  destruct requests as [|r requests].
  - exists []. simpl. rewrite app_nil_r, Z.div_small by lia.
    repeat split; auto. intros j chunk Hj. discriminate.
  - cbn [length Nat.eqb orb snd]. unfold isCancellationRequested. cbv iota.
    destruct (statLoop_rounds fs this (fun _ => false) effective (new_integer limit) Hpos
                (fun _ => eq_refl) (r :: requests) (length (r :: requests)) (ofZ 0) 0 l w
                Hlen ltac:(now left) ltac:(lia))
      as (chunks & Htrace & Hclock & Hconcat & Hcount & Hfull).
    exists chunks. rewrite Nat.sub_0_r in Hcount. auto.
Qed.

Lemma batch_takes_ceil_rounds_witness :
  let requests := map fileRequest ["R/a"; "R/gone"; "R/b"]%string in
  let start := ({| totalSize := ofZ 0; pendingDirectories := [] |},
                {| clock := 0; trace := [] |}) in
  let done :=
    processStatRequests vanishedFs (new (integerOptions (Some 2))) (fun _ => false)
      requests start in
  clock (snd done) = 2%nat /\
  totalSize (fst done) = ofZ 30 /\
  exists chunks : list (list (StatRequest.t string)),
    concat chunks = requests /\ Z.of_nat (length chunks) = 2 /\
    clock (snd done) = (0 + length chunks)%nat.
Proof.
  intros requests start done.
  destruct (batch_takes_ceil_rounds vanishedFs (Some 2) requests (fst start) (snd start)
              ltac:(reflexivity))
    as (chunks & _ & Hclock & Hconcat & Hcount & _).
  split; [vm_compute; reflexivity|]. split; [vm_compute; reflexivity|].
  exists chunks. split; [exact Hconcat|]. split; [exact Hcount | exact Hclock].
Defined.

Section Completeness.
Context {Uri : Type} `{UriOps Uri}.
Variable fs : FileSystem Uri.
Variable this : WorkspaceSizeCalculator.
Variable token : nat -> bool.
Hypothesis never_cancelled : forall n, token n = false.

Lemma iteration_closed (s : LoopState Uri) :
  closed fs s -> closed fs (iteration fs this token s).
Proof.
  intros Hs cur entries name type Hcur Hlist Hin Hdir.
  destruct (iteration_cases fs this token s)
    as [[_ Heq] | [(u & rest & _ & _ & Heq) | (u & rest & Hp & Hout & Hv & Hl)]].
  - rewrite Heq in *. now apply (Hs cur entries name type).
  - apply iteration_discovered. apply (Hs cur entries name type); auto.
    now rewrite Heq in Hcur.
  - rewrite Hl in Hcur. apply in_app_or in Hcur as [Hold | [<- | []]].
    + apply iteration_discovered. now apply (Hs cur entries name type).
    + left. apply in_split in Hin as (before & after & ->).
      rewrite (iteration_listing fs this token s u rest _ Hp Hout Hlist). cbn [locals].
      apply (processStatRequests_preserves fs this token
               (fun l => joinPath u name ∈ pendingDirectories l)).
      * eapply Forall_impl; [apply forEntries_wellBehaved; constructor|].
        intros r Hgrow st l. apply Hgrow.
      * apply forEntries_pushes; [apply never_cancelled | exact Hdir].
Qed.

Lemma iterations_closed (n : nat) (s : LoopState Uri) :
  closed fs s -> closed fs (iterations fs this token n s).
Proof.
  revert s. induction n as [|n IH]; intros s Hs; simpl; [exact Hs|].
  destruct (loopCondition token s); [|exact Hs]. apply IH, iteration_closed, Hs.
Qed.

End Completeness.

(** A scan that is not cancelled leaves nothing out: in the state it ends
    in, the frontier is empty, the key of the root has been listed, and for
    every directory it listed, the key of every entry that the listing
    reported with the Directory bit has been listed too. *)
Theorem uncancelled_scan_is_complete {Uri : Type} `{UriOps Uri} (fs : FileSystem Uri)
  (options : WorkspaceSizeCalculatorOptions.t) (folder : WorkspaceFolder.t Uri)
  (fuel : nat) (final : LoopState Uri) :
  scanFolder fs (new options) (fun _ => false) fuel folder = Some final ->
  pendingDirectories (locals final) = [] /\
  toString (WorkspaceFolder.uri folder) ∈ listedKeys final /\
  forall cur entries name type,
    In cur (listed (trace (world final))) ->
    readDirectory fs cur = Some entries ->
    In (name, type) entries ->
    FileType.has type FileType.Directory = true ->
    toString (joinPath cur name) ∈ listedKeys final.
Proof.
  intros Hfinal.
  apply scanLoop_iterations in Hfinal as [Hfinal Hend].
  assert (pendingDirectories (locals final) = []) as Hempty.
  { unfold loopCondition in Hend. simpl in Hend. rewrite andb_true_r in Hend.
    destruct (pendingDirectories (locals final)); [reflexivity | discriminate]. }
  assert (forall u, discovered u final -> toString u ∈ listedKeys final) as Hlisted.
  { intros u [Hpending | Hvisited].
    - rewrite Hempty in Hpending. now apply elem_of_nil in Hpending.
    - assert (listedOnce final) as [_ Hkeys].
      { rewrite Hfinal.
        apply (iterations_listedOnce fs (new options)), initialState_listedOnce. }
      now apply Hkeys. }
  split; [exact Hempty|]. split.
  - apply Hlisted. rewrite Hfinal. apply iterations_discovered. left. simpl. now left.
  - intros cur entries name type Hcur Hlist Hin Hdir. apply Hlisted.
    assert (closed fs final) as Hclosed.
    { rewrite Hfinal.
      apply (iterations_closed fs (new options) _ (fun _ => eq_refl)).
      intros c e nm t Hc. simpl in Hc. contradiction. }
    now apply (Hclosed cur entries name type).
Qed.

Lemma uncancelled_scan_is_complete_witness :
  exists final,
    scanFolder twoRootsFs (new defaultOptions) (fun _ => false) 5 (workspaceFolder "B" 1)
      = Some final /\
    pendingDirectories (locals final) = [] /\
    "B"%string ∈ listedKeys final /\
    "B/d"%string ∈ listedKeys final.
Proof.
  destruct (scanFolder twoRootsFs (new defaultOptions) (fun _ => false) 5
              (workspaceFolder "B" 1)) as [final|] eqn:Hscan; [|vm_compute in Hscan; discriminate].
  exists final. split; [reflexivity|].
  destruct (uncancelled_scan_is_complete twoRootsFs defaultOptions (workspaceFolder "B" 1)
              5 final Hscan) as (Hempty & Hroot & Hclosed).
  split; [exact Hempty|]. split; [exact Hroot|].
  apply (Hclosed "B"%string [("f", FileType.File); ("d", FileType.Directory)]%string
           "d"%string FileType.Directory); try reflexivity.
  - apply list_elem_of_In. unfold listedKeys in Hroot. simpl in Hroot.
    rewrite map_id in Hroot. exact Hroot.
  - right. now left.
Defined.

(** ** Further properties of [formatBytes] *)

Lemma unitSize_succ (k : nat) : (unitSize (S k) == 1024 * unitSize k)%Q.
Proof.
  unfold unitSize. rewrite Nat2Z.inj_succ, Z.pow_succ_r by lia.
  now rewrite inject_Z_mult.
Qed.

Lemma unitSize_pos (k : nat) : (1 <= unitSize k)%Q.
Proof.
  unfold unitSize. change 1%Q with (inject_Z 1). rewrite <- Zle_Qle.
  assert (0 < 1024 ^ Z.of_nat k) by (apply Z.pow_pos_nonneg; lia). lia.
Qed.

Lemma Qfloor_unique (x : Q) (z : Z) :
  (inject_Z z <= x)%Q -> (x < inject_Z (z + 1))%Q -> Qfloor x = z.
Proof.
  intros Hle Hlt.
  assert (z <= Qfloor x) by (rewrite <- (Qfloor_Z z); now apply Qfloor_resp_le).
  assert (Qfloor x < z + 1).
  { rewrite Zlt_Qlt. eapply Qle_lt_trans; [apply Qfloor_le | exact Hlt]. }
  lia.
Qed.

Lemma nearest_Qeq (v v' : Q) (f : nat) : (v == v')%Q -> nearest v f = nearest v' f.
Proof.
  intros Hv. unfold nearest. apply Qfloor_comp. now rewrite Hv.
Qed.

(** [toFixed] depends on the value of its argument only, not on the fraction
    that represents it. *)
Lemma toFixed_Qeq (v v' : Q) (f : nat) : (v == v')%Q -> toFixed v f = toFixed v' f.
Proof.
  intros Hv. unfold toFixed.
  rewrite (Qleb_comp 0%Q 0%Q (Qeq_refl 0%Q) v v' Hv).
  rewrite (Qleb_comp _ _ (Qeq_refl (inject_Z (10 ^ 21))) _ _ (Qabs_wd v v' Hv)).
  rewrite (nearest_Qeq (Qabs v) (Qabs v') f (Qabs_wd v v' Hv)).
  unfold exponential. now rewrite (Qfloor_comp _ _ (Qabs_wd v v' Hv)).
Qed.

Lemma rendered_Qeq (v v' : Q) (k : nat) : (v == v')%Q -> rendered v k = rendered v' k.
Proof.
  intros Hv. unfold rendered.
  rewrite (Qleb_comp 100%Q 100%Q (Qeq_refl 100%Q) v v' Hv).
  now rewrite (toFixed_Qeq v v' 0 Hv), (toFixed_Qeq v v' 1 Hv).
Qed.

(** The loop divides a value of [v] units of size [1024 ^ k] exactly [k]
    times. *)
Lemma scaleLoop_descend (k : nat) :
  forall (fuel : nat) (q v : Q) (i : nat),
    (q == v * unitSize k)%Q ->
    (k <= fuel)%nat ->
    (i + k <= length units - 1)%nat ->
    (k = 0%nat \/ 1 <= v)%Q ->
    ((v < 1024)%Q \/ (i + k = length units - 1)%nat) ->
    exists v', scaleLoop fuel q i = (v', (i + k)%nat) /\ (v' == v)%Q.
Proof.
  induction k as [|k IH]; intros fuel q v i Hq Hfuel Hi Hlow Hhigh.
  - exists q. rewrite Nat.add_0_r. split.
    + destruct fuel as [|fuel]; [reflexivity|]. cbn [scaleLoop].
      destruct Hhigh as [Hv | Hlast].
      * assert (Qle_bool 1024 q = false) as ->; [|reflexivity].
        destruct (Qle_bool 1024 q) eqn:E; [|reflexivity].
        apply Qle_bool_iff in E. rewrite Hq in E.
        change (unitSize 0) with 1%Q in E. lra.
      * assert ((i <? length units - 1)%nat = false) as ->
          by (apply Nat.ltb_ge; lia).
        now rewrite andb_false_r.
    + rewrite Hq. change (unitSize 0) with 1%Q. lra.
  - destruct fuel as [|fuel]; [lia|]. cbn [scaleLoop].
    destruct Hlow as [Hk | Hv]; [discriminate|].
    pose proof (unitSize_pos k) as Hunit.
    assert (Qle_bool 1024 q = true) as ->.
    { apply Qle_bool_iff. rewrite Hq, unitSize_succ. nra. }
    assert ((i <? length units - 1)%nat = true) as -> by (apply Nat.ltb_lt; lia).
    cbn [andb].
    destruct (IH fuel (q / 1024)%Q v (i + 1)%nat) as (v' & Hloop & Hv'); auto; try lia.
    + rewrite Hq, unitSize_succ. field.
    + destruct Hhigh as [Hh | Hh]; [now left | right; lia].
    + exists v'. split; [|exact Hv']. rewrite Hloop. f_equal. lia.
Qed.

Lemma formatBytes_unit (q v : Q) (k : nat) (unit : string) :
  units !! k = Some unit ->
  (q == v * unitSize k)%Q ->
  (0 <= v)%Q ->
  (k = 0%nat \/ 1 <= v)%Q ->
  ((v < 1024)%Q \/ k = 5%nat) ->
  formatBytes (Finite q) = (rendered v k +:+ " " +:+ unit)%string.
Proof.
  intros Hunit Hq Hv Hlow Hhigh.
  assert (k < length units)%nat as Hk by (eapply lookup_lt_Some; eauto).
  assert ((v < 1024)%Q \/ (0 + k = length units - 1)%nat) as Hhigh'.
  { destruct Hhigh as [Hh | ->]; [now left | now right]. }
  destruct (scaleLoop_descend k (length units) q v 0 Hq ltac:(lia)
              ltac:(simpl in *; lia) Hlow Hhigh') as (v' & Hloop & Hv').
  unfold formatBytes. simpl isFinite. simpl ltb.
  assert (Qle_bool 0 q = true) as ->.
  { apply Qle_bool_iff. rewrite Hq. pose proof (unitSize_pos k). nra. }
  simpl negb. simpl orb. rewrite Hloop. simpl Nat.add.
  rewrite (nth_lookup_Some _ _ _ _ Hunit).
  fold (rendered v' k). now rewrite (rendered_Qeq v' v k Hv').
Qed.

(** The closed form of [formatBytes]: a byte count that amounts to [v] units
    of 1024^k bytes, with [v] in the range of that unit (below 1024 for
    bytes, from 1 to below 1024 for KB to TB, from 1 on for PB, the last
    unit), is rendered as [v] with the [k]-th unit: no fractional digit when
    [v >= 100] or the unit is bytes, one otherwise. In particular every count
    from 1 PB on is given in PB, however large. *)
Theorem formatBytes_in_unit (q v : Q) (k : nat) (unit : string) :
  units !! k = Some unit ->
  (q == v * unitSize k)%Q ->
  (0 <= v)%Q ->
  (k = 0%nat \/ 1 <= v)%Q ->
  ((v < 1024)%Q \/ k = 5%nat) ->
  formatBytes (Finite q)
  = ((if Qle_bool 100 v || (k =? 0)%nat then toFixed v 0 else toFixed v 1)
       +:+ " " +:+ unit)%string.
Proof. apply formatBytes_unit. Qed.

Lemma formatBytes_in_unit_witness :
  formatBytes (Finite 1610612736) = "1.5 GB"%string /\
  formatBytes (Finite (5000 * 1125899906842624)) = "5000 PB"%string.
Proof.
  split.
  - apply (formatBytes_in_unit 1610612736 (3 # 2) 3 "GB" eq_refl); try reflexivity.
    + discriminate.
    + right. discriminate.
    + left. reflexivity.
  - apply (formatBytes_in_unit (5000 * 1125899906842624) 5000 5 "PB" eq_refl);
      try reflexivity.
    + discriminate.
    + right. discriminate.
    + now right.
Defined.

Lemma nearest_whole (n : Z) : nearest (inject_Z n) 0 = n.
Proof.
  unfold nearest. change (inject_Z (10 ^ Z.of_nat 0)) with 1%Q. apply Qfloor_unique.
  - lra.
  - rewrite inject_Z_plus. change (inject_Z 1) with 1%Q. lra.
Qed.

(** Whole numbers are printed exactly: a count of [n] bytes below 1024, and a
    count of [n] whole units with [100 <= n < 1024] (from 100 to 2^53 for PB,
    all of them numbers that binary64 holds and below the 10^21 PB from which
    on the exponent notation is used), is rendered as the decimal digits of
    [n] and the unit. *)
Theorem formatBytes_whole_numbers (n : Z) (k : nat) (unit : string) :
  units !! k = Some unit ->
  (k = 0%nat /\ 0 <= n < 1024) \/ (100 <= n < 1024) \/
  (k = 5%nat /\ 100 <= n <= 2 ^ 53) ->
  formatBytes (Finite (inject_Z (n * 1024 ^ Z.of_nat k)))
  = (string_of_list_ascii (decimal n) +:+ " " +:+ unit)%string.
Proof.
  intros Hunit Hn.
  assert (0 <= n) as Hn0 by lia.
  assert (0 <= inject_Z n)%Q as Hv0 by (change 0%Q with (inject_Z 0); now rewrite <- Zle_Qle).
  rewrite (formatBytes_unit _ (inject_Z n) k unit Hunit).
  - unfold rendered.
    assert (Qle_bool 100 (inject_Z n) || (k =? 0)%nat = true) as ->.
    { destruct Hn as [[-> _] | [Hn | [_ Hn]]]; [apply orb_true_r | |];
        apply orb_true_iff; left; apply Qle_bool_iff;
        change 100%Q with (inject_Z 100); rewrite <- Zle_Qle; lia. }
    rewrite toFixed_0; [now rewrite nearest_whole | now apply Qle_bool_iff |].
    rewrite Qle_bool_inject_Z. apply Z.leb_gt.
    assert (2 ^ 53 < 10 ^ 21) by reflexivity. lia.
  - unfold unitSize. now rewrite inject_Z_mult.
  - exact Hv0.
  - destruct Hn as [[-> _] | [Hn | [_ Hn]]]; [now left | right | right];
      change 1%Q with (inject_Z 1); rewrite <- Zle_Qle; lia.
  - destruct Hn as [[_ Hn] | [Hn | [-> _]]]; [left | left | now right];
      change 1024%Q with (inject_Z 1024); rewrite <- Zlt_Qlt; lia.
Qed.

Lemma formatBytes_whole_numbers_witness :
  formatBytes (Finite 1023) = "1023 B"%string /\
  formatBytes (Finite (inject_Z (512 * 1024 ^ 2))) = "512 MB"%string /\
  formatBytes (Finite (inject_Z (2 ^ 53 * 1024 ^ 5))) = "9007199254740992 PB"%string.
Proof.
  split; [|split].
  - apply (formatBytes_whole_numbers 1023 0 "B" eq_refl). left. split; [reflexivity | lia].
  - apply (formatBytes_whole_numbers 512 2 "MB" eq_refl). right. left. lia.
  - apply (formatBytes_whole_numbers (2 ^ 53) 5 "PB" eq_refl). right. right.
    split; [reflexivity | lia].
Defined.

(** The unit is chosen before the value is rounded, so rounding can reach the
    next power: a count of [v] units (B to TB) with [1023.5 <= v < 1024] is
    shown as "1024" of that unit, not as 1.0 of the next, and a count of [v]
    units (KB to PB) with [99.95 <= v < 100] is shown as "100.0", with a
    fractional digit although 100 has been reached. *)
Theorem formatBytes_rounds_after_choosing_the_unit (q v : Q) (k : nat) (unit : string) :
  units !! k = Some unit ->
  (q == v * unitSize k)%Q ->
  ((k <= 4)%nat -> (10235 # 10 <= v)%Q -> (v < 1024)%Q ->
   formatBytes (Finite q) = ("1024 " +:+ unit)%string) /\
  ((1 <= k)%nat -> (9995 # 100 <= v)%Q -> (v < 100)%Q ->
   formatBytes (Finite q) = ("100.0 " +:+ unit)%string).
Proof.
  intros Hunit Hq. split.
  - intros Hk Hlow Hhigh.
    rewrite (formatBytes_unit q v k unit Hunit Hq); [| lra | right; lra | now left].
    unfold rendered.
    assert (Qle_bool 100 v = true) as -> by (apply Qle_bool_iff; lra).
    assert (Qle_bool (inject_Z (10 ^ 21)) v = false) as Hsmall.
    { destruct (Qle_bool (inject_Z (10 ^ 21)) v) eqn:E; [|reflexivity].
      apply Qle_bool_iff in E. assert (1024 < inject_Z (10 ^ 21))%Q by reflexivity. lra. }
    cbn [orb]. rewrite toFixed_0; [| apply Qle_bool_iff; lra | exact Hsmall].
    assert (nearest v 0 = 1024) as ->; [|reflexivity].
    unfold nearest. change (inject_Z (10 ^ Z.of_nat 0)) with 1%Q.
    apply Qfloor_unique; [change (inject_Z 1024) with 1024%Q
                         | change (inject_Z (1024 + 1)) with 1025%Q]; lra.
  - intros Hk Hlow Hhigh.
    rewrite (formatBytes_unit q v k unit Hunit Hq); [| lra | right; lra | left; lra].
    unfold rendered.
    assert (Qle_bool 100 v = false) as ->.
    { destruct (Qle_bool 100 v) eqn:E; [|reflexivity]. apply Qle_bool_iff in E. lra. }
    destruct k as [|k]; [lia|]. cbn [orb Nat.eqb].
    assert (Qle_bool 0 v = true) as Hv by (apply Qle_bool_iff; lra).
    assert (Qle_bool (inject_Z (10 ^ 21)) v = false) as Hsmall.
    { destruct (Qle_bool (inject_Z (10 ^ 21)) v) eqn:E; [|reflexivity].
      apply Qle_bool_iff in E. assert (1024 < inject_Z (10 ^ 21))%Q by reflexivity. lra. }
    unfold toFixed. rewrite (below_exponent_notation v Hv Hsmall), Hv, (Qabs_nonneg v Hv).
    assert (nearest v 1 = 1000) as ->; [|reflexivity].
    unfold nearest. change (inject_Z (10 ^ Z.of_nat 1)) with 10%Q.
    apply Qfloor_unique; [change (inject_Z 1000) with 1000%Q
                         | change (inject_Z (1000 + 1)) with 1001%Q]; lra.
Qed.

Lemma formatBytes_rounds_after_choosing_the_unit_witness :
  formatBytes (Finite 1048575) = "1024 KB"%string /\
  formatBytes (Finite 102399) = "100.0 KB"%string.
Proof.
  split.
  - apply (proj1 (formatBytes_rounds_after_choosing_the_unit 1048575 (1048575 # 1024) 1 "KB"
                    eq_refl eq_refl)); [lia | discriminate | reflexivity].
  - apply (proj2 (formatBytes_rounds_after_choosing_the_unit 102399 (102399 # 1024) 1 "KB"
                    eq_refl eq_refl)); [lia | discriminate | reflexivity].
Defined.

(** ** The status bar indicator *)

Section IndicatorFacts.
Context {Uri : Type}.
Implicit Types (this : WorkspaceSizeIndicator.t Uri) (results : list (FolderSizeResult.t Uri)).

Lemma reduce_sizes results (start : number) :
  fold_left (fun accumulator item => Number.add accumulator (FolderSizeResult.size item))
    results start
  = fold_left Number.add (map FolderSizeResult.size results) start.
Proof.
  revert start. induction results as [|r results IH]; intros start; [reflexivity|].
  cbn [fold_left map]. apply IH.
Qed.

(** Adding the sizes of results that are integers, those of size zero left
    out or not. *)
Lemma total_without_zeros (entries : list (WorkspaceFolder.t Uri * Z)) (start : number) :
  integral start ->
  fold_left Number.add
    (map (fun e => ofZ (snd e)) (List.filter (fun e => negb (snd e =? 0)) entries)) start
  = fold_left Number.add (map (fun e => ofZ (snd e)) entries) start.
Proof.
  revert start. induction entries as [|[folder size] entries IH]; intros start Hstart;
    [reflexivity|].
  cbn [List.filter snd]. destruct (size =? 0) eqn:Hsize; cbn [negb map fold_left snd].
  - apply Z.eqb_eq in Hsize. subst size. rewrite (add_zero start Hstart). now apply IH.
  - apply IH. now apply add_integral.
Qed.

Lemma positive_without_zeros (entries : list (WorkspaceFolder.t Uri * Z)) :
  let result := fun e : WorkspaceFolder.t Uri * Z =>
                  {| FolderSizeResult.folder := fst e;
                     FolderSizeResult.size := ofZ (snd e) |} in
  List.filter (fun r => ltb (ofZ 0) (FolderSizeResult.size r))
    (map result (List.filter (fun e => negb (snd e =? 0)) entries))
  = List.filter (fun r => ltb (ofZ 0) (FolderSizeResult.size r)) (map result entries).
Proof.
  intros result. induction entries as [|[folder size] entries IH]; [reflexivity|].
  cbn [List.filter snd map].
  destruct (size =? 0) eqn:Hz; cbn [negb List.filter map].
  - apply Z.eqb_eq in Hz. subst size.
    change (ltb (ofZ 0) (FolderSizeResult.size (result (folder, 0)))) with false.
    cbv iota. exact IH.
  - destruct (ltb (ofZ 0) (FolderSizeResult.size (result (folder, size)))); now rewrite IH.
Qed.

Lemma refreshEnd_current (cancellation : nat) (outcome : Outcome Uri) this env :
  WorkspaceSizeIndicator.currentCalculation
    (WorkspaceSizeIndicator.refreshEnd cancellation outcome this env)
  = if bool_decide (WorkspaceSizeIndicator.currentCalculation this = Some cancellation)
    then None else WorkspaceSizeIndicator.currentCalculation this.
Proof.
  unfold WorkspaceSizeIndicator.refreshEnd.
  destruct outcome; [destruct (WorkspaceSizeIndicator.isCancelled _ _)|]; reflexivity.
Qed.

Lemma perform_oneLive (action : Action Uri) (sys : System Uri) :
  oneLive sys -> oneLive (perform action sys).
Proof.
  intros (Hflight & Hcancelled & Hcurrent & Hothers).
  destruct action as [force folders | settled outcome | folders |].
  - unfold perform, WorkspaceSizeIndicator.refreshStart, WorkspaceSizeIndicator.cancel.
    destruct folders as [|folder folders].
    { split; [|split; [|split]]; assumption. }
    destruct (WorkspaceSizeIndicator.isCalculating (indicator sys) && negb force).
    { split; [|split; [|split]]; assumption. }
    assert (forall previous,
              WorkspaceSizeIndicator.currentCalculation (indicator sys) = Some previous ->
              (previous < created (sources sys))%nat) as Hprevious
      by (intros previous Hp; apply Hflight; now apply Hcurrent).
    destruct (WorkspaceSizeIndicator.currentCalculation (indicator sys)) as [previous|] eqn:Hc;
      unfold oneLive;
      cbn [inFlight sources created cancelledSources indicator
           WorkspaceSizeIndicator.currentCalculation].
    + specialize (Hprevious previous eq_refl).
      split; [|split; [|split]].
      * intros id Hid. apply elem_of_union in Hid as [Hid | Hid];
          [apply elem_of_singleton in Hid; lia | apply Hflight in Hid; lia].
      * intros id Hid. apply elem_of_union in Hid as [Hid | Hid];
          [apply elem_of_singleton in Hid; lia | apply Hcancelled in Hid; lia].
      * intros id [= <-]. split; [apply elem_of_union; left; now apply elem_of_singleton|].
        intros Hid. apply elem_of_union in Hid as [Hid | Hid];
          [apply elem_of_singleton in Hid; lia | apply Hcancelled in Hid; lia].
      * intros id Hid Hne. apply elem_of_union in Hid as [Hid | Hid];
          [apply elem_of_singleton in Hid; congruence|].
        destruct (decide (id = previous)) as [-> | Hp];
          [apply elem_of_union; left; now apply elem_of_singleton|].
        apply elem_of_union. right. apply Hothers; [exact Hid | congruence].
    + split; [|split; [|split]].
      * intros id Hid. apply elem_of_union in Hid as [Hid | Hid];
          [apply elem_of_singleton in Hid; lia | apply Hflight in Hid; lia].
      * intros id Hid. apply Hcancelled in Hid. lia.
      * intros id [= <-]. split; [apply elem_of_union; left; now apply elem_of_singleton|].
        intros Hid. apply Hcancelled in Hid. lia.
      * intros id Hid Hne. apply elem_of_union in Hid as [Hid | Hid];
          [apply elem_of_singleton in Hid; congruence|].
        apply Hothers; [exact Hid | discriminate].
  - unfold perform. destruct (bool_decide (settled ∈ inFlight sys)) eqn:Hin;
      [|split; [|split; [|split]]; assumption].
    unfold oneLive;
    cbn [inFlight sources created cancelledSources indicator
         WorkspaceSizeIndicator.currentCalculation].
    split; [|split; [|split]].
    + intros j Hj. apply Hflight. now apply elem_of_difference in Hj as [Hj _].
    + exact Hcancelled.
    + intros j Hj. rewrite refreshEnd_current in Hj.
      destruct (bool_decide
                  (WorkspaceSizeIndicator.currentCalculation (indicator sys) = Some settled))
        eqn:Hb; [discriminate|].
      apply bool_decide_eq_false in Hb.
      destruct (Hcurrent j Hj) as [Hjin Hjlive]. split; [|exact Hjlive].
      apply elem_of_difference. split; [exact Hjin|].
      intros Hs. apply elem_of_singleton in Hs. congruence.
    + intros j Hj Hne. rewrite refreshEnd_current in Hne.
      apply elem_of_difference in Hj as [Hj Hji].
      apply Hothers; [exact Hj|]. intros Hcj. apply Hne.
      rewrite bool_decide_eq_false_2; [exact Hcj|].
      rewrite Hcj. intros [= ->]. apply Hji. now apply elem_of_singleton.
  - unfold perform. destruct folders; (split; [|split; [|split]]; assumption).
  - unfold perform, WorkspaceSizeIndicator.dispose, WorkspaceSizeIndicator.cancel.
    destruct (WorkspaceSizeIndicator.currentCalculation (indicator sys)) as [current|] eqn:Hc;
      unfold oneLive;
      cbn [inFlight sources created cancelledSources indicator
           WorkspaceSizeIndicator.currentCalculation].
    + destruct (Hcurrent current eq_refl) as [Hin _].
      split; [exact Hflight|]. split; [|split].
      * intros id Hid. apply elem_of_union in Hid as [Hid | Hid];
          [apply elem_of_singleton in Hid; subst; now apply Hflight | now apply Hcancelled].
      * intros id Hid. discriminate.
      * intros id Hid _. destruct (decide (id = current)) as [-> | Hne];
          [apply elem_of_union; left; now apply elem_of_singleton|].
        apply elem_of_union. right. apply Hothers; [exact Hid | congruence].
    + split; [exact Hflight|]. split; [exact Hcancelled|]. split.
      * intros id Hid. congruence.
      * intros id Hid _. apply Hothers; [exact Hid | discriminate].
Qed.

Lemma run_oneLive (actions : list (Action Uri)) (sys : System Uri) :
  oneLive sys -> oneLive (run actions sys).
Proof.
  revert sys. induction actions as [|action actions IH]; intros sys Hsys; [exact Hsys|].
  apply IH, perform_oneLive, Hsys.
Qed.

Lemma start_oneLive (folders : list (WorkspaceFolder.t Uri)) : oneLive (start folders).
Proof.
  split; [|split; [|split]]; simpl.
  - intros id Hid. now apply elem_of_empty in Hid.
  - intros id Hid. now apply elem_of_empty in Hid.
  - intros id Hid. destruct folders; discriminate.
  - intros id Hid. now apply elem_of_empty in Hid.
Qed.

Lemma append_empty (a b : string) : (a +:+ b)%string = ""%string -> b = ""%string.
Proof. destruct a; [exact (fun H => H) | discriminate]. Qed.

Lemma append_assoc (a b c : string) : ((a +:+ b) +:+ c = a +:+ (b +:+ c))%string.
Proof.
  induction a as [|x a IH]; [reflexivity|].
  change (String x ((a +:+ b) +:+ c) = String x (a +:+ (b +:+ c)))%string. now rewrite IH.
Qed.

Lemma breakdownLine_not_empty (result : FolderSizeResult.t Uri) :
  WorkspaceSizeIndicator.breakdownLine result <> ""%string.
Proof.
  unfold WorkspaceSizeIndicator.breakdownLine. intros Hempty.
  apply append_empty in Hempty. discriminate.
Qed.

Lemma concat_cons (sep line : string) (rest : list string) :
  rest <> [] ->
  String.concat sep (line :: rest) = (line +:+ sep +:+ String.concat sep rest)%string.
Proof. destruct rest; [congruence | reflexivity]. Qed.

Lemma concat_app (sep : string) (front back : list string) :
  front <> [] -> back <> [] ->
  String.concat sep (front ++ back)
  = (String.concat sep front +:+ sep +:+ String.concat sep back)%string.
Proof.
  intros Hfront Hback. induction front as [|line front IH]; [congruence|].
  destruct front as [|next front].
  - cbn [app]. now rewrite concat_cons.
  - change ((line :: next :: front) ++ back) with (line :: ((next :: front) ++ back)).
    rewrite !concat_cons by discriminate. rewrite IH by discriminate.
    now rewrite !append_assoc.
Qed.

Lemma concat_nested (sep : string) (front middle back : list string) :
  front <> [] -> middle <> [] -> back <> [] ->
  String.concat sep (front ++ [String.concat sep middle] ++ back)
  = String.concat sep (front ++ middle ++ back).
Proof.
  intros Hfront Hmiddle Hback.
  rewrite (concat_app sep front ([String.concat sep middle] ++ back)) by (exact Hfront || discriminate).
  rewrite (concat_app sep [String.concat sep middle] back) by (discriminate || exact Hback).
  rewrite (concat_app sep front (middle ++ back)); [|exact Hfront|].
  - rewrite (concat_app sep middle back) by assumption. reflexivity.
  - destruct middle; [congruence | discriminate].
Qed.

Lemma breakdown_empty results :
  String.eqb (String.concat WorkspaceSizeIndicator.newline
                (map WorkspaceSizeIndicator.breakdownLine results)) ""
  = match results with [] => true | _ => false end.
Proof.
  destruct results as [|result results]; [reflexivity|].
  apply String.eqb_neq. cbn [map]. destruct results as [|next results].
  - apply breakdownLine_not_empty.
  - rewrite concat_cons by discriminate. intros Hempty.
    apply append_empty in Hempty. discriminate.
Qed.

Lemma settled_after_dispose (later : list (Action Uri)) (sys : System Uri) :
  oneLive sys ->
  WorkspaceSizeIndicator.currentCalculation (indicator sys) = None ->
  forallb settlesWithResults later = true ->
  WorkspaceSizeIndicator.statusBarItem (indicator (run later sys))
  = WorkspaceSizeIndicator.statusBarItem (indicator sys) /\
  WorkspaceSizeIndicator.lastBreakdown (indicator (run later sys))
  = WorkspaceSizeIndicator.lastBreakdown (indicator sys) /\
  WorkspaceSizeIndicator.currentCalculation (indicator (run later sys)) = None.
Proof.
  revert sys. induction later as [|action later IH]; intros sys Hlive Hnone Hlater;
    [now split|].
  cbn [forallb] in Hlater. apply andb_true_iff in Hlater as [Haction Hlater].
  destruct action as [| id [results|] | |]; try discriminate.
  pose proof (perform_oneLive (Settle id (Results results)) sys Hlive) as Hnext.
  assert (WorkspaceSizeIndicator.statusBarItem
            (indicator (perform (Settle id (Results results)) sys))
          = WorkspaceSizeIndicator.statusBarItem (indicator sys) /\
          WorkspaceSizeIndicator.lastBreakdown
            (indicator (perform (Settle id (Results results)) sys))
          = WorkspaceSizeIndicator.lastBreakdown (indicator sys) /\
          WorkspaceSizeIndicator.currentCalculation
            (indicator (perform (Settle id (Results results)) sys)) = None)
    as (Hitem & Hbreakdown & Hcurrent).
  { unfold perform. destruct (bool_decide (id ∈ inFlight sys)) eqn:Hin; [|now split].
    apply bool_decide_eq_true in Hin. destruct Hlive as (_ & _ & _ & Hothers).
    assert (id ∈ cancelledSources (sources sys)) as Hcancelled
      by (apply Hothers; [exact Hin | congruence]).
    cbn [indicator]. unfold WorkspaceSizeIndicator.refreshEnd,
      WorkspaceSizeIndicator.isCancelled.
    rewrite bool_decide_eq_true_2 by exact Hcancelled.
    cbn [WorkspaceSizeIndicator.lastBreakdown WorkspaceSizeIndicator.statusBarItem
         WorkspaceSizeIndicator.currentCalculation].
    rewrite Hnone. now rewrite bool_decide_eq_false_2 by discriminate. }
  destruct (IH _ Hnext Hcurrent Hlater) as (Hitem' & Hbreakdown' & Hcurrent').
  change (run (Settle id (Results results) :: later) sys)
    with (run later (perform (Settle id (Results results)) sys)).
  split; [congruence|]. split; [congruence | exact Hcurrent'].
Qed.

End IndicatorFacts.

Lemma refresh_started {Uri : Type} `{UriOps Uri} (fs : FileSystem Uri) (fuel : nat)
  (force : bool) (folder : WorkspaceFolder.t Uri) (rest : list (WorkspaceFolder.t Uri))
  (sys : System Uri) (results : list (FolderSizeResult.t Uri)) :
  oneLive sys ->
  WorkspaceSizeIndicator.isCalculating (indicator sys) && negb force = false ->
  calculate fs calculator fuel (folder :: rest) (fun _ _ => false) = Some results ->
  exists after,
    refresh fs fuel force (folder :: rest) sys = Some after /\
    WorkspaceSizeIndicator.statusBarItem (indicator after)
    = WorkspaceSizeIndicator.statusBarItem
        (WorkspaceSizeIndicator.applyResults results (indicator sys)) /\
    WorkspaceSizeIndicator.lastBreakdown (indicator after) = results /\
    WorkspaceSizeIndicator.currentCalculation (indicator after) = None /\
    WorkspaceSizeIndicator.isCalculating (indicator after) = false.
Proof.
  intros (Hflight & Hcancelled & Hcurrent & _) Hguard Hcalc.
  unfold refresh, WorkspaceSizeIndicator.refreshStart. rewrite Hguard.
  set (env := match WorkspaceSizeIndicator.currentCalculation (indicator sys) with
              | Some previous => WorkspaceSizeIndicator.cancel previous (sources sys)
              | None => sources sys
              end).
  assert (created env ∉ cancelledSources env) as Hfresh.
  { subst env.
    destruct (WorkspaceSizeIndicator.currentCalculation (indicator sys)) as [previous|].
    - destruct (Hcurrent previous eq_refl) as [Hprevious _]. apply Hflight in Hprevious.
      cbn [WorkspaceSizeIndicator.cancel created cancelledSources]. intros Hin.
      apply elem_of_union in Hin as [Hin | Hin];
        [apply elem_of_singleton in Hin; lia | apply Hcancelled in Hin; lia].
    - intros Hin. apply Hcancelled in Hin. lia. }
  assert (WorkspaceSizeIndicator.isCancelled (created env)
            {| created := S (created env); cancelledSources := cancelledSources env |}
          = false) as Htoken by (apply bool_decide_eq_false_2; exact Hfresh).
  rewrite Htoken, Hcalc. cbn [mbind option_bind].
  eexists. split; [reflexivity|]. cbn [indicator].
  unfold WorkspaceSizeIndicator.refreshEnd. rewrite Htoken.
  unfold WorkspaceSizeIndicator.applyResults, WorkspaceSizeIndicator.setText,
    WorkspaceSizeIndicator.setItem.
  cbn [WorkspaceSizeIndicator.lastBreakdown WorkspaceSizeIndicator.statusBarItem
       WorkspaceSizeIndicator.currentCalculation WorkspaceSizeIndicator.isCalculating
       StatusBarItem.visible].
  split; [reflexivity|]. split; [reflexivity|]. split; [|reflexivity].
  now rewrite bool_decide_eq_true_2 by reflexivity.
Qed.

(** Of all the calculations an indicator has started, only the current one
    shows its results. After any sequence of refreshes, settled promises,
    folder changes and disposals, when the promise of a calculation in flight
    is fulfilled: if it is the current calculation, its results become the
    breakdown, the text is the formatted sum of their sizes, and no
    calculation is current any more; if it is not, the status bar item, the
    breakdown and the current calculation stay as they are. *)
Theorem only_the_current_calculation_is_shown {Uri : Type}
  (folders : list (WorkspaceFolder.t Uri)) (actions : list (Action Uri))
  (id : nat) (results : list (FolderSizeResult.t Uri)) :
  let sys := run actions (start folders) in
  let after := perform (Settle id (Results results)) sys in
  id ∈ inFlight sys ->
  (WorkspaceSizeIndicator.currentCalculation (indicator sys) = Some id ->
   WorkspaceSizeIndicator.lastBreakdown (indicator after) = results /\
   StatusBarItem.text (WorkspaceSizeIndicator.statusBarItem (indicator after))
   = ("$(database) "
        +:+ formatBytes (sumOf (map FolderSizeResult.size results)))%string /\
   WorkspaceSizeIndicator.currentCalculation (indicator after) = None) /\
  (WorkspaceSizeIndicator.currentCalculation (indicator sys) <> Some id ->
   WorkspaceSizeIndicator.statusBarItem (indicator after)
   = WorkspaceSizeIndicator.statusBarItem (indicator sys) /\
   WorkspaceSizeIndicator.lastBreakdown (indicator after)
   = WorkspaceSizeIndicator.lastBreakdown (indicator sys) /\
   WorkspaceSizeIndicator.currentCalculation (indicator after)
   = WorkspaceSizeIndicator.currentCalculation (indicator sys)).
Proof.
  intros sys after Hin.
  destruct (run_oneLive actions _ (start_oneLive folders))
    as (Hflight & Hcancelled & Hcurrent & Hothers).
  fold sys in Hflight, Hcancelled, Hcurrent, Hothers.
  subst after. unfold perform. rewrite bool_decide_eq_true_2 by exact Hin.
  cbn [indicator]. split.
  - intros Hc. destruct (Hcurrent id Hc) as [_ Hlive].
    unfold WorkspaceSizeIndicator.refreshEnd, WorkspaceSizeIndicator.isCancelled.
    rewrite bool_decide_eq_false_2 by exact Hlive.
    unfold WorkspaceSizeIndicator.applyResults, WorkspaceSizeIndicator.setText,
      WorkspaceSizeIndicator.setItem.
    cbn [WorkspaceSizeIndicator.lastBreakdown WorkspaceSizeIndicator.statusBarItem
         WorkspaceSizeIndicator.currentCalculation StatusBarItem.text].
    rewrite reduce_sizes.
    split; [reflexivity|]. split; [reflexivity|].
    now rewrite bool_decide_eq_true_2 by exact Hc.
  - intros Hne. pose proof (Hothers id Hin Hne) as Hsuperseded.
    unfold WorkspaceSizeIndicator.refreshEnd, WorkspaceSizeIndicator.isCancelled.
    rewrite bool_decide_eq_true_2 by exact Hsuperseded.
    cbn [WorkspaceSizeIndicator.lastBreakdown WorkspaceSizeIndicator.statusBarItem
         WorkspaceSizeIndicator.currentCalculation].
    now rewrite bool_decide_eq_false_2 by exact Hne.
Qed.

Lemma only_the_current_calculation_is_shown_witness :
  let folder := workspaceFolder "A" 0 in
  let sys := run [Refresh false [folder]; Refresh true [folder]] (start [folder]) in
  let results := [{| FolderSizeResult.folder := folder; FolderSizeResult.size := ofZ 1536 |}] in
  StatusBarItem.text
    (WorkspaceSizeIndicator.statusBarItem (indicator (perform (Settle 1%nat (Results results)) sys)))
  = "$(database) 1.5 KB"%string /\
  StatusBarItem.text
    (WorkspaceSizeIndicator.statusBarItem (indicator (perform (Settle 0%nat (Results results)) sys)))
  = "$(sync~spin) Calculating…"%string.
Proof.
  intros folder sys results. split.
  - assert (1%nat ∈ inFlight sys) as Hin by (apply (bool_decide_unpack _); vm_compute; exact I).
    destruct (only_the_current_calculation_is_shown [folder]
                [Refresh false [folder]; Refresh true [folder]] 1 results Hin) as [Hcurrent _].
    destruct (Hcurrent eq_refl) as (_ & Htext & _). exact Htext.
  - assert (0%nat ∈ inFlight sys) as Hin by (apply (bool_decide_unpack _); vm_compute; exact I).
    destruct (only_the_current_calculation_is_shown [folder]
                [Refresh false [folder]; Refresh true [folder]] 0 results Hin) as [_ Hother].
    destruct Hother as (Hitem & _); [discriminate|].
    fold sys in Hitem. rewrite Hitem. reflexivity.
Defined.

(** The indicator never has two calculations running to completion: after
    any sequence of refreshes, settled promises, folder changes and
    disposals, a calculation in flight whose token is not cancelled is the
    current calculation, so two of them are the same one. *)
Theorem at_most_one_calculation_is_live {Uri : Type}
  (folders : list (WorkspaceFolder.t Uri)) (actions : list (Action Uri)) (a b : nat) :
  let sys := run actions (start folders) in
  a ∈ inFlight sys -> a ∉ cancelledSources (sources sys) ->
  b ∈ inFlight sys -> b ∉ cancelledSources (sources sys) ->
  WorkspaceSizeIndicator.currentCalculation (indicator sys) = Some a /\ a = b.
Proof.
  intros sys Ha Hlivea Hb Hliveb.
  destruct (run_oneLive actions _ (start_oneLive folders)) as (_ & _ & _ & Hothers).
  fold sys in Hothers.
  assert (forall id, id ∈ inFlight sys -> id ∉ cancelledSources (sources sys) ->
                     WorkspaceSizeIndicator.currentCalculation (indicator sys) = Some id)
    as Hcurrent.
  { intros id Hid Hlive.
    destruct (decide (WorkspaceSizeIndicator.currentCalculation (indicator sys) = Some id))
      as [Hc | Hc]; [exact Hc|].
    exfalso. apply Hlive. now apply Hothers. }
  pose proof (Hcurrent a Ha Hlivea) as Hca. pose proof (Hcurrent b Hb Hliveb) as Hcb.
  split; [exact Hca | congruence].
Qed.

Lemma at_most_one_calculation_is_live_witness :
  let folder := workspaceFolder "A" 0 in
  let sys := run [Refresh false [folder]; Refresh true [folder]] (start [folder]) in
  1%nat ∈ inFlight sys /\ 0%nat ∈ inFlight sys /\
  WorkspaceSizeIndicator.currentCalculation (indicator sys) = Some 1%nat.
Proof.
  intros folder sys.
  assert (1%nat ∈ inFlight sys) as Hin by (apply (bool_decide_unpack _); vm_compute; exact I).
  assert (1%nat ∉ cancelledSources (sources sys)) as Hlive
    by (apply (bool_decide_unpack _); vm_compute; exact I).
  split; [exact Hin|].
  split; [apply (bool_decide_unpack _); vm_compute; exact I|].
  exact (proj1 (at_most_one_calculation_is_live [folder]
                  [Refresh false [folder]; Refresh true [folder]] 1 1 Hin Hlive Hin Hlive)).
Defined.

(** The guard of [refresh] against concurrent calculations is lifted by any
    calculation that ends, also a superseded one: when the promise of a
    calculation other than the current one [c] settles, [isCalculating] is
    false although [c] is still in flight, and the next refresh, forced or
    not, of a workspace with folders cancels [c] and starts a new
    calculation. *)
Theorem superseded_settlement_lifts_the_guard {Uri : Type}
  (folders0 : list (WorkspaceFolder.t Uri)) (actions : list (Action Uri))
  (id c : nat) (outcome : Outcome Uri) (force : bool)
  (folder : WorkspaceFolder.t Uri) (folders : list (WorkspaceFolder.t Uri)) :
  let sys := run actions (start folders0) in
  let settled := perform (Settle id outcome) sys in
  let after := perform (Refresh force (folder :: folders)) settled in
  id ∈ inFlight sys ->
  WorkspaceSizeIndicator.currentCalculation (indicator sys) = Some c ->
  id <> c ->
  (WorkspaceSizeIndicator.isCalculating (indicator settled) = false /\
   c ∈ inFlight settled /\ c ∉ cancelledSources (sources settled)) /\
  (WorkspaceSizeIndicator.currentCalculation (indicator after)
   = Some (created (sources sys)) /\
   created (sources sys) ∈ inFlight after /\
   c ∈ inFlight after /\ c ∈ cancelledSources (sources after)).
Proof.
  intros sys settled after Hin Hc Hne.
  destruct (run_oneLive actions _ (start_oneLive folders0)) as (_ & _ & Hcurrent & _).
  fold sys in Hcurrent. destruct (Hcurrent c Hc) as [Hcin Hclive].
  assert (settled
          = {| indicator :=
                 WorkspaceSizeIndicator.refreshEnd id outcome (indicator sys) (sources sys);
               sources := sources sys;
               inFlight := inFlight sys ∖ {[id]} |}) as Hsettled.
  { subst settled. unfold perform. now rewrite bool_decide_eq_true_2 by exact Hin. }
  assert (WorkspaceSizeIndicator.currentCalculation (indicator settled) = Some c) as Hsc.
  { rewrite Hsettled. cbn [indicator]. rewrite refreshEnd_current, Hc.
    rewrite bool_decide_eq_false_2; [reflexivity | congruence]. }
  assert (WorkspaceSizeIndicator.isCalculating (indicator settled) = false) as Hcalc.
  { rewrite Hsettled. reflexivity. }
  assert (c ∈ inFlight settled) as Hcs.
  { rewrite Hsettled. cbn [inFlight]. apply elem_of_difference. split; [exact Hcin|].
    intros Hs. apply elem_of_singleton in Hs. congruence. }
  assert (sources settled = sources sys) as Hsources by (now rewrite Hsettled).
  split.
  { split; [exact Hcalc|]. split; [exact Hcs|]. now rewrite Hsources. }
  subst after. unfold perform, WorkspaceSizeIndicator.refreshStart.
  rewrite Hcalc, Hsc, Hsources. cbn [andb]. unfold WorkspaceSizeIndicator.cancel.
  cbn [indicator sources inFlight created cancelledSources
       WorkspaceSizeIndicator.currentCalculation].
  split; [reflexivity|].
  split; [apply elem_of_union; left; now apply elem_of_singleton|].
  split; [apply elem_of_union; now right|].
  apply elem_of_union; left; now apply elem_of_singleton.
Qed.

Lemma superseded_settlement_lifts_the_guard_witness :
  let folder := workspaceFolder "A" 0 in
  let sys := run [Refresh false [folder]; Refresh true [folder]] (start [folder]) in
  let after := run [Settle 0%nat (Results []); Refresh false [folder]] sys in
  WorkspaceSizeIndicator.isCalculating (indicator sys) = true /\
  perform (Refresh false [folder]) sys = sys /\
  WorkspaceSizeIndicator.currentCalculation (indicator after) = Some 2%nat /\
  1%nat ∈ inFlight after /\ 1%nat ∈ cancelledSources (sources after).
Proof.
  intros folder sys after.
  assert (0%nat ∈ inFlight sys) as Hin by (apply (bool_decide_unpack _); vm_compute; exact I).
  destruct (superseded_settlement_lifts_the_guard [folder]
              [Refresh false [folder]; Refresh true [folder]] 0 1 (Results []) false
              folder [] Hin eq_refl) as (_ & Hcurrent & _ & Hflight & Hcancelled);
    [discriminate|].
  split; [reflexivity|]. split; [reflexivity|].
  split; [exact Hcurrent|]. split; [exact Hflight | exact Hcancelled].
Defined.

(** Folders of size zero do not show: for results whose sizes are integers,
    [applyResults] gives the status bar item the same text and tooltip for a
    list of results and for the list without its results of size zero. *)
Theorem applyResults_ignores_empty_folders {Uri : Type}
  (entries : list (WorkspaceFolder.t Uri * Z)) (this : WorkspaceSizeIndicator.t Uri) :
  let result := fun e : WorkspaceFolder.t Uri * Z =>
                  {| FolderSizeResult.folder := fst e;
                     FolderSizeResult.size := ofZ (snd e) |} in
  WorkspaceSizeIndicator.applyResults (map result entries) this
  = WorkspaceSizeIndicator.applyResults
      (map result (List.filter (fun e => negb (snd e =? 0)) entries)) this.
Proof.
  intros result. subst result. unfold WorkspaceSizeIndicator.applyResults. cbv zeta.
  rewrite !reduce_sizes, !map_map. cbn [FolderSizeResult.size].
  rewrite total_without_zeros
    by (exists 0; split; [reflexivity | now apply roundedOfZ_exact]).
  now rewrite (positive_without_zeros entries).
Qed.

(** The tooltip [applyResults] sets, line by line: the formatted sum of all
    sizes, then, when some folder has a size above zero, an empty line and one
    line for each such folder in the order of the results, then an empty line
    and the hint. The test of the joined breakdown for emptiness is a test
    for such a folder, as no line of the breakdown is empty. *)
Theorem tooltip_lists_the_folders_with_a_size {Uri : Type}
  (results : list (FolderSizeResult.t Uri)) (this : WorkspaceSizeIndicator.t Uri) :
  StatusBarItem.tooltip
    (WorkspaceSizeIndicator.statusBarItem (WorkspaceSizeIndicator.applyResults results this))
  = String.concat WorkspaceSizeIndicator.newline
      ([("Total workspace size: "
           +:+ formatBytes (sumOf (map FolderSizeResult.size results)))%string]
       ++ match shown results with
          | [] => []
          | _ :: _ => [""%string] ++ map WorkspaceSizeIndicator.breakdownLine (shown results)
          end
       ++ [""%string; WorkspaceSizeIndicator.hint]).
Proof.
  unfold WorkspaceSizeIndicator.applyResults, WorkspaceSizeIndicator.setText,
    WorkspaceSizeIndicator.setItem.
  cbn [WorkspaceSizeIndicator.statusBarItem StatusBarItem.tooltip].
  rewrite reduce_sizes. fold (sumOf (map FolderSizeResult.size results)).
  fold (shown results).
  rewrite breakdown_empty. destruct (shown results) as [|result rest]; [reflexivity|].
  exact (concat_nested WorkspaceSizeIndicator.newline
           [("Total workspace size: "
               +:+ formatBytes (sumOf (map FolderSizeResult.size results)))%string;
            ""%string]
           (map WorkspaceSizeIndicator.breakdownLine (result :: rest))
           [""%string; WorkspaceSizeIndicator.hint]
           ltac:(discriminate) ltac:(discriminate) ltac:(discriminate)).
Qed.

(** After [dispose] no calculation shows its results any more: whatever
    calculations are in flight when the indicator is disposed, the status
    bar item and the breakdown stay as they were while their promises are
    fulfilled, in any order. *)
Theorem nothing_is_shown_after_dispose {Uri : Type}
  (folders : list (WorkspaceFolder.t Uri)) (actions later : list (Action Uri)) :
  let sys := run actions (start folders) in
  let disposed := perform Dispose sys in
  forallb settlesWithResults later = true ->
  WorkspaceSizeIndicator.statusBarItem (indicator (run later disposed))
  = WorkspaceSizeIndicator.statusBarItem (indicator sys) /\
  WorkspaceSizeIndicator.lastBreakdown (indicator (run later disposed))
  = WorkspaceSizeIndicator.lastBreakdown (indicator sys).
Proof.
  intros sys disposed Hlater.
  pose proof (run_oneLive actions _ (start_oneLive folders)) as Hlive. fold sys in Hlive.
  pose proof (perform_oneLive Dispose sys Hlive) as Hdisposed. fold disposed in Hdisposed.
  assert (WorkspaceSizeIndicator.currentCalculation (indicator disposed) = None /\
          WorkspaceSizeIndicator.statusBarItem (indicator disposed)
          = WorkspaceSizeIndicator.statusBarItem (indicator sys) /\
          WorkspaceSizeIndicator.lastBreakdown (indicator disposed)
          = WorkspaceSizeIndicator.lastBreakdown (indicator sys))
    as (Hnone & Hitem & Hbreakdown).
  { subst disposed. unfold perform, WorkspaceSizeIndicator.dispose.
    destruct (WorkspaceSizeIndicator.currentCalculation (indicator sys)) eqn:Hc;
      cbn [indicator]; [now split | now rewrite Hc]. }
  destruct (settled_after_dispose later disposed Hdisposed Hnone Hlater)
    as (Hitem' & Hbreakdown' & _).
  split; congruence.
Qed.

Lemma nothing_is_shown_after_dispose_witness :
  let folder := workspaceFolder "A" 0 in
  let results := [{| FolderSizeResult.folder := folder; FolderSizeResult.size := ofZ 1536 |}] in
  let sys := run [Refresh false [folder]; Refresh true [folder]] (start [folder]) in
  let later := [Settle 1%nat (Results results); Settle 0%nat (Results results)] in
  StatusBarItem.text
    (WorkspaceSizeIndicator.statusBarItem (indicator (run (Dispose :: later) sys)))
  = "$(sync~spin) Calculating…"%string /\
  WorkspaceSizeIndicator.lastBreakdown (indicator (run (Dispose :: later) sys)) = [] /\
  StatusBarItem.text (WorkspaceSizeIndicator.statusBarItem (indicator (run later sys)))
  = "$(database) 1.5 KB"%string.
Proof.
  intros folder results sys later.
  destruct (nothing_is_shown_after_dispose [folder]
              [Refresh false [folder]; Refresh true [folder]] later eq_refl)
    as [Hitem Hbreakdown].
  fold sys in Hitem, Hbreakdown.
  change (run (Dispose :: later) sys) with (run later (perform Dispose sys)).
  rewrite Hitem, Hbreakdown. split; [reflexivity|]. split; reflexivity.
Defined.


Lemma trees_within (trees : list (list (string * Tree))) (bound : Z) :
  Forall (fun entries => naturalSizes (Folder entries)) trees ->
  sumZ (map (fun entries => treeSize (Folder entries)) trees) <= bound ->
  Forall (fun entries => treeSize (Folder entries) <= bound) trees.
Proof.
  intros Hnatural. revert bound.
  induction Hnatural as [|entries trees Hentries Hrest IH]; intros bound Hbound;
    [constructor|].
  change (treeSize (Folder entries)
          + sumZ (map (fun entries => treeSize (Folder entries)) trees) <= bound) in Hbound.
  pose proof (treeSize_nonneg (Folder entries) Hentries) as Hfirst.
  assert (0 <= sumZ (map (fun entries => treeSize (Folder entries)) trees)) as Hothers.
  { clear -Hrest. induction Hrest as [|e es He _ IH]; [reflexivity|].
    change (0 <= treeSize (Folder e)
                 + sumZ (map (fun entries => treeSize (Folder entries)) es)).
    pose proof (treeSize_nonneg (Folder e) He). lia. }
  constructor; [lia|]. apply IH. lia.
Qed.

(** From the file system to the status bar: in a workspace whose folders
    hold trees of regular files and directories, with sizes that are
    non-negative integers and add up to at most 2^53 over the workspace, a
    refresh that is not held back by the guard and during which nothing else
    happens to the indicator, in whatever state the indicator was before,
    ends with the formatted sum of all file sizes as the text, one result per
    folder with the size of its tree as the breakdown, no current calculation
    and [isCalculating] false. The token of the new calculation is fresh, so
    that the results are not dropped. *)
Theorem refresh_shows_the_workspace_size {Uri : Type} `{UriOps Uri} (fs : FileSystem Uri)
  (folders0 : list (WorkspaceFolder.t Uri)) (actions : list (Action Uri)) (force : bool)
  (folder : WorkspaceFolder.t Uri) (rest : list (WorkspaceFolder.t Uri))
  (trees : list (list (string * Tree))) :
  let sys := run actions (start folders0) in
  let folders := folder :: rest in
  Forall2 (fun folder entries =>
             hosts fs (WorkspaceFolder.uri folder) (Folder entries) /\
             NoDup (directoryKeys (WorkspaceFolder.uri folder) (Folder entries)))
          folders trees ->
  Forall (fun entries => naturalSizes (Folder entries)) trees ->
  sumZ (map (fun entries => treeSize (Folder entries)) trees) <= 2 ^ 53 ->
  WorkspaceSizeIndicator.isCalculating (indicator sys) && negb force = false ->
  exists fuel0, forall fuel, (fuel0 <= fuel)%nat ->
    exists after,
      refresh fs fuel force folders sys = Some after /\
      StatusBarItem.text (WorkspaceSizeIndicator.statusBarItem (indicator after))
      = ("$(database) "
           +:+ formatBytes
                 (ofZ (sumZ (map (fun entries => treeSize (Folder entries)) trees))))%string /\
      map FolderSizeResult.folder (WorkspaceSizeIndicator.lastBreakdown (indicator after))
      = folders /\
      map FolderSizeResult.size (WorkspaceSizeIndicator.lastBreakdown (indicator after))
      = map (fun entries => ofZ (treeSize (Folder entries))) trees /\
      WorkspaceSizeIndicator.currentCalculation (indicator after) = None /\
      WorkspaceSizeIndicator.isCalculating (indicator after) = false.
Proof.
  intros sys folders Htrees Hnatural Hbound Hguard.
  pose proof (run_oneLive actions _ (start_oneLive folders0)) as Hlive. fold sys in Hlive.
  assert (Forall (fun size => 0 <= size)
            (map (fun entries => treeSize (Folder entries)) trees)) as Hsizes_nonneg.
  { apply Forall_map. eapply Forall_impl; [exact Hnatural|].
    intros entries Hentries. now apply (treeSize_nonneg (Folder entries)). }
  pose proof (trees_within trees (2 ^ 53) Hnatural Hbound) as Hwithin.
  assert (Forall2 (fun folder entries =>
             hosts fs (WorkspaceFolder.uri folder) (Folder entries) /\
             NoDup (directoryKeys (WorkspaceFolder.uri folder) (Folder entries)) /\
             naturalSizes (Folder entries) /\
             treeSize (Folder entries) <= 2 ^ 53)
          folders trees) as Htrees'.
  { clear -Htrees Hnatural Hwithin.
    induction Htrees as [|f entries fs' trees' [Hhosts Hnodup] _ IH]; [constructor|].
    apply Forall_cons in Hnatural as [Hn Hnatural].
    apply Forall_cons in Hwithin as [He Hwithin].
    constructor; [|now apply IH]. split; [exact Hhosts|]. split; [exact Hnodup|].
    split; [exact Hn | exact He]. }
  destruct (calculate_trees fs calculator 32 folders trees eq_refl ltac:(lia) Htrees')
    as [fuel0 Hfuel].
  exists fuel0. intros fuel Hle. specialize (Hfuel fuel Hle (fun i => i)).
  destruct (results_of_trees folders trees (Forall2_length _ _ _ Htrees))
    as [Hfolders Hsizes].
  set (results := zip_with _ folders trees) in *.
  assert (calculate fs calculator fuel folders (fun _ _ => false) = Some results) as Hcalc
    by (unfold calculate; exact Hfuel).
  destruct (refresh_started fs fuel force folder rest sys results Hlive Hguard Hcalc)
    as (after & Hafter & Hitem & Hbreakdown & Hcurrent & Hcalculating).
  exists after. split; [exact Hafter|]. rewrite Hitem, Hbreakdown.
  split; [|now split].
  unfold WorkspaceSizeIndicator.applyResults, WorkspaceSizeIndicator.setText,
    WorkspaceSizeIndicator.setItem.
  cbn [WorkspaceSizeIndicator.statusBarItem StatusBarItem.text].
  rewrite reduce_sizes, Hsizes, <- (map_map (fun entries => treeSize (Folder entries)) ofZ).
  rewrite sumOf_exact by (assumption || lia). reflexivity.
Qed.

Lemma refresh_shows_the_workspace_size_witness :
  exists fuel after,
    refresh twoRootsFs fuel false [workspaceFolder "A" 0; workspaceFolder "B" 1]
      (start [workspaceFolder "A" 0; workspaceFolder "B" 1]) = Some after /\
    StatusBarItem.text (WorkspaceSizeIndicator.statusBarItem (indicator after))
    = "$(database) 800 B"%string /\
    map FolderSizeResult.size (WorkspaceSizeIndicator.lastBreakdown (indicator after))
    = [ofZ 0; ofZ 800].
Proof.
  destruct hosts_twoRoots as (HA & HB & _).
  destruct (refresh_shows_the_workspace_size twoRootsFs
              [workspaceFolder "A" 0; workspaceFolder "B" 1] [] false
              (workspaceFolder "A" 0) [workspaceFolder "B" 1] [treeA; treeB])
    as [fuel0 Hfuel]; [| | |reflexivity|].
  - constructor; [split; [exact HA | apply (bool_decide_unpack _); vm_compute; exact I]|].
    constructor; [split; [exact HB | apply (bool_decide_unpack _); vm_compute; exact I]|].
    constructor.
  - constructor; [exact I|]. constructor; [simpl; lia | constructor].
  - vm_compute. discriminate.
  - destruct (Hfuel fuel0 (le_n fuel0)) as (after & Hafter & Htext & _ & Hsizes & _).
    exists fuel0, after. split; [exact Hafter|]. split; [exact Htext | exact Hsizes].
Defined.
